(** * FinCalc v2: the projection engine and the amortization calculator

    A shallow embedding of [src/core/FinancialEngine.js] (class
    [FinancialEngine]) and [src/data/LiabilityClasses.js] (class
    [LiabilityClasses]), with the properties that the specification states
    about them, and of the caller's refresh of the cached totals in
    [src/app.js].  Further properties follow the code alone: the grouping
    and the breakdown, growth over the years and across the scenarios, the
    liabilities with the registry loaded, the metrics, the cache, the loan
    validation and the payment schedule, and the modifications of a
    portfolio.

    Numbers.  A JavaScript number is modelled as an exact rational or one of
    the three special values [+Infinity], [-Infinity] and [NaN]: arithmetic
    is the IEEE arithmetic of the source without rounding error, overflow
    and the sign of zero.  Fields of the caller's data (asset values, loan
    parameters, settings) hold finite numbers and have type [Q]; a field the
    code guards with [||] or [?.] has an [option] type, [None] standing for
    [undefined].  Everything the engine computes has type [number]. *)

From Stdlib Require Import QArith Qround Qabs Qminmax Qpower Lqa Lia ZArith List String Bool.
From stdpp Require Import gmap strings pretty.
Import ListNotations.
Local Open Scope Q_scope.

(** ** Numbers *)

Inductive number : Type :=
| Fin (q : Q)
| PInf
| NInf
| NaN.

(** Equality of numbers as values: rationals are compared with [Qeq]. *)
Definition num_eq (a b : number) : Prop :=
  match a, b with
  | Fin x, Fin y => x == y
  | PInf, PInf | NInf, NInf | NaN, NaN => True
  | _, _ => False
  end.

(** The sign of a number that is not [NaN], and the infinity of a sign
    ([Eq] standing for an undefined sign). *)
Definition sgn (a : number) : comparison :=
  match a with
  | Fin x => x ?= 0
  | PInf => Gt
  | NInf => Lt
  | NaN => Eq
  end.

Definition inf_of (c : comparison) : number :=
  match c with Gt => PInf | Lt => NInf | Eq => NaN end.

Definition cmul (c d : comparison) : comparison :=
  match c, d with
  | Eq, _ | _, Eq => Eq
  | Gt, Gt | Lt, Lt => Gt
  | _, _ => Lt
  end.

Definition jneg (a : number) : number :=
  match a with
  | Fin x => Fin (- x)
  | PInf => NInf
  | NInf => PInf
  | NaN => NaN
  end.

Definition jadd (a b : number) : number :=
  match a, b with
  | NaN, _ | _, NaN => NaN
  | Fin x, Fin y => Fin (x + y)
  | PInf, NInf | NInf, PInf => NaN
  | PInf, _ | _, PInf => PInf
  | NInf, _ | _, NInf => NInf
  end.

Definition jsub (a b : number) : number := jadd a (jneg b).

Definition jmul (a b : number) : number :=
  match a, b with
  | NaN, _ | _, NaN => NaN
  | Fin x, Fin y => Fin (x * y)
  | _, _ => inf_of (cmul (sgn a) (sgn b))
  end.

(** [x / 0] is an infinity with the sign of [x], and [NaN] when [x] is zero:
    the zero divisors of the engine are differences and powers, which are
    positive zeros. *)
Definition jdiv (a b : number) : number :=
  match a, b with
  | NaN, _ | _, NaN => NaN
  | Fin x, Fin y => if Qeq_bool y 0 then inf_of (x ?= 0) else Fin (x / y)
  | Fin _, _ => Fin 0
  | _, Fin y => inf_of (cmul (sgn a) (if Qeq_bool y 0 then Gt else y ?= 0))
  | _, _ => NaN
  end.

Declare Scope js_scope.
Delimit Scope js_scope with js.
Bind Scope js_scope with number.
Infix "+!" := jadd (at level 50, left associativity) : js_scope.
Infix "-!" := jsub (at level 50, left associativity) : js_scope.
Infix "*!" := jmul (at level 40, left associativity) : js_scope.
Infix "/!" := jdiv (at level 40, left associativity) : js_scope.
Infix "=j" := num_eq (at level 70, no associativity) : js_scope.

(** Comparisons: every comparison with [NaN] is false. *)
Definition ncompare (a b : number) : option comparison :=
  match a, b with
  | NaN, _ | _, NaN => None
  | Fin x, Fin y => Some (x ?= y)
  | PInf, PInf | NInf, NInf => Some Eq
  | NInf, _ | _, PInf => Some Lt
  | PInf, _ | _, NInf => Some Gt
  end.

Definition jlt (a b : number) : bool :=
  match ncompare a b with Some Lt => true | _ => false end.
Definition jle (a b : number) : bool :=
  match ncompare a b with Some Lt | Some Eq => true | _ => false end.
Definition jgt (a b : number) : bool := jlt b a.
Definition jge (a b : number) : bool := jle b a.

(** Comparisons of finite numbers. *)
Definition Qleb (x y : Q) : bool := jle (Fin x) (Fin y).
Definition Qltb (x y : Q) : bool := jlt (Fin x) (Fin y).

(** [Math.round]: the nearest integer, a half rounding up. *)
Definition Math_round (a : number) : number :=
  match a with
  | Fin x => Fin (inject_Z (Qfloor (x + (1 # 2))))
  | _ => a
  end.

Definition Math_max (a b : number) : number :=
  match ncompare a b with
  | None => NaN
  | Some Lt => b
  | Some _ => a
  end.

Definition Math_min (a b : number) : number :=
  match ncompare a b with
  | None => NaN
  | Some Gt => b
  | Some _ => a
  end.

(** Truthiness of a number: [0] and [NaN] are falsy. *)
Definition truthy (a : number) : bool :=
  match a with
  | Fin x => negb (Qeq_bool x 0)
  | NaN => false
  | _ => true
  end.

(** [v || d] for a value [v] that is a number or [undefined]. *)
Definition jor (v : option number) (d : number) : number :=
  match v with
  | Some a => if truthy a then a else d
  | None => d
  end.

(** Linear arithmetic with divisions by literals. *)
Ltac qlra := unfold Qdiv in *; cbn [Qinv Qnum Qden] in *; lra.

Definition is_integer (y : Q) : bool := Qeq_bool y (inject_Z (Qfloor y)).

Definition is_odd_integer (y : Q) : bool := is_integer y && Z.odd (Qfloor y).

(** ** Data model *)

Record Asset : Type := {
  asset_id : string;
  asset_type : string;
  asset_name : string;
  value : option Q
}.

Record Liability : Type := {
  liability_id : string;
  liability_type : string;
  liability_name : string;
  principal : Q;
  currentBalance : option Q;
  rate : Q;
  termYears : Q;
  monthlyPayment : Q
}.

(** The three totals are fields that the caller caches. *)
Record Portfolio : Type := {
  assets : option (list Asset);
  liabilities : option (list Liability);
  totalValue : option Q;
  totalLiabilities : option Q;
  netWorth : option Q
}.

Record Settings : Type := {
  horizonYears : Q;
  inflation : Q;
  showRealValues : bool
}.

Inductive ScenarioType : Type := Pessimistic | Base | Optimistic.

Record Rates : Type := {
  rate_pessimistic : Q;
  rate_base : Q;
  rate_optimistic : Q
}.

(** [scenarios.returnRates] is an object: its entries in insertion order. *)
Record Scenarios : Type := {
  returnRates : list (string * Rates)
}.

(** One element of a projection ([yearData] in the source). *)
Record YearPoint : Type := {
  year : nat;
  nominal : number;
  real : number;
  breakdown : list (string * number);
  yp_liabilities : number;
  yp_netWorth : number
}.

Record Projections : Type := {
  pessimistic : list YearPoint;
  base : list YearPoint;
  optimistic : list YearPoint
}.

Record FutureValue : Type := {
  fv_pessimistic : number;
  fv_base : number;
  fv_optimistic : number
}.

Record Metrics : Type := {
  currentValue : Q;
  futureValue : FutureValue;
  growthRate : number;
  volatility : number;
  sharpeRatio : number;
  maxDrawdown : number;
  riskScore : number
}.

(** The globals the engine reads: the asset type registry
    [window.assetClasses] (absent, or a table from type tags to their
    entries) and the liability registry [window.liabilityClasses] (absent,
    or the instance of [LiabilityClasses]). *)
Record AssetInfo : Type := {
  inflationAdjustment : option (ScenarioType -> option Q)
}.

Record AssetClasses : Type := {
  assetTypes : gmap string AssetInfo
}.

Record Window : Type := {
  assetClasses : option AssetClasses;
  liabilityClasses : bool
}.

(** What [getCacheKey] serializes. *)
Record CacheData : Type := {
  cd_assets : list (string * option Q);
  cd_liabilities : list (string * Q * Q * Q);
  cd_scenarios : list (string * (Q * Q * Q));
  cd_horizon : Q;
  cd_inflation : Q
}.

(** The engine instance: its [cache] maps a key to a reference, and a
    reference is an index in the store of the projection objects allocated
    so far. *)
Record FinancialEngine : Type := {
  store : list Projections;
  cache : gmap string nat
}.

Section JS.

(** [Math.pow] at a positive finite base and a finite exponent that is not
    an integer: the value is not rational in general and is left to the
    platform's mathematical library. *)
Variable pow_real : Q -> Q -> Q.

(** [Math.pow], by the cases of the language definition. *)
Definition Math_pow (b e : number) : number :=
  match e with
  | NaN => NaN
  | Fin y =>
      if Qeq_bool y 0 then Fin 1 else
      match b with
      | NaN => NaN
      | PInf => if Qleb 0 y then PInf else Fin 0
      | NInf => if Qleb 0 y then (if is_odd_integer y then NInf else PInf) else Fin 0
      | Fin x =>
          if Qeq_bool x 0 then (if Qleb 0 y then Fin 0 else PInf)
          else if is_integer y then Fin (x ^ Qfloor y)
          else if Qleb 0 x then Fin (pow_real x y)
          else NaN
      end
  | PInf =>
      match b with
      | NaN => NaN
      | Fin x => match Qabs x ?= 1 with Gt => PInf | Eq => NaN | Lt => Fin 0 end
      | _ => PInf
      end
  | NInf =>
      match b with
      | NaN => NaN
      | Fin x => match Qabs x ?= 1 with Gt => Fin 0 | Eq => NaN | Lt => PInf end
      | _ => Fin 0
      end
  end.

(** ** LiabilityClasses.js *)

Definition calculateMonthlyPayment (principal annualRate termYears : Q) : number :=
  if Qleb principal 0 || Qleb annualRate 0 || Qleb termYears 0 then Fin 0
  else
    let monthlyRate := annualRate / 100 / 12 in
    let numPayments := termYears * 12 in
    let monthlyPayment :=
      (Fin principal *!
         (Fin monthlyRate *! Math_pow (Fin (1 + monthlyRate)) (Fin numPayments)) /!
         (Math_pow (Fin (1 + monthlyRate)) (Fin numPayments) -! Fin 1))%js in
    (Math_round (monthlyPayment *! Fin 100) /! Fin 100)%js.

Definition calculateRemainingBalance (liability : Liability) (years : Q) : number :=
  if Qleb years 0 then Fin (principal liability)
  else if Qleb (termYears liability) years then Fin 0
  else
    let monthlyRate := rate liability / 100 / 12 in
    let totalPayments := termYears liability * 12 in
    let paymentsMade := years * 12 in
    let remainingBalance :=
      (Fin (principal liability) *!
         (Math_pow (Fin (1 + monthlyRate)) (Fin totalPayments) -!
          Math_pow (Fin (1 + monthlyRate)) (Fin paymentsMade)) /!
         (Math_pow (Fin (1 + monthlyRate)) (Fin totalPayments) -! Fin 1))%js in
    Math_max (Fin 0) (Math_round (remainingBalance *! Fin 100) /! Fin 100)%js.

(** ** FinancialEngine.js *)

(** [JSON.stringify] on the data of a cache key. *)
Variable JSON_stringify : CacheData -> string.

Definition getAssetInfo (ac : AssetClasses) (assetType : string) : option AssetInfo :=
  assetTypes ac !! assetType.

(** [v || 0] for a finite number or [undefined]. *)
Definition or0 (v : option Q) : Q :=
  match v with Some x => x | None => 0 end.

(** One step of the [reduce] of [groupAssetsByType], on the entries of the
    object [groups] in the order in which their keys were added.  This is
    the code for type tags that do not name a member of [Object.prototype]
    ([inherited] below): for such a name [groups[asset.type]] finds the
    inherited member, no list is made and [push] throws.  The order is that
    of [Object.entries] for tags that are not array indices ([index_like]
    below), which it lists first. *)
Fixpoint group_push (groups : list (string * list Asset)) (asset : Asset)
  : list (string * list Asset) :=
  match groups with
  | [] => [(asset_type asset, [asset])]
  | (t, g) :: rest =>
      if String.eqb t (asset_type asset) then (t, g ++ [asset]) :: rest
      else (t, g) :: group_push rest asset
  end.

Definition groupAssetsByType (assets : list Asset) : list (string * list Asset) :=
  fold_left group_push assets [].

Definition calculateAssetTypeValue (assets : list Asset) (returnRate years : Q) : number :=
  let totalValue := fold_left (fun sum asset => sum + or0 (value asset)) assets 0 in
  let growthFactor := Math_pow (Fin (1 + returnRate / 100)) (Fin years) in
  (Fin totalValue *! growthFactor)%js.

Definition calculateInflationAdjustedReturn (inflationRate adjustment : Q) : Q :=
  inflationRate + adjustment.

Definition calculateLiabilitiesValue (w : Window) (liabilities : option (list Liability))
    (years : Q) : number :=
  match liabilities with
  | None | Some [] => Fin 0
  | Some ls =>
      fold_left (fun totalLiabilities liability =>
        if negb (liabilityClasses w)
        then (totalLiabilities +! Fin (or0 (currentBalance liability)))%js
        else
          let remainingBalance := calculateRemainingBalance liability years in
          (totalLiabilities +! remainingBalance)%js) ls (Fin 0)
  end.

(** [window.assetClasses?.getAssetInfo(t)?.inflationAdjustment?.[s] || 0] *)
Definition adjustment_of (w : Window) (assetType : string) (scenarioType : ScenarioType) : Q :=
  or0 (ac ← assetClasses w;
       assetInfo ← getAssetInfo ac assetType;
       adj ← inflationAdjustment assetInfo;
       adj scenarioType).

(** The callback of [Object.entries(assetsByType).forEach]: it enters the
    value of one asset type in the breakdown and adds it to the nominal value
    of the year. *)
Definition typeStep (w : Window) (inflationRate : Q) (scenarioType : ScenarioType)
    (y : Q) (acc : list (string * number) * number) (entry : string * list Asset)
  : list (string * number) * number :=
  let '(bd, nom) := acc in
  let '(assetType, assets) := entry in
  let inflationAdjustment := adjustment_of w assetType scenarioType in
  let returnRate :=
    calculateInflationAdjustedReturn (inflationRate * 100) inflationAdjustment in
  let typeValue := calculateAssetTypeValue assets returnRate y in
  (bd ++ [(assetType, typeValue)], (nom +! typeValue)%js).

(** The body of the loop over the years. *)
Definition yearData (w : Window) (assetsByType : list (string * list Asset))
    (liabilities : list Liability) (inflationRate : Q) (scenarioType : ScenarioType)
    (year : nat) : YearPoint :=
  let y := inject_Z (Z.of_nat year) in
  let '(breakdown, nominal) :=
    fold_left (typeStep w inflationRate scenarioType y) assetsByType ([], Fin 0) in
  let liabilitiesValue := calculateLiabilitiesValue w (Some liabilities) y in
  let netWorth := (nominal -! liabilitiesValue)%js in
  let inflationFactor := Math_pow (Fin (1 + inflationRate)) (Fin y) in
  {| year := year;
     nominal := nominal;
     real := (netWorth /! inflationFactor)%js;
     breakdown := breakdown;
     yp_liabilities := liabilitiesValue;
     yp_netWorth := netWorth |}.

(** How often [for (let year = 0; year <= horizonYears; year++)] runs. *)
Definition iterations (horizonYears : Q) : nat :=
  if Qleb 0 horizonYears then S (Z.to_nat (Qfloor horizonYears)) else O.

Definition calculateScenarioProjection (w : Window) (portfolio : Portfolio)
    (scenarios : Scenarios) (scenarioType : ScenarioType) (settings : Settings)
  : list YearPoint :=
  let inflationRate := inflation settings / 100 in
  let assetsByType := groupAssetsByType (default [] (assets portfolio)) in
  let liabilities := default [] (liabilities portfolio) in
  map (yearData w assetsByType liabilities inflationRate scenarioType)
      (seq 0 (iterations (horizonYears settings))).

Definition getCacheKey (portfolio : Portfolio) (scenarios : Scenarios)
    (settings : Settings) : string :=
  let data :=
    {| cd_assets :=
         default [] (map (fun a => (asset_type a, option_map Qred (value a)))
                       <$> assets portfolio);
       cd_liabilities :=
         default [] (map (fun l => (liability_type l, Qred (principal l),
                                     Qred (rate l), Qred (termYears l)))
                       <$> liabilities portfolio);
       cd_scenarios :=
         map (fun '(t, r) => (t, (Qred (rate_pessimistic r), Qred (rate_base r),
                                   Qred (rate_optimistic r))))
             (returnRates scenarios);
       cd_horizon := Qred (horizonYears settings);
       cd_inflation := Qred (inflation settings) |} in
  JSON_stringify data.

Definition calculateProjections (w : Window) (engine : FinancialEngine)
    (portfolio : Portfolio) (scenarios : Scenarios) (settings : Settings)
  : nat * FinancialEngine :=
  let cacheKey := getCacheKey portfolio scenarios settings in
  match cache engine !! cacheKey with
  | Some r => (r, engine)
  | None =>
      let projections :=
        {| pessimistic :=
             calculateScenarioProjection w portfolio scenarios Pessimistic settings;
           base := calculateScenarioProjection w portfolio scenarios Base settings;
           optimistic :=
             calculateScenarioProjection w portfolio scenarios Optimistic settings |} in
      let r := length (store engine) in
      (r, {| store := store engine ++ [projections];
             cache := <[cacheKey := r]> (cache engine) |})
  end.

(** A sequence of calls of [calculateProjections] on one engine. *)
Definition run_calls (calls : list (Window * Portfolio * Scenarios * Settings))
    (engine : FinancialEngine) : FinancialEngine :=
  fold_left (fun e '(w, p, sc, st) => snd (calculateProjections w e p sc st))
    calls engine.

(** [a[i]] for an array and a number: [undefined] unless [i] is an index. *)
Definition array_get {A : Type} (a : list A) (i : Q) : option A :=
  if is_integer i && Qleb 0 i then nth_error a (Z.to_nat (Qfloor i)) else None.

Definition calculateMaxDrawdown (projections : list YearPoint) : number :=
  snd (fold_left (fun '(maxValue, maxDrawdown) yearData =>
         let value := nominal yearData in
         let maxValue := Math_max maxValue value in
         if jgt maxValue (Fin 0)
         then
           let drawdown := ((maxValue -! value) /! maxValue *! Fin 100)%js in
           (maxValue, Math_max maxDrawdown drawdown)
         else (maxValue, maxDrawdown))
       projections (Fin 0, Fin 0)).

(** The lookup in the table of risk weights, for type tags that do not name
    a member of [Object.prototype]: for such a name the lookup finds the
    inherited member, which is not a number. *)
Definition assetRiskWeights (assetType : string) : option Q :=
  if String.eqb assetType "cash" then Some 1
  else if String.eqb assetType "bonds" then Some 2
  else if String.eqb assetType "realty" then Some 4
  else if String.eqb assetType "stocks" then Some 6
  else None.

Definition calculateRiskScore (portfolio : Portfolio) (volatility : number) : number :=
  match assets portfolio with
  | None | Some [] => Fin 1
  | Some assets =>
      let totalValue := jor (Fin <$> totalValue portfolio) (Fin 1) in
      let weightedRisk :=
        fold_left (fun weightedRisk asset =>
          let weight := (Fin (or0 (value asset)) /! totalValue)%js in
          let assetRisk := jor (Fin <$> assetRiskWeights (asset_type asset)) (Fin 3) in
          (weightedRisk +! weight *! assetRisk)%js) assets (Fin 0) in
      let volatilityAdjustment := Math_min (volatility /! Fin 20)%js (Fin 2) in
      Math_min (Math_max (Math_round (weightedRisk +! volatilityAdjustment)%js) (Fin 1))
               (Fin 10)
  end.

Definition calculateMetrics (portfolio : Portfolio) (projections : Projections)
    (settings : Settings) : Metrics :=
  let currentValue := or0 (totalValue portfolio) in
  let futureValueBase := jor (nominal <$> last (base projections)) (Fin 0) in
  let growthRate :=
    if Qltb 0 currentValue && Qltb 0 (horizonYears settings)
    then ((Math_pow (futureValueBase /! Fin currentValue)
                    (Fin 1 /! Fin (horizonYears settings)) -! Fin 1) *! Fin 100)%js
    else Fin 0 in
  let finalYear := horizonYears settings in
  let pessimisticValue :=
    jor (nominal <$> array_get (pessimistic projections) finalYear) (Fin 0) in
  let optimisticValue :=
    jor (nominal <$> array_get (optimistic projections) finalYear) (Fin 0) in
  let volatility :=
    if Qltb 0 currentValue
    then ((optimisticValue -! pessimisticValue) /! Fin (2 * currentValue) *! Fin 100)%js
    else Fin 0 in
  let riskFreeRate := Fin 4 in
  let sharpeRatio :=
    if jgt volatility (Fin 0) then ((growthRate -! riskFreeRate) /! volatility)%js
    else Fin 0 in
  let maxDrawdown := calculateMaxDrawdown (pessimistic projections) in
  let riskScore := calculateRiskScore portfolio volatility in
  {| currentValue := currentValue;
     futureValue := {| fv_pessimistic := pessimisticValue;
                       fv_base := futureValueBase;
                       fv_optimistic := optimisticValue |};
     growthRate := growthRate;
     volatility := volatility;
     sharpeRatio := sharpeRatio;
     maxDrawdown := maxDrawdown;
     riskScore := riskScore |}.

(** ** Specification-level definitions *)

(** The power function on a positive base, as [Math.pow] computes it. *)
Definition power (x y : Q) : Q :=
  if is_integer y then x ^ Qfloor y else pow_real x y.

(** [Math.pow] grows with the exponent at a base above one, and is above one
    at a positive exponent.  For integer exponents this is a property of
    [Qpower]; elsewhere it is a property of the platform's library. *)
Definition pow_monotone : Prop :=
  (forall x a b, 1 < x -> 0 < a -> a <= b -> power x a <= power x b) /\
  (forall x a, 1 < x -> 0 < a -> 1 < power x a).

(** Rounding to two decimal places, a half cent rounding up. *)
Definition round2 (x : Q) : Q := inject_Z (Qfloor (x * 100 + (1 # 2))) / 100.

(** The annuity payment of the specification. *)
Definition spec_monthly_payment (P annualRatePercent termYears : Q) : Q :=
  let r := annualRatePercent / 100 / 12 in
  let n := termYears * 12 in
  round2 (P * (r * power (1 + r) n) / (power (1 + r) n - 1)).

(** The closed form of the remaining balance between the two ends of the
    term, and the balance of the specification: the closed form floored at 0
    and rounded. *)
Definition raw_balance (P ratePercent termYears elapsedYears : Q) : Q :=
  let r := ratePercent / 100 / 12 in
  let total := termYears * 12 in
  let made := elapsedYears * 12 in
  P * (power (1 + r) total - power (1 + r) made) / (power (1 + r) total - 1).

Definition spec_remaining_balance (P ratePercent termYears elapsedYears : Q) : Q :=
  Qmax 0 (round2 (raw_balance P ratePercent termYears elapsedYears)).

(** A liability as the caller's validation admits it. *)
Definition valid_liability (l : Liability) : Prop :=
  0 < principal l /\ 0 < rate l /\ 0 < termYears l.

(** The balance of the specification at every elapsed time. *)
Definition balance_value (l : Liability) (y : Q) : Q :=
  if Qleb y 0 then principal l
  else if Qleb (termYears l) y then 0
  else spec_remaining_balance (principal l) (rate l) (termYears l) y.

Fixpoint sum_values (assets : list Asset) : Q :=
  match assets with
  | [] => 0
  | a :: rest => or0 (value a) + sum_values rest
  end.

Fixpoint sum_balances (ls : list Liability) : Q :=
  match ls with
  | [] => 0
  | l :: rest => or0 (currentBalance l) + sum_balances rest
  end.

(** The return rate, in percent, that a projection applies to an asset type. *)
Definition returnRate_of (w : Window) (settings : Settings) (assetType : string)
    (scenarioType : ScenarioType) : Q :=
  calculateInflationAdjustedReturn (inflation settings / 100 * 100)
    (adjustment_of w assetType scenarioType).

(** The nominal value of the specification at year [n]: every type's total
    compounded [n] times at the type's rate, summed over the types. *)
Fixpoint groups_value (rate_of : string -> Q) (n : nat)
    (groups : list (string * list Asset)) : Q :=
  match groups with
  | [] => 0
  | (t, g) :: rest =>
      sum_values g * (1 + rate_of t / 100) ^ Z.of_nat n + groups_value rate_of n rest
  end.

(** A number within [tol] of a value. *)
Definition close_to (tol : Q) (a : number) (v : Q) : Prop :=
  match a with Fin x => Qabs (x - v) <= tol | _ => False end.

(** Inputs with equal data under [getCacheKey]: numbers are compared as
    values. *)
Definition same_value (u v : option Q) : Prop :=
  match u, v with
  | Some x, Some y => x == y
  | None, None => True
  | _, _ => False
  end.

Definition same_asset (a b : Asset) : Prop :=
  asset_type a = asset_type b /\ same_value (value a) (value b).

Definition same_liability (k l : Liability) : Prop :=
  liability_type k = liability_type l /\ principal k == principal l /\
  rate k == rate l /\ termYears k == termYears l.

Definition same_rates (a b : string * Rates) : Prop :=
  fst a = fst b /\ rate_pessimistic (snd a) == rate_pessimistic (snd b) /\
  rate_base (snd a) == rate_base (snd b) /\
  rate_optimistic (snd a) == rate_optimistic (snd b).

Definition structurally_identical
    (p1 : Portfolio) (sc1 : Scenarios) (st1 : Settings)
    (p2 : Portfolio) (sc2 : Scenarios) (st2 : Settings) : Prop :=
  Forall2 same_asset (default [] (assets p1)) (default [] (assets p2)) /\
  Forall2 same_liability (default [] (liabilities p1)) (default [] (liabilities p2)) /\
  Forall2 same_rates (returnRates sc1) (returnRates sc2) /\
  horizonYears st1 == horizonYears st2 /\
  inflation st1 == inflation st2.

(** Every reference in the cache points into the store. *)
Definition engine_wf (engine : FinancialEngine) : Prop :=
  forall k r, cache engine !! k = Some r -> (r < length (store engine))%nat.

(** [new FinancialEngine()] *)
Definition new_FinancialEngine : FinancialEngine :=
  {| store := []; cache := ∅ |}.

(** ** Sample data *)

(** A power function for the instances below: between two integer exponents
    it interpolates linearly. *)
Definition pow_lin (x y : Q) : Q :=
  x ^ Qfloor y * (1 + (y - inject_Z (Qfloor y)) * (x - 1)).

(** A serializer for the instances below. *)
Definition show_Q (q : Q) : string :=
  String.append (pretty (Qnum q)) (String.append "/" (pretty (Zpos (Qden q)))).

Definition show_data (d : CacheData) : string :=
  String.concat ";"
    (map (fun '(t, v) => String.append t (from_option show_Q "" v)) (cd_assets d) ++
     map (fun '(t, p, r, n) =>
            String.concat "," [t; show_Q p; show_Q r; show_Q n]) (cd_liabilities d) ++
     map (fun '(t, (a, b, c)) =>
            String.concat "," [t; show_Q a; show_Q b; show_Q c]) (cd_scenarios d) ++
     [show_Q (cd_horizon d); show_Q (cd_inflation d)]).

Definition mkLiability (t : string) (P r n : Q) : Liability :=
  {| liability_id := String.append t "_1"; liability_type := t; liability_name := t;
     principal := P; currentBalance := Some P; rate := r; termYears := n;
     monthlyPayment := 0 |}.

Definition mkAsset (i t : string) (v : Q) : Asset :=
  {| asset_id := i; asset_type := t; asset_name := t; value := Some v |}.

(** The loan of the specification's scenario: 1,000,000 at 8.5% for 20 years. *)
Definition mortgage_example : Liability := mkLiability "mortgage" 1000000 (85 # 10) 20.

(** A loan whose principal is not a whole number of cents. *)
Definition tiny_loan : Liability := mkLiability "consumer" (6 # 1000) (85 # 10) 20.

Definition browser : Window :=
  {| assetClasses :=
       Some {| assetTypes :=
         {[ "stocks" := {| inflationAdjustment := Some (fun s =>
               Some match s with Pessimistic => -1 | Base => 5 | Optimistic => 10 end) |} ;
            "bonds" := {| inflationAdjustment := Some (fun s =>
               Some match s with Pessimistic => -2 | Base => 1 | Optimistic => 5 end) |} ]} |};
     liabilityClasses := true |}.

Definition no_registry : Window := {| assetClasses := None; liabilityClasses := false |}.

Definition stocks_only : Portfolio :=
  {| assets := Some [mkAsset "a1" "stocks" 100000];
     liabilities := Some [];
     totalValue := Some 100000; totalLiabilities := Some 0; netWorth := Some 100000 |}.

(** [stocks_only] with a stale [totalValue]. *)
Definition stocks_stale : Portfolio :=
  {| assets := Some [mkAsset "a1" "stocks" 100000];
     liabilities := Some [];
     totalValue := Some 1000000; totalLiabilities := Some 0; netWorth := Some 100000 |}.

(** The same data in other objects. *)
Definition stocks_copy : Portfolio :=
  {| assets := Some [ {| asset_id := "a2"; asset_type := "stocks";
                         asset_name := "copy"; value := Some (200000 # 2) |} ];
     liabilities := None;
     totalValue := None; totalLiabilities := None; netWorth := None |}.

(** [stocks_only] with other cached liabilities and net worth. *)
Definition stocks_other_debt : Portfolio :=
  {| assets := Some [mkAsset "a1" "stocks" 100000];
     liabilities := Some [];
     totalValue := Some 100000; totalLiabilities := Some 5; netWorth := Some 7 |}.

Definition with_mortgage : Portfolio :=
  {| assets := Some [mkAsset "a1" "stocks" 100000; mkAsset "a2" "bonds" 50000];
     liabilities := Some [mortgage_example];
     totalValue := Some 150000; totalLiabilities := Some 1000000;
     netWorth := Some (-850000) |}.

Definition empty_portfolio : Portfolio :=
  {| assets := Some []; liabilities := Some [];
     totalValue := Some 0; totalLiabilities := Some 0; netWorth := Some 0 |}.

Definition default_scenarios : Scenarios :=
  {| returnRates :=
       [("stocks", {| rate_pessimistic := 5; rate_base := 12; rate_optimistic := 20 |});
        ("bonds", {| rate_pessimistic := 3; rate_base := 8; rate_optimistic := 12 |})] |}.

Definition default_settings : Settings :=
  {| horizonYears := 10; inflation := 6; showRealValues := false |}.

Definition one_year : Settings :=
  {| horizonYears := 1; inflation := 7; showRealValues := false |}.

(** ** Enclosures of powers *)

(** Enclosures of powers for the sample loans: rationals are cut to twelve
    decimal places, downwards in lower bounds and upwards in upper bounds. *)
Definition scale : Q := 1000000000000.

Definition round_down (q : Q) : Q := inject_Z (Qfloor (q * scale)) / scale.

Definition round_up (q : Q) : Q := inject_Z (Qfloor (q * scale) + 1) / scale.

Fixpoint pow_bounds (lo hi : Q) (n : positive) : Q * Q :=
  match n with
  | xH => (lo, hi)
  | xO m =>
      let b := pow_bounds lo hi m in
      (round_down (fst b * fst b), round_up (snd b * snd b))
  | xI m =>
      let b := pow_bounds lo hi m in
      (round_down (round_down (fst b * fst b) * lo),
       round_up (round_up (snd b * snd b) * hi))
  end.

(** The monthly growth factor of a loan at 8.5% and enclosures of its powers. *)
Definition growth : Q := 2417 # 2400.

Definition growth_12 : Q * Q := Eval vm_compute in pow_bounds growth growth 12.
Definition growth_60 : Q * Q := Eval vm_compute in pow_bounds growth growth 60.
Definition growth_120 : Q * Q := Eval vm_compute in pow_bounds growth growth 120.
Definition growth_240 : Q * Q := Eval vm_compute in pow_bounds growth growth 240.

(** ** Further methods *)

(** [Math.abs] *)
Definition jabs (a : number) : number :=
  match a with
  | Fin x => Fin (Qabs x)
  | NaN => NaN
  | _ => PInf
  end.

(** *** LiabilityClasses.js *)



(** The three messages of [validateLoanParameters]. *)
Inductive LoanError : Type := InvalidPrincipal | InvalidRate | InvalidTerm.

(** The result of [validateLoanParameters]; its [message] is the messages of
    [errors] joined, or a fixed text when there is none. *)
Record Validation : Type := {
  isValid : bool;
  errors : list LoanError
}.

(** [!v] for a finite number or [undefined]. *)
Definition falsy (v : option Q) : bool :=
  match v with Some x => Qeq_bool x 0 | None => true end.

(** [v <= c] and [v > c] for a number or [undefined]: both are false for
    [undefined]. *)
Definition le_opt (v : option Q) (c : Q) : bool :=
  match v with Some x => Qleb x c | None => false end.

Definition gt_opt (v : option Q) (c : Q) : bool :=
  match v with Some x => Qltb c x | None => false end.

Definition validateLoanParameters (principal rate termYears : option Q) : Validation :=
  let errors := [] in
  let errors :=
    if falsy principal || le_opt principal 0 then errors ++ [InvalidPrincipal]
    else errors in
  let errors :=
    if falsy rate || le_opt rate 0 || gt_opt rate 100 then errors ++ [InvalidRate]
    else errors in
  let errors :=
    if falsy termYears || le_opt termYears 0 || gt_opt termYears 50
    then errors ++ [InvalidTerm]
    else errors in
  {| isValid := Nat.eqb (length errors) 0; errors := errors |}.

Record ScheduleRow : Type := {
  month : nat;
  payment : number;
  row_principal : number;
  interest : number;
  remainingBalance : number
}.

(** The loop of [getPaymentSchedule], [count] months from [month] on with the
    balance [balance] still owed. *)
Fixpoint schedule_loop (monthlyRate monthlyPayment : Q) (count month : nat)
    (balance : Q) : list ScheduleRow :=
  match count with
  | O => []
  | S count' =>
      let interestPayment := balance * monthlyRate in
      let principalPayment := monthlyPayment - interestPayment in
      let balance' := balance - principalPayment in
      {| month := month;
         payment := (Math_round (Fin monthlyPayment *! Fin 100) /! Fin 100)%js;
         row_principal := (Math_round (Fin principalPayment *! Fin 100) /! Fin 100)%js;
         interest := (Math_round (Fin interestPayment *! Fin 100) /! Fin 100)%js;
         remainingBalance :=
           (Math_round (Math_max (Fin 0) (Fin balance') *! Fin 100) /! Fin 100)%js |}
      :: schedule_loop monthlyRate monthlyPayment count' (S month) balance'
  end.

(** [months] is [None] when the caller leaves it out; the loop
    [for (month = 1; month <= Math.min(months, termYears * 12); month++)]
    runs once for every integer from 1 up to the bound. *)
Definition getPaymentSchedule (liability : Liability) (months : option Q)
  : list ScheduleRow :=
  let months := default 12 months in
  let monthlyRate := rate liability / 100 / 12 in
  schedule_loop monthlyRate (monthlyPayment liability)
    (Z.to_nat (Qfloor (Qmin months (termYears liability * 12)))) 1
    (principal liability).

(** *** FinancialEngine.js *)

Definition clearCache (engine : FinancialEngine) : FinancialEngine :=
  {| store := store engine; cache := ∅ |}.

Definition getCacheSize (engine : FinancialEngine) : nat := size (cache engine).

Record Diversification : Type := {
  score : number;
  distribution : list (string * Q);
  concentration : number;
  typesCount : option nat
}.

(** [if (!distribution[t]) distribution[t] = 0; distribution[t] += v], on
    the entries of [distribution] in the order in which their keys were
    added, for type tags that do not name a member of [Object.prototype]:
    for such a name the test finds the inherited member, and [+=] does not
    add numbers. *)
Fixpoint distribution_add (d : list (string * Q)) (t : string) (v : Q)
  : list (string * Q) :=
  match d with
  | [] => [(t, 0 + v)]
  | (k, x) :: rest =>
      if String.eqb k t then (k, x + v) :: rest
      else (k, x) :: distribution_add rest t v
  end.

Definition calculateDiversification (portfolio : Portfolio) : Diversification :=
  match assets portfolio with
  | None | Some [] =>
      {| score := Fin 0; distribution := []; concentration := Fin 100;
         typesCount := None |}
  | Some assets =>
      let totalValue := or0 (totalValue portfolio) in
      let distribution :=
        fold_left (fun d asset => distribution_add d (asset_type asset)
                                    (or0 (value asset))) assets [] in
      let distribution :=
        map (fun '(t, x) =>
               (t, if Qltb 0 totalValue then x / totalValue * 100 else 0))
            distribution in
      let hhi :=
        fold_left (fun sum percentage =>
                     (sum +! Math_pow (Fin percentage) (Fin 2))%js)
                  (map snd distribution) (Fin 0) in
      let diversificationScore := Math_max (Fin 0) (Fin 100 -! hhi /! Fin 100)%js in
      {| score := Math_round diversificationScore;
         distribution := distribution;
         concentration := Math_round (hhi /! Fin 100)%js;
         typesCount := Some (length distribution) |}
  end.

Record MetricsWithLiabilities : Type := {
  currentAssets : Q;
  currentLiabilities : number;
  currentNetWorth : number;
  futureNetWorth : FutureValue;
  nw_growthRate : number;
  nw_volatility : number;
  debtToAssetsRatio : number
}.

Definition calculateMetricsWithLiabilities (w : Window) (portfolio : Portfolio)
    (projections : Projections) (settings : Settings) : MetricsWithLiabilities :=
  let currentAssets := or0 (totalValue portfolio) in
  let currentLiabilities :=
    calculateLiabilitiesValue w (Some (default [] (liabilities portfolio))) 0 in
  let currentNetWorth := (Fin currentAssets -! currentLiabilities)%js in
  let futureNetWorthBase := jor (yp_netWorth <$> last (base projections)) (Fin 0) in
  let growthRate :=
    if jgt currentNetWorth (Fin 0) && Qltb 0 (horizonYears settings)
    then ((Math_pow (jabs futureNetWorthBase /! jabs currentNetWorth)
                    (Fin 1 /! Fin (horizonYears settings)) -! Fin 1) *! Fin 100)%js
    else Fin 0 in
  let finalYear := horizonYears settings in
  let pessimisticNetWorth :=
    jor (yp_netWorth <$> array_get (pessimistic projections) finalYear) (Fin 0) in
  let optimisticNetWorth :=
    jor (yp_netWorth <$> array_get (optimistic projections) finalYear) (Fin 0) in
  let volatility :=
    if jgt currentNetWorth (Fin 0)
    then ((optimisticNetWorth -! pessimisticNetWorth) /!
          (Fin 2 *! jabs currentNetWorth) *! Fin 100)%js
    else Fin 0 in
  {| currentAssets := currentAssets;
     currentLiabilities := currentLiabilities;
     currentNetWorth := currentNetWorth;
     futureNetWorth := {| fv_pessimistic := pessimisticNetWorth;
                          fv_base := futureNetWorthBase;
                          fv_optimistic := optimisticNetWorth |};
     nw_growthRate := growthRate;
     nw_volatility := volatility;
     debtToAssetsRatio :=
       if Qltb 0 currentAssets
       then (currentLiabilities /! Fin currentAssets *! Fin 100)%js
       else Fin 0 |}.

(** *** app.js *)

(** How a method that assigns to the fields of an object ends: it returns,
    or it throws a [TypeError]; either way the object is left in a state. *)
Inductive Completion : Type :=
| Returned (state : Portfolio)
| Threw (state : Portfolio).

(** [updatePortfolioValue]: the caller's refresh of the three cached totals
    of [this.portfolio].  [reduce] on a missing list throws; a missing
    liability list is met after [totalValue] has been assigned. *)
Definition updatePortfolioValue (p : Portfolio) : Completion :=
  match assets p with
  | None => Threw p
  | Some a =>
      let total := fold_left (fun sum asset => sum + or0 (value asset)) a 0 in
      match liabilities p with
      | None =>
          Threw {| assets := Some a; liabilities := None;
                   totalValue := Some total;
                   totalLiabilities := totalLiabilities p; netWorth := netWorth p |}
      | Some l =>
          let debts :=
            fold_left (fun sum liability => sum + or0 (currentBalance liability)) l 0 in
          Returned {| assets := Some a; liabilities := Some l;
                      totalValue := Some total; totalLiabilities := Some debts;
                      netWorth := Some (total - debts) |}
      end
  end.

(** *** Modifications of a portfolio *)

(** [Date.now()] at the readings of the clock, counted from 0, and the
    text of a number in a template literal. *)
Variable Date_now : nat -> Z.
Variable Number_toString : Q -> string.

(** The objects of the copy that [applyModifications] works on: the value of
    an asset can be [undefined] or any number, [NaN] included, and the total
    is recomputed as a number. *)
Record WorkAsset : Type := {
  wa_id : string;
  wa_type : string;
  wa_name : string;
  wa_value : option number
}.

Record WorkPortfolio : Type := {
  wp_assets : option (list WorkAsset);
  wp_liabilities : option (list Liability);
  wp_totalValue : option number;
  wp_totalLiabilities : option Q;
  wp_netWorth : option Q
}.

Inductive Modification : Type :=
| Sell (assetId : string) (percentage : option Q)
| Buy (assetType : string) (amount : option Q)
| Rebalance (allocation : list (string * Q))
| OtherAction.

(** [JSON.parse(JSON.stringify(basePortfolio))] *)
Definition copy_asset (a : Asset) : WorkAsset :=
  {| wa_id := asset_id a; wa_type := asset_type a; wa_name := asset_name a;
     wa_value := Fin <$> value a |}.

Definition json_copy (p : Portfolio) : WorkPortfolio :=
  {| wp_assets := map copy_asset <$> assets p;
     wp_liabilities := liabilities p;
     wp_totalValue := Fin <$> totalValue p;
     wp_totalLiabilities := totalLiabilities p;
     wp_netWorth := netWorth p |}.

(** A value in arithmetic: [undefined] counts as [NaN]. *)
Definition to_number (v : option number) : number := default NaN v.

Definition set_assets (p : WorkPortfolio) (assets : list WorkAsset) : WorkPortfolio :=
  {| wp_assets := Some assets; wp_liabilities := wp_liabilities p;
     wp_totalValue := wp_totalValue p; wp_totalLiabilities := wp_totalLiabilities p;
     wp_netWorth := wp_netWorth p |}.

Definition set_value (v : number) (a : WorkAsset) : WorkAsset :=
  {| wa_id := wa_id a; wa_type := wa_type a; wa_name := wa_name a; wa_value := Some v |}.

(** An assignment to a field of the object that [find] returned: the first
    element that passes the test. *)
Fixpoint update_first (test : WorkAsset -> bool) (f : WorkAsset -> WorkAsset)
    (l : list WorkAsset) : list WorkAsset :=
  match l with
  | [] => []
  | a :: rest => if test a then f a :: rest else a :: update_first test f rest
  end.

(** [None] is the [TypeError] of reading [find] of a missing asset list. *)
Definition sellAsset (portfolio : WorkPortfolio) (assetId : string)
    (percentage : option Q) : option WorkPortfolio :=
  assets ← wp_assets portfolio;
  match List.find (fun a => String.eqb (wa_id a) assetId) assets with
  | Some asset =>
      let sellAmount :=
        (to_number (wa_value asset) *! to_number (Fin <$> percentage) /! Fin 100)%js in
      let value := (to_number (wa_value asset) -! sellAmount)%js in
      let assets :=
        update_first (fun a => String.eqb (wa_id a) assetId) (set_value value) assets in
      if jle value (Fin 0)
      then Some (set_assets portfolio
                   (List.filter (fun a => negb (String.eqb (wa_id a) assetId)) assets))
      else Some (set_assets portfolio assets)
  | None => Some portfolio
  end.

Definition buyAsset (portfolio : WorkPortfolio) (assetType : string)
    (amount : option Q) (tick : nat) : option (WorkPortfolio * nat) :=
  assets ← wp_assets portfolio;
  match List.find (fun a => String.eqb (wa_type a) assetType) assets with
  | Some existingAsset =>
      let value := (to_number (wa_value existingAsset) +! to_number (Fin <$> amount))%js in
      Some (set_assets portfolio
              (update_first (fun a => String.eqb (wa_type a) assetType)
                 (set_value value) assets), tick)
  | None =>
      Some (set_assets portfolio
              (assets ++
               [{| wa_id := String.append "asset_" (pretty (Date_now tick));
                   wa_type := assetType;
                   wa_name := String.append assetType " актив";
                   wa_value := Fin <$> amount |}]), S tick)
  end.

(** [allocation] holds the entries of the target allocation in the order of
    [Object.entries]. *)
Definition rebalancePortfolio (portfolio : WorkPortfolio)
    (allocation : list (string * Q)) (tick : nat) : WorkPortfolio * nat :=
  let totalValue := to_number (wp_totalValue portfolio) in
  let '(assets, tick) :=
    fold_left (fun '(assets, tick) '(assetType, percentage) =>
      let value := (totalValue *! Fin percentage /! Fin 100)%js in
      if jgt value (Fin 0)
      then (assets ++
            [{| wa_id := String.append "asset_"
                           (String.append assetType
                              (String.append "_" (pretty (Date_now tick))));
                wa_type := assetType;
                wa_name := String.append assetType
                             (String.append " ("
                                (String.append (Number_toString percentage) "%)"));
                wa_value := Some value |}], S tick)
      else (assets, tick)) allocation ([], tick) in
  (set_assets portfolio assets, tick).

(** The [switch] of [applyModifications] on one modification. *)
Definition apply_modification (state : WorkPortfolio * nat) (modification : Modification)
  : option (WorkPortfolio * nat) :=
  let '(portfolio, tick) := state in
  match modification with
  | Sell assetId percentage =>
      portfolio ← sellAsset portfolio assetId percentage; Some (portfolio, tick)
  | Buy assetType amount => buyAsset portfolio assetType amount tick
  | Rebalance allocation => Some (rebalancePortfolio portfolio allocation tick)
  | OtherAction => Some state
  end.

Fixpoint apply_modifications (modifications : list Modification)
    (state : WorkPortfolio * nat) : option (WorkPortfolio * nat) :=
  match modifications with
  | [] => Some state
  | modification :: rest =>
      state ← apply_modification state modification; apply_modifications rest state
  end.

(** [tick] counts the readings of the clock before the call. *)
Definition applyModifications (basePortfolio : Portfolio)
    (modifications : list Modification) (tick : nat) : option WorkPortfolio :=
  let modifiedPortfolio := json_copy basePortfolio in
  '(modifiedPortfolio, _) ← apply_modifications modifications (modifiedPortfolio, tick);
  assets ← wp_assets modifiedPortfolio;
  Some {| wp_assets := Some assets;
          wp_liabilities := wp_liabilities modifiedPortfolio;
          wp_totalValue :=
            Some (fold_left (fun sum asset => (sum +! jor (wa_value asset) (Fin 0))%js)
                    assets (Fin 0));
          wp_totalLiabilities := wp_totalLiabilities modifiedPortfolio;
          wp_netWorth := wp_netWorth modifiedPortfolio |}.

(** ** Further specification-level definitions *)

Fixpoint sum_principals (ls : list Liability) : Q :=
  match ls with
  | [] => 0
  | l :: rest => principal l + sum_principals rest
  end.

(** The total of the balances of the specification after [y] years. *)
Fixpoint sum_balance_values (ls : list Liability) (y : Q) : Q :=
  match ls with
  | [] => 0
  | l :: rest => balance_value l y + sum_balance_values rest y
  end.

(** The assets of one type, in their order. *)
Definition assets_of_type (t : string) (assets : list Asset) : list Asset :=
  List.filter (fun a => String.eqb (asset_type a) t) assets.

(** The nominal value of a year of a projection, [NaN] beyond its end. *)
Definition nominal_at (projection : list YearPoint) (y : nat) : number :=
  default NaN (nominal <$> nth_error projection y).

Definition netWorth_at (projection : list YearPoint) (y : nat) : number :=
  default NaN (yp_netWorth <$> nth_error projection y).

Definition liabilities_at (projection : list YearPoint) (y : nat) : number :=
  default NaN (yp_liabilities <$> nth_error projection y).

(** The balance that [getPaymentSchedule] carries after [k] payments. *)
Fixpoint schedule_balance (P r M : Q) (k : nat) : Q :=
  match k with
  | O => P
  | S k' => schedule_balance P r M k' - (M - schedule_balance P r M k' * r)
  end.

(** The inflation-adjusted value of a year of a projection. *)
Definition real_at (projection : list YearPoint) (y : nat) : number :=
  default NaN (real <$> nth_error projection y).

(** [Math.pow] at base 1 is 1. *)
Definition pow_at_one : Prop := forall x e, x == 1 -> pow_real x e == 1.

(** A list of amounts that never falls from one element to the next. *)
Definition nondecreasing (vs : list Q) : Prop :=
  forall i a b, nth_error vs i = Some a -> nth_error vs (S i) = Some b -> a <= b.

(** The object that [calculateProjections] computes when the cache has no
    entry for the inputs. *)
Definition computed_projections (w : Window) (p : Portfolio) (sc : Scenarios)
    (st : Settings) : Projections :=
  {| pessimistic := calculateScenarioProjection w p sc Pessimistic st;
     base := calculateScenarioProjection w p sc Base st;
     optimistic := calculateScenarioProjection w p sc Optimistic st |}.

Fixpoint sum_list (ps : list Q) : Q :=
  match ps with
  | [] => 0
  | p :: rest => p + sum_list rest
  end.

Fixpoint sum_squares (ps : list Q) : Q :=
  match ps with
  | [] => 0
  | p :: rest => p * p + sum_squares rest
  end.

(** An entry of the distribution beside the group of its asset type: the
    same type, and the share of the group's total in [total], in percent. *)
Definition share_of (total : Q) (entry : string * Q) (group : string * list Asset) : Prop :=
  fst entry = fst group /\ snd entry == sum_values (snd group) / total * 100.

(** The assets that [rebalancePortfolio] creates from the total [T]: one
    for every entry of the allocation with a positive share of [T]. *)
Definition allocated (T : Q) (allocation : list (string * Q)) : list (string * Q) :=
  map (fun '(t, percentage) => (t, T * percentage / 100))
    (List.filter (fun '(t, percentage) => Qltb 0 (T * percentage / 100)) allocation).

(** The value that the total counts for an asset of the working copy. *)
Definition counted_value (a : WorkAsset) : Q :=
  match wa_value a with Some (Fin q) => q | _ => 0 end.

Definition finite_value (a : WorkAsset) : Prop :=
  match wa_value a with Some (Fin _) | None => True | Some _ => False end.

(** The members that every object inherits from [Object.prototype]: a
    lookup [o[t]] in an object literal [o] finds them when [t] is not a key
    of [o].  The asset types of the data model are none of them. *)
Definition inherited_names : list string :=
  ["constructor"; "hasOwnProperty"; "isPrototypeOf"; "propertyIsEnumerable";
   "toLocaleString"; "toString"; "valueOf"; "__proto__"; "__defineGetter__";
   "__defineSetter__"; "__lookupGetter__"; "__lookupSetter__"].

Definition inherited (t : string) : bool := existsb (String.eqb t) inherited_names.

(** A key that is an array index begins with a digit; [Object.entries] and
    [Object.keys] list such keys before the others. *)
Definition index_like (t : string) : bool :=
  match t with
  | String c _ =>
      (48 <=? Ascii.nat_of_ascii c)%nat && (Ascii.nat_of_ascii c <=? 57)%nat
  | EmptyString => false
  end.

(** A type tag on which an object literal behaves as a map that keeps the
    order of insertion. *)
Definition plain_type (t : string) : bool := negb (inherited t) && negb (index_like t).

(** The adjustment that the registry records for an asset type and a
    scenario, read off the registry's data: the entry of the type holds it
    under the scenario; it is 0 when the registry, the entry of the type,
    the adjustments of the entry or the one for the scenario is missing. *)
Inductive recorded_adjustment (w : Window) (t : string) (s : ScenarioType) : Q -> Prop :=
| adjustment_recorded (ac : AssetClasses) (info : AssetInfo)
    (adj : ScenarioType -> option Q) (a : Q) :
    assetClasses w = Some ac -> assetTypes ac !! t = Some info ->
    inflationAdjustment info = Some adj -> adj s = Some a ->
    recorded_adjustment w t s a
| registry_missing :
    assetClasses w = None -> recorded_adjustment w t s 0
| entry_missing (ac : AssetClasses) :
    assetClasses w = Some ac -> assetTypes ac !! t = None ->
    recorded_adjustment w t s 0
| adjustments_missing (ac : AssetClasses) (info : AssetInfo) :
    assetClasses w = Some ac -> assetTypes ac !! t = Some info ->
    inflationAdjustment info = None ->
    recorded_adjustment w t s 0
| scenario_missing (ac : AssetClasses) (info : AssetInfo)
    (adj : ScenarioType -> option Q) :
    assetClasses w = Some ac -> assetTypes ac !! t = Some info ->
    inflationAdjustment info = Some adj -> adj s = None ->
    recorded_adjustment w t s 0.

(** The groups hold the assets read so far, type by type and in order. *)
Definition grouped (gs : list (string * list Asset)) (seen : list Asset) : Prop :=
  List.NoDup (map fst gs) /\
  (forall t g, In (t, g) gs -> g = assets_of_type t seen /\ g <> []) /\
  (forall a, In a seen -> In (asset_type a) (map fst gs)).

(** ** Further sample data *)

(** A loan without interest. *)
Definition interest_free : Liability := mkLiability "consumer" 1200 0 2.

Definition with_interest_free : Portfolio :=
  {| assets := Some [mkAsset "a1" "stocks" 100000];
     liabilities := Some [interest_free];
     totalValue := Some 100000; totalLiabilities := Some 1200; netWorth := Some 98800 |}.

(** [mortgage_example] with a part of the debt paid back. *)
Definition paid_down : Liability :=
  {| liability_id := "mortgage_1"; liability_type := "mortgage";
     liability_name := "mortgage"; principal := 1000000;
     currentBalance := Some 900000; rate := 85 # 10; termYears := 20;
     monthlyPayment := 0 |}.

Definition with_paid_down : Portfolio :=
  {| assets := Some [mkAsset "a1" "stocks" 100000; mkAsset "a2" "bonds" 50000];
     liabilities := Some [paid_down];
     totalValue := Some 150000; totalLiabilities := Some 900000;
     netWorth := Some (-750000) |}.

(** A loan of 1,000 at 12% over 2 years with its annuity payment before
    rounding. *)
Definition annuity_loan : Liability :=
  {| liability_id := "consumer_1"; liability_type := "consumer";
     liability_name := "consumer"; principal := 1000; currentBalance := Some 1000;
     rate := 12; termYears := 2;
     monthlyPayment :=
       1000 * (12 / 100 / 12 * (1 + 12 / 100 / 12) ^ 24) /
       ((1 + 12 / 100 / 12) ^ 24 - 1) |}.

Definition full_deflation : Settings :=
  {| horizonYears := 2; inflation := -100; showRealValues := true |}.

Definition mkYear (y : nat) (v : Q) : YearPoint :=
  {| year := y; nominal := Fin v; real := Fin v; breakdown := [];
     yp_liabilities := Fin 0; yp_netWorth := Fin v |}.

(** A projection that falls by a fifth in its second year. *)
Definition falling : list YearPoint := [mkYear 0 100; mkYear 1 80; mkYear 2 120].

(** A clock and a number format for the instances below. *)
Definition sample_clock (n : nat) : Z := 1700000000000 + Z.of_nat n.

Definition sample_format (q : Q) : string := show_Q (Qred q).

(** ** Properties of numbers *)

Lemma Qleb_spec (x y : Q) : Qleb x y = true <-> x <= y.
Proof.
  unfold Qleb, jle, ncompare. rewrite Qle_alt.
  destruct (x ?= y); split; intros; congruence.
Qed.

Lemma Qltb_spec (x y : Q) : Qltb x y = true <-> x < y.
Proof.
  unfold Qltb, jlt, ncompare. rewrite Qlt_alt.
  destruct (x ?= y); split; intros; congruence.
Qed.

Lemma Qleb_false (x y : Q) : Qleb x y = false <-> y < x.
Proof.
  destruct (Qleb x y) eqn:E.
  - apply Qleb_spec in E. split; [discriminate | intros; lra].
  - split; [intros _ | reflexivity].
    destruct (Qlt_le_dec y x) as [H | H]; [exact H |].
    apply Qleb_spec in H. congruence.
Qed.

Lemma Qltb_false (x y : Q) : Qltb x y = false <-> y <= x.
Proof.
  destruct (Qltb x y) eqn:E.
  - apply Qltb_spec in E. split; [discriminate | intros; lra].
  - split; [intros _ | reflexivity].
    destruct (Qlt_le_dec x y) as [H | H]; [| exact H].
    apply Qltb_spec in H. congruence.
Qed.

Lemma Qeq_bool_false (x y : Q) : ~ x == y -> Qeq_bool x y = false.
Proof.
  intros H. destruct (Qeq_bool x y) eqn:E; [| reflexivity].
  apply Qeq_bool_eq in E. contradiction.
Qed.

Lemma num_eq_refl (a : number) : (a =j a)%js.
Proof. destruct a; simpl; auto with qarith. Qed.

Lemma num_eq_trans (a b c : number) : (a =j b)%js -> (b =j c)%js -> (a =j c)%js.
Proof.
  destruct a, b, c; simpl; intros H1 H2; try contradiction; try exact I.
  rewrite H1. exact H2.
Qed.

Lemma is_integer_inject_Z (z : Z) : is_integer (inject_Z z) = true.
Proof. unfold is_integer. rewrite Qfloor_Z. apply Qeq_bool_refl. Qed.

Lemma is_integer_eq (y : Q) : is_integer y = true -> y == inject_Z (Qfloor y).
Proof. unfold is_integer. apply Qeq_bool_eq. Qed.

(** At a positive base [Math.pow] is the power function. *)
Lemma Math_pow_pos (x y : Q) : 0 < x -> (Math_pow (Fin x) (Fin y) =j Fin (power x y))%js.
Proof.
  intros Hx. unfold Math_pow, power.
  destruct (Qeq_bool y 0) eqn:Hy.
  - apply Qeq_bool_eq in Hy.
    assert (E : is_integer y = true).
    { unfold is_integer. apply Qeq_bool_iff. rewrite (Qfloor_comp _ _ Hy). exact Hy. }
    rewrite E, (Qfloor_comp _ _ Hy). simpl. reflexivity.
  - rewrite Qeq_bool_false by lra.
    destruct (is_integer y); [apply num_eq_refl |].
    assert (E : Qleb 0 x = true) by (apply Qleb_spec; lra).
    rewrite E. apply num_eq_refl.
Qed.

(** At an exponent that counts years [Math.pow] is [Qpower]. *)
Lemma Math_pow_nat (x : Q) (n : nat) :
  (Math_pow (Fin x) (Fin (inject_Z (Z.of_nat n))) =j Fin (x ^ Z.of_nat n))%js.
Proof.
  unfold Math_pow.
  destruct (Qeq_bool (inject_Z (Z.of_nat n)) 0) eqn:Hy.
  - apply Qeq_bool_eq in Hy. assert (Hz : Z.of_nat n = 0%Z) by (apply inject_Z_injective; exact Hy).
    rewrite Hz. simpl. reflexivity.
  - assert (Hn : (0 < Z.of_nat n)%Z).
    { destruct n; [discriminate Hy | lia]. }
    destruct (Qeq_bool x 0) eqn:Hx.
    + apply Qeq_bool_eq in Hx.
      assert (E : Qleb 0 (inject_Z (Z.of_nat n)) = true).
      { apply Qleb_spec. rewrite <- (Zle_Qle 0). lia. }
      rewrite E. simpl. rewrite Hx. symmetry. apply Qpower_0. lia.
    + rewrite is_integer_inject_Z, Qfloor_Z. apply num_eq_refl.
Qed.

Lemma num_eq_Fin_inv (a : number) (q : Q) :
  (a =j Fin q)%js -> exists q', a = Fin q' /\ q' == q.
Proof. destruct a; simpl; intros H; try contradiction. eauto. Qed.

Lemma Math_max_Fin (a b : Q) : (Math_max (Fin a) (Fin b) =j Fin (Qmax a b))%js.
Proof.
  unfold Math_max, ncompare. destruct (a ?= b) eqn:E; simpl.
  - apply Qeq_alt in E. rewrite Q.max_l by lra. reflexivity.
  - apply Qlt_alt in E. rewrite Q.max_r by lra. reflexivity.
  - apply Qgt_alt in E. rewrite Q.max_l by lra. reflexivity.
Qed.

Lemma jdiv_Fin (x y : Q) : ~ y == 0 -> (Fin x /! Fin y)%js = Fin (x / y).
Proof. intros H. simpl. rewrite Qeq_bool_false by exact H. reflexivity. Qed.

Lemma round2_eq (x : Q) :
  (Math_round (Fin x *! Fin 100) /! Fin 100)%js = Fin (round2 x).
Proof. reflexivity. Qed.

Lemma round2_comp (x y : Q) : x == y -> round2 x == round2 y.
Proof. intros H. unfold round2. rewrite H. reflexivity. Qed.

(** ** The amortization calculator *)

Lemma remaining_balance_formula (P pT pm pT' pm' : Q) :
  pT' == pT -> pm' == pm -> ~ pT == 1 ->
  (Math_max (Fin 0)
     (Math_round (Fin P *! (Fin pT' -! Fin pm') /! (Fin pT' -! Fin 1) *! Fin 100) /!
      Fin 100) =j
   Fin (Qmax 0 (round2 (P * (pT - pm) / (pT - 1)))))%js.
Proof.
  intros HT Hm Hne.
  assert (Hd : ~ pT' + - (1) == 0) by (rewrite HT; lra).
  unfold jsub. cbn [jneg jadd jmul]. rewrite jdiv_Fin by exact Hd.
  rewrite round2_eq. eapply num_eq_trans; [apply Math_max_Fin |].
  simpl. apply Q.max_compat; [reflexivity |]. apply round2_comp.
  rewrite HT, Hm. reflexivity.
Qed.

Lemma remaining_balance_start (l : Liability) (y : Q) :
  y <= 0 -> calculateRemainingBalance l y = Fin (principal l).
Proof.
  intros Hz. unfold calculateRemainingBalance.
  apply Qleb_spec in Hz. rewrite Hz. reflexivity.
Qed.

Lemma remaining_balance_end (l : Liability) (y : Q) :
  0 < y -> termYears l <= y -> calculateRemainingBalance l y = Fin 0.
Proof.
  intros Hz Ht. unfold calculateRemainingBalance.
  apply Qleb_false in Hz. apply Qleb_spec in Ht. rewrite Hz, Ht. reflexivity.
Qed.

Lemma remaining_balance_mid (l : Liability) (y : Q) :
  0 < y -> y < termYears l ->
  0 < 1 + rate l / 100 / 12 ->
  ~ power (1 + rate l / 100 / 12) (termYears l * 12) == 1 ->
  (calculateRemainingBalance l y =j
   Fin (spec_remaining_balance (principal l) (rate l) (termYears l) y))%js.
Proof.
  intros H H0 Hb Hne.
  apply Qleb_false in H as E1. apply Qleb_false in H0 as E2.
  unfold calculateRemainingBalance. rewrite E1, E2.
  unfold spec_remaining_balance, raw_balance.
  destruct (num_eq_Fin_inv _ _ (Math_pow_pos (1 + rate l / 100 / 12)
                                  (termYears l * 12) Hb)) as (pT & -> & HT).
  destruct (num_eq_Fin_inv _ _ (Math_pow_pos (1 + rate l / 100 / 12)
                                  (y * 12) Hb)) as (pm & -> & Hm).
  apply remaining_balance_formula; assumption.
Qed.

(** C1: [calculateRemainingBalance] returns the principal up to year 0, zero
    from the end of the term on, and in between the closed form of the
    remaining balance, floored at zero and rounded to two decimal places.
    The first test comes first in the code; with a positive term, as the data
    model has it, the two ends do not overlap. *)
Theorem calculateRemainingBalance_cases (l : Liability) (y : Q) :
  (y <= 0 -> calculateRemainingBalance l y = Fin (principal l)) /\
  (0 < y -> termYears l <= y -> calculateRemainingBalance l y = Fin 0) /\
  (0 < y -> y < termYears l ->
   let r := rate l / 100 / 12 in
   let total := termYears l * 12 in
   let made := y * 12 in
   calculateRemainingBalance l y =
     Math_max (Fin 0)
       (Math_round
          (Fin (principal l) *!
             (Math_pow (Fin (1 + r)) (Fin total) -! Math_pow (Fin (1 + r)) (Fin made)) /!
             (Math_pow (Fin (1 + r)) (Fin total) -! Fin 1) *! Fin 100) /! Fin 100)%js /\
   (0 < 1 + r -> ~ power (1 + r) total == 1 ->
    (calculateRemainingBalance l y =j
     Fin (spec_remaining_balance (principal l) (rate l) (termYears l) y))%js)) /\
  calculateRemainingBalance l 0 = Fin (principal l) /\
  (0 < termYears l ->
   calculateRemainingBalance l (termYears l) = Fin 0 /\
   (termYears l <= y -> calculateRemainingBalance l y = Fin 0)).
Proof.
  assert (C1 : forall y, y <= 0 -> calculateRemainingBalance l y = Fin (principal l)).
  { intros z Hz. unfold calculateRemainingBalance.
    apply Qleb_spec in Hz. rewrite Hz. reflexivity. }
  assert (C2 : forall y, 0 < y -> termYears l <= y -> calculateRemainingBalance l y = Fin 0).
  { intros z Hz Ht. unfold calculateRemainingBalance.
    apply Qleb_false in Hz. apply Qleb_spec in Ht. rewrite Hz, Ht. reflexivity. }
  split; [apply C1 |]. split; [apply C2 |]. split; [| split].
  - intros H H0 r total made.
    apply Qleb_false in H as E1. apply Qleb_false in H0 as E2.
    unfold calculateRemainingBalance. rewrite E1, E2. split; [reflexivity |].
    intros Hb Hne. unfold spec_remaining_balance, raw_balance. fold r total made.
    destruct (num_eq_Fin_inv _ _ (Math_pow_pos (1 + r) total Hb)) as (pT & -> & HT).
    destruct (num_eq_Fin_inv _ _ (Math_pow_pos (1 + r) made Hb)) as (pm & -> & Hm).
    apply remaining_balance_formula; assumption.
  - apply C1. lra.
  - intros Ht. split; [apply C2; lra |].
    intros Hy. apply C2; lra.
Qed.

Lemma monthly_payment_formula (P r pw pw' : Q) :
  pw' == pw -> ~ pw == 1 ->
  (Math_round (Fin P *! (Fin r *! Fin pw') /! (Fin pw' -! Fin 1) *! Fin 100) /! Fin 100 =j
   Fin (round2 (P * (r * pw) / (pw - 1))))%js.
Proof.
  intros Hw Hne.
  assert (Hd : ~ pw' + - (1) == 0) by (rewrite Hw; lra).
  unfold jsub. cbn [jneg jadd jmul]. rewrite jdiv_Fin by exact Hd.
  rewrite round2_eq. simpl. apply round2_comp. rewrite Hw. reflexivity.
Qed.

Lemma calculateMonthlyPayment_guard (P annualRate T : Q) :
  P <= 0 \/ annualRate <= 0 \/ T <= 0 -> calculateMonthlyPayment P annualRate T = Fin 0.
Proof.
  intros H. unfold calculateMonthlyPayment.
  destruct H as [H | [H | H]]; apply Qleb_spec in H; rewrite H;
    rewrite ?orb_true_r; reflexivity.
Qed.

Lemma calculateMonthlyPayment_formula (P annualRate T : Q) :
  0 < P -> 0 < annualRate -> 0 < T ->
  ~ power (1 + annualRate / 100 / 12) (T * 12) == 1 ->
  (calculateMonthlyPayment P annualRate T =j
   Fin (spec_monthly_payment P annualRate T))%js.
Proof.
  intros HP Hr HT Hne. unfold calculateMonthlyPayment, spec_monthly_payment.
  apply Qleb_false in HP as EP. apply Qleb_false in Hr as Er. apply Qleb_false in HT as ET.
  rewrite EP, Er, ET. cbn [orb].
  assert (Hb : 0 < 1 + annualRate / 100 / 12) by qlra.
  destruct (num_eq_Fin_inv _ _ (Math_pow_pos _ (T * 12) Hb)) as (pw & -> & Hw).
  apply monthly_payment_formula; assumption.
Qed.

(** *** Bounds and monotonicity of the remaining balance *)

Lemma Qfloor_unique (x : Q) (n : Z) :
  inject_Z n <= x -> x < inject_Z (n + 1) -> Qfloor x = n.
Proof.
  intros Hl Hu. apply Z.le_antisymm.
  - apply Z.lt_succ_r. rewrite Zlt_Qlt.
    apply Qle_lt_trans with x; [apply Qfloor_le | exact Hu].
  - rewrite <- (Qfloor_Z n). apply Qfloor_resp_le. exact Hl.
Qed.

(** [round2] is the nearest whole number of cents, a half cent going up. *)
Lemma round2_nearest (x : Q) :
  is_integer (round2 x * 100) = true /\
  x - (1 # 200) < round2 x /\ round2 x <= x + (1 # 200).
Proof.
  unfold round2.
  pose proof (Qfloor_le (x * 100 + (1 # 2))) as Hl.
  pose proof (Qlt_floor (x * 100 + (1 # 2))) as Hu.
  rewrite inject_Z_plus in Hu. change (inject_Z 1) with 1 in Hu.
  split; [| split; qlra].
  unfold is_integer. apply Qeq_bool_iff.
  assert (E : inject_Z (Qfloor (x * 100 + (1 # 2))) / 100 * 100 ==
              inject_Z (Qfloor (x * 100 + (1 # 2)))) by field.
  rewrite (Qfloor_comp _ _ E), Qfloor_Z. exact E.
Qed.

Lemma round2_mono (x y : Q) : x <= y -> round2 x <= round2 y.
Proof.
  intros H. unfold round2.
  assert (E : inject_Z (Qfloor (x * 100 + (1 # 2))) <= inject_Z (Qfloor (y * 100 + (1 # 2)))).
  { rewrite <- Zle_Qle. apply Qfloor_resp_le. lra. }
  qlra.
Qed.

(** A whole number of cents is its own rounding. *)
Lemma round2_cents (P : Q) : is_integer (P * 100) = true -> round2 P == P.
Proof.
  intros H. apply is_integer_eq in H. unfold round2.
  rewrite (Qfloor_unique (P * 100 + (1 # 2)) (Qfloor (P * 100))).
  - rewrite <- H. field.
  - rewrite <- H. lra.
  - rewrite inject_Z_plus, <- H. change (inject_Z 1) with 1. lra.
Qed.

Section Balance.

Variable l : Liability.
Hypothesis Hvalid : valid_liability l.
Hypothesis Hpow : pow_monotone.

Let A : Q := 1 + rate l / 100 / 12.
Let pT : Q := power A (termYears l * 12).
Let raw (y : Q) : Q := raw_balance (principal l) (rate l) (termYears l) y.

Lemma raw_unfold (y : Q) : raw y = principal l * (pT - power A (y * 12)) / (pT - 1).
Proof. reflexivity. Qed.

Lemma base_above_one : 1 < A.
Proof. destruct Hvalid as (_ & Hr & _). unfold A. qlra. Qed.

Lemma full_term_power : 1 < pT.
Proof.
  destruct Hvalid as (_ & _ & HT). unfold pT.
  apply (proj2 Hpow); [apply base_above_one | lra].
Qed.

Lemma raw_balance_bounds (y : Q) :
  0 < y -> y < termYears l -> 0 <= raw y <= principal l.
Proof.
  intros H0 HT. destruct Hvalid as (HP & _ & _).
  pose proof full_term_power as HpT.
  assert (Hm1 : 1 < power A (y * 12))
    by (apply (proj2 Hpow); [apply base_above_one | lra]).
  assert (Hm2 : power A (y * 12) <= pT)
    by (apply (proj1 Hpow); [apply base_above_one | lra | lra]).
  rewrite raw_unfold. split.
  - apply Qle_shift_div_l; [lra | nra].
  - apply Qle_shift_div_r; [lra | nra].
Qed.

Lemma raw_balance_decreasing (y1 y2 : Q) :
  0 < y1 -> y1 <= y2 -> raw y2 <= raw y1.
Proof.
  intros H0 H12. destruct Hvalid as (HP & _ & _).
  pose proof full_term_power as HpT.
  assert (Hm : power A (y1 * 12) <= power A (y2 * 12))
    by (apply (proj1 Hpow); [apply base_above_one | lra | lra]).
  rewrite !raw_unfold. unfold Qdiv. apply Qmult_le_compat_r; [nra |].
  apply Qinv_le_0_compat. lra.
Qed.

Lemma balance_mid (y : Q) :
  0 < y -> y < termYears l ->
  exists b, calculateRemainingBalance l y = Fin b /\
            b == spec_remaining_balance (principal l) (rate l) (termYears l) y.
Proof.
  intros H0 HT.
  pose proof base_above_one as HA. pose proof full_term_power as HpT.
  apply num_eq_Fin_inv. apply remaining_balance_mid; [exact H0 | exact HT | |].
  - fold A. lra.
  - fold A pT. lra.
Qed.

(** The code computes the balance of the specification. *)
Lemma balance_is_value (y : Q) :
  exists b, calculateRemainingBalance l y = Fin b /\ b == balance_value l y.
Proof.
  unfold balance_value.
  destruct (Qleb y 0) eqn:E0.
  - apply Qleb_spec in E0. rewrite (remaining_balance_start l y E0).
    eexists; split; reflexivity.
  - apply Qleb_false in E0. destruct (Qleb (termYears l) y) eqn:ET.
    + apply Qleb_spec in ET. rewrite (remaining_balance_end l y E0 ET).
      eexists; split; reflexivity.
    + apply Qleb_false in ET. apply balance_mid; assumption.
Qed.

Hypothesis Hcents : is_integer (principal l * 100) = true.

Lemma balance_value_bounds (y : Q) : 0 <= balance_value l y <= principal l.
Proof.
  destruct Hvalid as (HP & _ & _). unfold balance_value, spec_remaining_balance.
  destruct (Qleb y 0) eqn:E0; [lra |].
  destruct (Qleb (termYears l) y) eqn:ET; [lra |].
  apply Qleb_false in E0. apply Qleb_false in ET.
  destruct (raw_balance_bounds y E0 ET) as [Hl Hu]. fold (raw y). split.
  - apply Q.le_max_l.
  - apply Q.max_lub; [lra |].
    apply Qle_trans with (round2 (principal l)); [apply round2_mono; exact Hu |].
    rewrite (round2_cents _ Hcents). lra.
Qed.

Lemma balance_value_decreasing (y1 y2 : Q) :
  y1 <= y2 -> balance_value l y2 <= balance_value l y1.
Proof.
  intros H12. pose proof (balance_value_bounds y1) as B1.
  pose proof (balance_value_bounds y2) as B2. revert B1 B2.
  unfold balance_value, spec_remaining_balance.
  destruct (Qleb y1 0) eqn:E1; [intros; lra |].
  apply Qleb_false in E1.
  assert (E2 : Qleb y2 0 = false) by (apply Qleb_false; lra). rewrite E2.
  destruct (Qleb (termYears l) y2) eqn:T2; [intros; lra |].
  apply Qleb_false in T2.
  assert (T1 : Qleb (termYears l) y1 = false) by (apply Qleb_false; lra). rewrite T1.
  intros _ _. apply Q.max_le_compat_l. apply round2_mono.
  apply raw_balance_decreasing; assumption.
Qed.

End Balance.

(** *** The sample loans *)

Lemma round_down_le (q : Q) : round_down q <= q.
Proof.
  unfold round_down. pose proof (Qfloor_le (q * scale)) as H.
  apply Qle_shift_div_r; [reflexivity | exact H].
Qed.

Lemma round_up_ge (q : Q) : q <= round_up q.
Proof.
  unfold round_up. pose proof (Qlt_floor (q * scale)) as H.
  apply Qle_shift_div_l; [reflexivity | lra].
Qed.

Lemma round_down_nonneg (q : Q) : 0 <= q -> 0 <= round_down q.
Proof.
  intros H. unfold round_down. apply Qle_shift_div_l; [reflexivity |].
  rewrite Qmult_0_l. rewrite <- (Zle_Qle 0). apply (Qfloor_resp_le 0).
  unfold scale. nra.
Qed.

Lemma Qpower_double (x : Q) (m : positive) :
  0 < x -> x ^ Z.pos m~0 == x ^ Z.pos m * x ^ Z.pos m.
Proof.
  intros Hx. replace (Z.pos m~0) with (Z.pos m + Z.pos m)%Z by lia.
  apply Qpower_plus. lra.
Qed.

Lemma Qpower_double_succ (x : Q) (m : positive) :
  0 < x -> x ^ Z.pos m~1 == x ^ Z.pos m * x ^ Z.pos m * x.
Proof.
  intros Hx. replace (Z.pos m~1) with (Z.pos m + Z.pos m + 1)%Z by lia.
  rewrite !Qpower_plus by lra. rewrite Qpower_1_r. reflexivity.
Qed.

Lemma pow_bounds_correct (lo hi x : Q) (n : positive) :
  0 < lo -> lo <= x -> x <= hi ->
  0 <= fst (pow_bounds lo hi n) /\
  fst (pow_bounds lo hi n) <= x ^ Z.pos n /\
  x ^ Z.pos n <= snd (pow_bounds lo hi n).
Proof.
  intros Hlo Hl Hh. assert (Hx : 0 < x) by lra.
  induction n as [m IH | m IH |]; cbn [pow_bounds fst snd].
  - destruct IH as (H0 & H1 & H2).
    assert (Hp : 0 < x ^ Z.pos m) by (apply Qpower_0_lt; exact Hx).
    rewrite (Qpower_double_succ x m Hx).
    set (l := fst (pow_bounds lo hi m)) in *. set (h := snd (pow_bounds lo hi m)) in *.
    set (p := x ^ Z.pos m) in *.
    pose proof (round_down_le (l * l)) as D1.
    pose proof (round_down_nonneg (l * l)) as D0.
    pose proof (round_up_ge (h * h)) as U1.
    assert (Hll : l * l <= p * p) by nra.
    assert (Hhh : p * p <= h * h) by nra.
    assert (D0' : 0 <= round_down (l * l)) by (apply D0; nra).
    split; [| split].
    + apply round_down_nonneg. nra.
    + eapply Qle_trans; [apply round_down_le |]. nra.
    + eapply Qle_trans; [| apply round_up_ge]. nra.
  - destruct IH as (H0 & H1 & H2).
    assert (Hp : 0 < x ^ Z.pos m) by (apply Qpower_0_lt; exact Hx).
    rewrite (Qpower_double x m Hx).
    set (l := fst (pow_bounds lo hi m)) in *. set (h := snd (pow_bounds lo hi m)) in *.
    set (p := x ^ Z.pos m) in *.
    split; [| split].
    + apply round_down_nonneg. nra.
    + eapply Qle_trans; [apply round_down_le |]. nra.
    + eapply Qle_trans; [| apply round_up_ge]. nra.
  - rewrite Qpower_1_r. repeat split; lra.
Qed.


Lemma growth_enclosure (n : positive) (b : Q * Q) :
  pow_bounds growth growth n = b -> fst b <= growth ^ Z.pos n <= snd b.
Proof.
  intros <-.
  destruct (pow_bounds_correct growth growth growth n) as (_ & Hl & Hh);
    [reflexivity | discriminate | discriminate |].
  split; assumption.
Qed.

Lemma growth_12_bounds : fst growth_12 <= growth ^ 12 <= snd growth_12.
Proof. apply growth_enclosure. vm_compute. reflexivity. Qed.

Lemma growth_60_bounds : fst growth_60 <= growth ^ 60 <= snd growth_60.
Proof. apply growth_enclosure. vm_compute. reflexivity. Qed.

Lemma growth_120_bounds : fst growth_120 <= growth ^ 120 <= snd growth_120.
Proof. apply growth_enclosure. vm_compute. reflexivity. Qed.

Lemma growth_240_bounds : fst growth_240 <= growth ^ 240 <= snd growth_240.
Proof. apply growth_enclosure. vm_compute. reflexivity. Qed.

Lemma power_int (x y : Q) (n : Z) : y == inject_Z n -> power x y == x ^ n.
Proof.
  intros H. unfold power.
  assert (Hf : Qfloor y = n) by (rewrite (Qfloor_comp _ _ H); apply Qfloor_Z).
  assert (E : is_integer y = true).
  { unfold is_integer. rewrite Hf. apply Qeq_bool_iff. exact H. }
  rewrite E, Hf. reflexivity.
Qed.

Lemma power_int_above_one (x y : Q) (n : Z) :
  1 < x -> (0 < n)%Z -> y == inject_Z n -> ~ power x y == 1.
Proof.
  intros Hx Hn Hy. rewrite (power_int x y n Hy).
  pose proof (Qpower_1_lt x n Hx Hn). lra.
Qed.

(** The value of a rounding from an enclosure of its argument. *)
Lemma round2_value (x : Q) (k : Z) :
  inject_Z k - (1 # 2) <= x * 100 -> x * 100 < inject_Z k + (1 # 2) ->
  round2 x == inject_Z k / 100.
Proof.
  intros Hl Hu. unfold round2. rewrite (Qfloor_unique (x * 100 + (1 # 2)) k).
  - reflexivity.
  - lra.
  - rewrite inject_Z_plus. change (inject_Z 1) with 1. lra.
Qed.

(** An enclosure of a quotient with a positive divisor. *)
Lemma quotient_bounds (n d lo hi : Q) :
  0 < d -> lo * d <= n * 100 -> n * 100 < hi * d -> lo <= n / d * 100 /\ n / d * 100 < hi.
Proof.
  intros Hd Hl Hu.
  assert (E : n / d * 100 == n * 100 / d) by (field; lra).
  rewrite E. split.
  - apply Qle_shift_div_l; assumption.
  - apply Qlt_shift_div_r; assumption.
Qed.

(** The payment of the sample loan. *)
Lemma mortgage_payment :
  (calculateMonthlyPayment 1000000 (85 # 10) 20 =j Fin (867823 # 100))%js.
Proof.
  eapply num_eq_trans.
  - apply calculateMonthlyPayment_formula; try reflexivity.
    apply (power_int_above_one _ _ 240); reflexivity.
  - change (spec_monthly_payment 1000000 (85 # 10) 20 == 867823 # 100).
    unfold spec_monthly_payment.
    assert (Hp : power (1 + (85 # 10) / 100 / 12) (20 * 12) == growth ^ 240).
    { rewrite (power_int _ _ 240) by reflexivity. apply Qpower_comp; reflexivity. }
    destruct growth_240_bounds as [Hl Hh]. revert Hp Hl Hh.
    generalize (growth ^ 240) as p.
    generalize (power (1 + (85 # 10) / 100 / 12) (20 * 12)) as pw.
    intros pw p Hp Hl Hh. unfold growth_240 in Hl, Hh. cbn [fst snd] in Hl, Hh.
    rewrite (round2_comp _ (1000000 * ((85 # 10) / 100 / 12 * p) / (p - 1)))
      by (rewrite Hp; reflexivity).
    destruct (quotient_bounds (1000000 * ((85 # 10) / 100 / 12 * p)) (p - 1)
                ((867823 # 1) - (1 # 2)) ((867823 # 1) + (1 # 2)))
      as [Bl Bu]; [lra | qlra | qlra |].
    rewrite (round2_value _ 867823 Bl Bu). reflexivity.
Qed.

(** The balance after a whole number of months. *)
Lemma balance_whole_months (l : Liability) (y : Q) (nT nm : Z) :
  0 < y -> y < termYears l -> 0 < rate l -> (0 < nT)%Z ->
  termYears l * 12 == inject_Z nT -> y * 12 == inject_Z nm ->
  exists b, calculateRemainingBalance l y = Fin b /\
    b == Qmax 0 (round2 (principal l *
                           ((1 + rate l / 100 / 12) ^ nT - (1 + rate l / 100 / 12) ^ nm) /
                           ((1 + rate l / 100 / 12) ^ nT - 1))).
Proof.
  intros H0 HT Hr HnT ET Em.
  assert (HA : 1 < 1 + rate l / 100 / 12) by qlra.
  destruct (num_eq_Fin_inv _ _ (remaining_balance_mid l y H0 HT ltac:(lra)
              (power_int_above_one _ _ nT HA HnT ET))) as (b & Hb & E).
  exists b. split; [exact Hb |]. rewrite E. unfold spec_remaining_balance, raw_balance.
  apply Q.max_compat; [reflexivity |]. apply round2_comp.
  rewrite (power_int _ _ nT ET), (power_int _ _ nm Em). reflexivity.
Qed.

(** The balance of a loan at 8.5% over 20 years after [nm] months. *)
Lemma balance_sample_loan (l : Liability) (y : Q) (nm : Z) :
  rate l = 85 # 10 -> termYears l = 20 -> 0 < y -> y < 20 -> y * 12 == inject_Z nm ->
  exists b, calculateRemainingBalance l y = Fin b /\
    b == Qmax 0 (round2 (principal l * (growth ^ 240 - growth ^ nm) / (growth ^ 240 - 1))).
Proof.
  intros Hr HT H0 H20 Em.
  destruct (balance_whole_months l y 240 nm) as (b & Hb & E);
    rewrite ?Hr, ?HT; try reflexivity; try assumption.
  exists b. split; [exact Hb |]. rewrite E, Hr.
  assert (G : 1 + (85 # 10) / 100 / 12 == growth) by reflexivity.
  apply Q.max_compat; [reflexivity |]. apply round2_comp.
  rewrite !(Qpower_comp _ _ G _ _ eq_refl). reflexivity.
Qed.

Lemma round2_at_least (x c : Q) : is_integer (c * 100) = true -> c <= x -> c <= round2 x.
Proof.
  intros Hc H. rewrite <- (round2_cents c Hc). apply round2_mono. exact H.
Qed.

Lemma round2_at_most (x c : Q) : is_integer (c * 100) = true -> x <= c -> round2 x <= c.
Proof.
  intros Hc H. rewrite <- (round2_cents c Hc). apply round2_mono. exact H.
Qed.

(** The sample loan after 10 years owes between 1 and 700,000, after 5
    years at least 800,000. *)
Lemma mortgage_balances :
  exists b5 b10,
    calculateRemainingBalance mortgage_example 5 = Fin b5 /\
    calculateRemainingBalance mortgage_example 10 = Fin b10 /\
    1 <= b10 /\ b10 <= 700000 /\ 800000 <= b5.
Proof.
  destruct (balance_sample_loan mortgage_example 5 60) as (b5 & H5 & E5);
    try reflexivity.
  destruct (balance_sample_loan mortgage_example 10 120) as (b10 & H10 & E10);
    try reflexivity.
  exists b5, b10. split; [exact H5 |]. split; [exact H10 |].
  destruct growth_240_bounds as [L240 U240]. destruct growth_120_bounds as [L120 U120].
  destruct growth_60_bounds as [L60 U60].
  revert E5 E10 L240 U240 L120 U120 L60 U60.
  change (principal mortgage_example) with (1000000 : Q).
  generalize (growth ^ 240) as pT. generalize (growth ^ 120) as p120.
  generalize (growth ^ 60) as p60. intros p60 p120 pT E5 E10.
  unfold growth_240, growth_120, growth_60. cbn [fst snd]. intros.
  assert (R10 : 1 <= 1000000 * (pT - p120) / (pT - 1) <= 700000).
  { split; [apply Qle_shift_div_l | apply Qle_shift_div_r]; lra. }
  assert (R5 : 800000 <= 1000000 * (pT - p60) / (pT - 1)).
  { apply Qle_shift_div_l; lra. }
  rewrite E5, E10. split; [| split].
  - apply Qle_trans with (round2 (1000000 * (pT - p120) / (pT - 1)));
      [| apply Q.le_max_r].
    apply round2_at_least; [reflexivity | apply R10].
  - apply Q.max_lub; [discriminate |].
    apply round2_at_most; [reflexivity | apply R10].
  - apply Qle_trans with (round2 (1000000 * (pT - p60) / (pT - 1)));
      [| apply Q.le_max_r].
    apply round2_at_least; [reflexivity | exact R5].
Qed.

(** A loan of 0.006 owes a cent after a year. *)
Lemma tiny_loan_balance :
  exists b, calculateRemainingBalance tiny_loan 1 = Fin b /\ b == 1 # 100.
Proof.
  destruct (balance_sample_loan tiny_loan 1 12) as (b & Hb & E); try reflexivity.
  exists b. split; [exact Hb |].
  destruct growth_240_bounds as [L240 U240]. destruct growth_12_bounds as [L12 U12].
  revert E L240 U240 L12 U12.
  change (principal tiny_loan) with (6 # 1000).
  generalize (growth ^ 240) as pT. generalize (growth ^ 12) as p12. intros p12 pT E.
  unfold growth_240, growth_12. cbn [fst snd]. intros.
  destruct (quotient_bounds ((6 # 1000) * (pT - p12)) (pT - 1)
              ((1 # 1) - (1 # 2)) ((1 # 1) + (1 # 2))) as [Bl Bu]; [lra | lra | lra |].
  rewrite E, (round2_value _ 1 Bl Bu). reflexivity.
Qed.

(** C8 (amended): for a valid liability whose principal is a whole number
    of cents, the remaining balance lies between zero and the principal at
    every elapsed time and does not increase with it; the balance of the
    sample loan at year 10 is strictly between 0 and 1,000,000 and below the
    balance at year 5. *)
Theorem remaining_balance_bounded_decreasing (l : Liability) :
  valid_liability l ->
  is_integer (principal l * 100) = true ->
  pow_monotone ->
  (forall y, jle (Fin 0) (calculateRemainingBalance l y) = true /\
             jle (calculateRemainingBalance l y) (Fin (principal l)) = true) /\
  (forall y1 y2, y1 <= y2 ->
     jle (calculateRemainingBalance l y2) (calculateRemainingBalance l y1) = true) /\
  (jlt (Fin 0) (calculateRemainingBalance mortgage_example 10) = true /\
   jlt (calculateRemainingBalance mortgage_example 10) (Fin 1000000) = true /\
   jlt (calculateRemainingBalance mortgage_example 10)
       (calculateRemainingBalance mortgage_example 5) = true).
Proof.
  intros Hvalid Hcents Hpow. split; [| split].
  - intros y.
    destruct (balance_is_value l Hvalid Hpow y) as (b & -> & Hb).
    destruct (balance_value_bounds l Hvalid Hpow Hcents y) as [Hl Hu].
    split; apply Qleb_spec; rewrite Hb; assumption.
  - intros y1 y2 H12.
    destruct (balance_is_value l Hvalid Hpow y1) as (b1 & -> & Hb1).
    destruct (balance_is_value l Hvalid Hpow y2) as (b2 & -> & Hb2).
    apply Qleb_spec. rewrite Hb1, Hb2.
    apply balance_value_decreasing; assumption.
  - destruct mortgage_balances as (b5 & b10 & -> & -> & B1 & B2 & B3).
    split; [| split]; apply Qltb_spec; lra.
Qed.

(** C7 (amended): [calculateMonthlyPayment] returns 0 when an argument is not
    positive and the rounded annuity payment otherwise; for 1,000,000 at 8.5%
    over 20 years it returns 8,678.23. *)
Theorem calculateMonthlyPayment_spec (P annualRate T : Q) :
  (P <= 0 \/ annualRate <= 0 \/ T <= 0 ->
   calculateMonthlyPayment P annualRate T = Fin 0) /\
  (0 < P -> 0 < annualRate -> 0 < T ->
   ~ power (1 + annualRate / 100 / 12) (T * 12) == 1 ->
   (calculateMonthlyPayment P annualRate T =j
    Fin (spec_monthly_payment P annualRate T))%js) /\
  (calculateMonthlyPayment 1000000 (85 # 10) 20 =j Fin (867823 # 100))%js.
Proof.
  split; [apply calculateMonthlyPayment_guard |].
  split; [apply calculateMonthlyPayment_formula |].
  apply mortgage_payment.
Qed.

(** ** The projection engine *)

Lemma yearData_year w gs ls infl s y : year (yearData w gs ls infl s y) = y.
Proof. unfold yearData. destruct (fold_left _ _ _). reflexivity. Qed.

Lemma yearData_liabilities w gs ls infl s y :
  yp_liabilities (yearData w gs ls infl s y) =
  calculateLiabilitiesValue w (Some ls) (inject_Z (Z.of_nat y)).
Proof. unfold yearData. destruct (fold_left _ _ _). reflexivity. Qed.

Lemma yearData_nominal w gs ls infl s y :
  nominal (yearData w gs ls infl s y) =
  snd (fold_left (typeStep w infl s (inject_Z (Z.of_nat y))) gs ([], Fin 0)).
Proof. unfold yearData. destruct (fold_left _ _ _). reflexivity. Qed.

Lemma yearData_netWorth w gs ls infl s y :
  yp_netWorth (yearData w gs ls infl s y) =
  (nominal (yearData w gs ls infl s y) -! yp_liabilities (yearData w gs ls infl s y))%js.
Proof. unfold yearData. destruct (fold_left _ _ _). reflexivity. Qed.

Lemma yearData_real w gs ls infl s y :
  real (yearData w gs ls infl s y) =
  (yp_netWorth (yearData w gs ls infl s y) /!
   Math_pow (Fin (1 + infl)) (Fin (inject_Z (Z.of_nat y))))%js.
Proof. unfold yearData. destruct (fold_left _ _ _). reflexivity. Qed.

Lemma projection_length w p sc s st :
  length (calculateScenarioProjection w p sc s st) = iterations (horizonYears st).
Proof. unfold calculateScenarioProjection. rewrite length_map, length_seq. reflexivity. Qed.

Lemma projection_nth w p sc s st y :
  nth_error (calculateScenarioProjection w p sc s st) y =
  if (y <? iterations (horizonYears st))%nat
  then Some (yearData w (groupAssetsByType (default [] (assets p)))
               (default [] (liabilities p)) (inflation st / 100) s y)
  else None.
Proof.
  unfold calculateScenarioProjection. rewrite nth_error_map, nth_error_seq.
  destruct (y <? iterations (horizonYears st))%nat; reflexivity.
Qed.

(** The loop reaches every year up to the horizon. *)
Lemma year_in_range (h : Q) (y : nat) :
  inject_Z (Z.of_nat y) <= h -> (y <? iterations h)%nat = true.
Proof.
  intros H. apply Nat.ltb_lt. unfold iterations.
  assert (H0 : 0 <= h).
  { apply Qle_trans with (inject_Z (Z.of_nat y)); [| exact H].
    rewrite <- (Zle_Qle 0). lia. }
  apply Qleb_spec in H0. rewrite H0.
  apply Qfloor_resp_le in H. rewrite Qfloor_Z in H. lia.
Qed.

(** C4: at every year the liabilities value of a projection is the same
    under the three scenarios; it is [calculateLiabilitiesValue] of the
    portfolio's liabilities at that year, which the scenario does not
    enter.  So it is in the three arrays of the object that
    [calculateProjections] computes. *)
Theorem liabilities_scenario_invariant w engine p sc st (y : nat)
    (s1 s2 : ScenarioType) :
  yp_liabilities <$> nth_error (calculateScenarioProjection w p sc s1 st) y =
  yp_liabilities <$> nth_error (calculateScenarioProjection w p sc s2 st) y /\
  (inject_Z (Z.of_nat y) <= horizonYears st ->
   yp_liabilities <$> nth_error (calculateScenarioProjection w p sc s1 st) y =
   Some (calculateLiabilitiesValue w (Some (default [] (liabilities p)))
           (inject_Z (Z.of_nat y)))) /\
  (cache engine !! getCacheKey p sc st = None ->
   exists projections,
     nth_error (store (snd (calculateProjections w engine p sc st)))
       (fst (calculateProjections w engine p sc st)) = Some projections /\
     yp_liabilities <$> nth_error (pessimistic projections) y =
     yp_liabilities <$> nth_error (base projections) y /\
     yp_liabilities <$> nth_error (base projections) y =
     yp_liabilities <$> nth_error (optimistic projections) y).
Proof.
  assert (I : forall a b,
    yp_liabilities <$> nth_error (calculateScenarioProjection w p sc a st) y =
    yp_liabilities <$> nth_error (calculateScenarioProjection w p sc b st) y).
  { intros a b. rewrite !projection_nth.
    destruct (y <? iterations (horizonYears st))%nat; [| reflexivity].
    cbn. rewrite !yearData_liabilities. reflexivity. }
  split; [apply I | split].
  - intros H. rewrite projection_nth, (year_in_range _ _ H). cbn.
    rewrite yearData_liabilities. reflexivity.
  - intros Hmiss. unfold calculateProjections. rewrite Hmiss. cbn [fst snd store].
    eexists. split.
    + rewrite nth_error_app2 by lia. rewrite Nat.sub_diag. reflexivity.
    + split; apply I.
Qed.

Lemma fold_balances (w : Window) (years : Q) (ls : list Liability) (acc : Q) :
  liabilityClasses w = false ->
  (fold_left (fun totalLiabilities liability =>
     if negb (liabilityClasses w)
     then (totalLiabilities +! Fin (or0 (currentBalance liability)))%js
     else (totalLiabilities +! calculateRemainingBalance liability years)%js)
     ls (Fin acc) =j Fin (acc + sum_balances ls))%js.
Proof.
  intros Hw. rewrite Hw. cbn [negb]. revert acc.
  induction ls as [| l ls IH]; intros acc; simpl.
  - lra.
  - eapply num_eq_trans; [apply IH |]. simpl. lra.
Qed.

(** C10: without the liability registry [calculateLiabilitiesValue] is the
    sum of the [currentBalance] fields, a missing one counting as 0, whatever
    the number of years; on an empty or missing list it is 0. *)
Theorem calculateLiabilitiesValue_without_registry
    (w : Window) (ls : option (list Liability)) (years : Q) :
  (liabilityClasses w = false ->
   (calculateLiabilitiesValue w ls years =j Fin (sum_balances (default [] ls)))%js /\
   forall years', calculateLiabilitiesValue w ls years' =
                  calculateLiabilitiesValue w ls years) /\
  calculateLiabilitiesValue w None years = Fin 0 /\
  calculateLiabilitiesValue w (Some []) years = Fin 0.
Proof.
  split; [| split; reflexivity].
  intros Hw. split.
  - destruct ls as [[| l ls] |]; try (simpl; reflexivity).
    unfold calculateLiabilitiesValue.
    eapply num_eq_trans; [apply (fold_balances w years (l :: ls) 0 Hw) |].
    simpl. lra.
  - intros years'. destruct ls as [[| l ls] |]; try reflexivity.
    unfold calculateLiabilitiesValue. rewrite Hw. reflexivity.
Qed.

(** C9: [calculateMetrics] gives the growth rate 0 when the current value or
    the horizon is not positive, and the volatility 0 when the current value
    is not positive: no division is evaluated then. *)
Theorem calculateMetrics_guards (p : Portfolio) (projections : Projections)
    (st : Settings) :
  (or0 (totalValue p) <= 0 \/ horizonYears st <= 0 ->
   growthRate (calculateMetrics p projections st) = Fin 0) /\
  (or0 (totalValue p) <= 0 ->
   volatility (calculateMetrics p projections st) = Fin 0) /\
  (totalValue p = Some 0 \/ totalValue p = None ->
   growthRate (calculateMetrics p projections st) = Fin 0).
Proof.
  assert (G : or0 (totalValue p) <= 0 \/ horizonYears st <= 0 ->
              growthRate (calculateMetrics p projections st) = Fin 0).
  { intros H. unfold calculateMetrics. cbn [growthRate].
    destruct H as [H | H]; apply Qltb_false in H; rewrite H;
      rewrite ?andb_false_r; reflexivity. }
  split; [exact G | split].
  - intros H. unfold calculateMetrics. cbn [volatility].
    apply Qltb_false in H. rewrite H. reflexivity.
  - intros H. apply G. left. destruct H as [-> | ->]; simpl; lra.
Qed.

(** *** Nominal values *)

Lemma fold_values (l : list Asset) (acc : Q) :
  fold_left (fun sum asset => sum + or0 (value asset)) l acc == acc + sum_values l.
Proof.
  revert acc. induction l as [| a l IH]; intros acc; simpl.
  - lra.
  - rewrite IH. lra.
Qed.

Lemma calculateAssetTypeValue_year (l : list Asset) (r : Q) (n : nat) :
  (calculateAssetTypeValue l r (inject_Z (Z.of_nat n)) =j
   Fin (sum_values l * (1 + r / 100) ^ Z.of_nat n))%js.
Proof.
  unfold calculateAssetTypeValue.
  destruct (num_eq_Fin_inv _ _ (Math_pow_nat (1 + r / 100) n)) as (q & -> & Hq).
  simpl. rewrite fold_values, Hq. lra.
Qed.

Lemma fold_typeStep w infl s (n : nat) gs bd (acc : Q) :
  (snd (fold_left (typeStep w infl s (inject_Z (Z.of_nat n))) gs (bd, Fin acc)) =j
   Fin (acc + groups_value
                (fun t => calculateInflationAdjustedReturn (infl * 100)
                            (adjustment_of w t s)) n gs))%js.
Proof.
  revert bd acc. induction gs as [| [t g] gs IH]; intros bd acc.
  - simpl. lra.
  - cbn [fold_left typeStep groups_value].
    destruct (num_eq_Fin_inv _ _
      (calculateAssetTypeValue_year g
         (calculateInflationAdjustedReturn (infl * 100) (adjustment_of w t s)) n))
      as (v & -> & Hv).
    cbn [jadd]. eapply num_eq_trans; [apply IH |]. simpl. rewrite Hv. lra.
Qed.

(** The nominal value of every year of a projection is the sum over the
    asset types of the type's total compounded annually at the type's
    rate. *)
Lemma nominal_value w p sc s st (y : nat) :
  inject_Z (Z.of_nat y) <= horizonYears st ->
  exists yp,
    nth_error (calculateScenarioProjection w p sc s st) y = Some yp /\
    year yp = y /\
    (nominal yp =j
     Fin (groups_value (fun t => returnRate_of w st t s) y
            (groupAssetsByType (default [] (assets p)))))%js /\
    yp_netWorth yp = (nominal yp -! yp_liabilities yp)%js /\
    yp_liabilities yp =
      calculateLiabilitiesValue w (Some (default [] (liabilities p)))
        (inject_Z (Z.of_nat y)) /\
    real yp = (yp_netWorth yp /!
               Math_pow (Fin (1 + inflation st / 100)) (Fin (inject_Z (Z.of_nat y))))%js.
Proof.
  intros H. rewrite projection_nth, (year_in_range _ _ H).
  eexists. split; [reflexivity |].
  split; [apply yearData_year |].
  split; [| split; [apply yearData_netWorth |
            split; [apply yearData_liabilities | apply yearData_real]]].
  rewrite yearData_nominal.
  eapply num_eq_trans; [apply fold_typeStep |].
  simpl. unfold returnRate_of. lra.
Qed.

Lemma fold_group_push_single (t : string) (l g : list Asset) :
  Forall (fun a => asset_type a = t) l ->
  fold_left group_push l [(t, g)] = [(t, g ++ l)].
Proof.
  intros H. revert g. induction H as [| a l Ha _ IH]; intros g; simpl.
  - rewrite app_nil_r. reflexivity.
  - rewrite Ha, String.eqb_refl, IH, <- app_assoc. reflexivity.
Qed.

Lemma groupAssetsByType_single (t : string) (l : list Asset) :
  Forall (fun a => asset_type a = t) l ->
  groupAssetsByType l = match l with [] => [] | _ => [(t, l)] end.
Proof.
  intros H. destruct l as [| a l]; [reflexivity |].
  unfold groupAssetsByType. simpl.
  inversion H as [| ? ? Ha Hl]; subst.
  apply (fold_group_push_single (asset_type a) l [a] Hl).
Qed.

Lemma returnRate_of_eq w st t s :
  returnRate_of w st t s == inflation st + adjustment_of w t s.
Proof. unfold returnRate_of, calculateInflationAdjustedReturn. field. Qed.

Lemma recorded_adjustment_of w t s (a : Q) :
  recorded_adjustment w t s a -> adjustment_of w t s = a.
Proof.
  intros H. unfold adjustment_of, getAssetInfo.
  destruct H as [ac info adj a Hw Ht Hi Ha | Hw | ac Hw Ht | ac info Hw Ht Hi
                 | ac info adj Hw Ht Hi Ha];
    rewrite Hw; cbn [mbind option_bind]; try reflexivity;
    rewrite Ht; cbn [mbind option_bind]; try reflexivity;
    rewrite Hi; cbn [mbind option_bind]; try reflexivity;
    rewrite Ha; reflexivity.
Qed.

Lemma recorded_adjustment_total w t s : exists a, recorded_adjustment w t s a.
Proof.
  destruct (assetClasses w) as [ac |] eqn:Hw;
    [| exists 0; apply registry_missing; exact Hw].
  destruct (assetTypes ac !! t) as [info |] eqn:Ht;
    [| exists 0; apply (entry_missing w t s ac); assumption].
  destruct (inflationAdjustment info) as [adj |] eqn:Hi;
    [| exists 0; apply (adjustments_missing w t s ac info); assumption].
  destruct (adj s) as [a |] eqn:Ha.
  - exists a. apply (adjustment_recorded w t s ac info adj a); assumption.
  - exists 0. apply (scenario_missing w t s ac info adj); assumption.
Qed.

Lemma recorded_rate w st t s (a : Q) :
  recorded_adjustment w t s a -> returnRate_of w st t s == inflation st + a.
Proof.
  intros H. rewrite returnRate_of_eq, (recorded_adjustment_of w t s a H). reflexivity.
Qed.

(** C2: when all assets are of one type, the nominal value at every year
    [y] up to the horizon is the sum of the asset values times
    [(1 + r/100)^y], where [r] is the return rate of that type under the
    scenario: the inflation plus the adjustment [a] that the registry
    records for the type and the scenario, which every type has (0 when
    nothing is recorded).  Without liabilities this is also the net
    worth. *)
Theorem single_type_compounding w p sc s st (t : string) (y : nat) :
  Forall (fun a => asset_type a = t) (default [] (assets p)) ->
  inject_Z (Z.of_nat y) <= horizonYears st ->
  (exists a, recorded_adjustment w t s a) /\
  forall a, recorded_adjustment w t s a ->
    exists yp,
      nth_error (calculateScenarioProjection w p sc s st) y = Some yp /\
      year yp = y /\
      (nominal yp =j
       Fin (sum_values (default [] (assets p)) *
            (1 + (inflation st + a) / 100) ^ Z.of_nat y))%js /\
      (default [] (liabilities p) = [] -> (yp_netWorth yp =j nominal yp)%js).
Proof.
  intros Ht Hy. split; [apply recorded_adjustment_total |].
  intros a Ha. pose proof (recorded_rate w st t s a Ha) as Er.
  destruct (nominal_value w p sc s st y Hy) as (yp & Hn & Hyr & Hnom & Hnw & Hl & _).
  exists yp. split; [exact Hn |]. split; [exact Hyr |]. split.
  - eapply num_eq_trans; [exact Hnom |].
    rewrite (groupAssetsByType_single t _ Ht).
    destruct (default [] (assets p)) as [| x l]; cbn [groups_value num_eq].
    + simpl. lra.
    + rewrite Er. lra.
  - intros Hnone. rewrite Hnw, Hl, Hnone. cbn [calculateLiabilitiesValue].
    destruct (nominal yp); simpl; auto. lra.
Qed.

(** *** The present *)

Lemma iterations_integer (hq : Q) (h : nat) :
  hq == inject_Z (Z.of_nat h) -> iterations hq = S h.
Proof.
  intros E. unfold iterations.
  assert (H0 : Qleb 0 hq = true).
  { apply Qleb_spec. rewrite E, <- (Zle_Qle 0). lia. }
  rewrite H0, (Qfloor_comp _ _ E), Qfloor_Z, Nat2Z.id. reflexivity.
Qed.

Lemma sum_values_app (g l : list Asset) :
  sum_values (g ++ l) == sum_values g + sum_values l.
Proof. induction g as [| a g IH]; simpl; [lra | rewrite IH; lra]. Qed.

Lemma groups_value_push (rate_of : string -> Q) gs (a : Asset) :
  groups_value rate_of 0 (group_push gs a) ==
  groups_value rate_of 0 gs + or0 (value a).
Proof.
  induction gs as [| [t g] gs IH]; simpl.
  - lra.
  - destruct (String.eqb t (asset_type a)); simpl.
    + rewrite sum_values_app. simpl. lra.
    + rewrite IH. lra.
Qed.

Lemma groups_value_fold (rate_of : string -> Q) (l : list Asset) gs :
  groups_value rate_of 0 (fold_left group_push l gs) ==
  groups_value rate_of 0 gs + sum_values l.
Proof.
  revert gs. induction l as [| a l IH]; intros gs; simpl.
  - lra.
  - rewrite IH, groups_value_push. lra.
Qed.

(** Grouping the assets by type keeps their total. *)
Lemma groups_value_present (rate_of : string -> Q) (l : list Asset) :
  groups_value rate_of 0 (groupAssetsByType l) == sum_values l.
Proof. unfold groupAssetsByType. rewrite groups_value_fold. simpl. lra. Qed.

Lemma jdiv_one (a : number) : (a /! Fin 1 =j a)%js.
Proof. destruct a; simpl; auto. field. Qed.

(** C3: with an integer horizon [h >= 0] the projection of every scenario has
    [h + 1] elements; its element 0 has the sum of the asset values as its
    nominal value, which is [portfolio.totalValue] when that cached total is
    up to date, and its net worth as its real value. *)
Theorem projection_length_and_present w p sc s st (h : nat) :
  horizonYears st == inject_Z (Z.of_nat h) ->
  length (calculateScenarioProjection w p sc s st) = S h /\
  exists yp,
    nth_error (calculateScenarioProjection w p sc s st) 0 = Some yp /\
    year yp = 0%nat /\
    (nominal yp =j Fin (sum_values (default [] (assets p))))%js /\
    (forall tv, totalValue p = Some tv -> tv == sum_values (default [] (assets p)) ->
                (nominal yp =j Fin tv)%js) /\
    (real yp =j yp_netWorth yp)%js.
Proof.
  intros Hh. split.
  - rewrite projection_length. apply iterations_integer. exact Hh.
  - assert (H0 : inject_Z (Z.of_nat 0) <= horizonYears st).
    { rewrite Hh, <- Zle_Qle. lia. }
    destruct (nominal_value w p sc s st 0 H0) as (yp & Hn & Hyr & Hnom & _ & _ & Hreal).
    assert (Hsum : (nominal yp =j Fin (sum_values (default [] (assets p))))%js).
    { eapply num_eq_trans; [exact Hnom |]. simpl. apply groups_value_present. }
    exists yp. split; [exact Hn |]. split; [exact Hyr |]. split; [exact Hsum |].
    split.
    + intros tv _ Htv. eapply num_eq_trans; [exact Hsum |]. simpl. lra.
    + rewrite Hreal. apply jdiv_one.
Qed.

(** *** The cached totals *)

(** C5 (amended): two portfolios with the same asset and liability lists
    have the same projections, whatever their cached totals; they have the
    same metrics and risk score when their [totalValue] fields agree too,
    [totalLiabilities] and [netWorth] never being read. *)
Theorem cached_totals_read_only_totalValue
    w engine (p1 p2 : Portfolio) sc st (projections : Projections) (v : number) :
  assets p1 = assets p2 ->
  liabilities p1 = liabilities p2 ->
  calculateProjections w engine p1 sc st = calculateProjections w engine p2 sc st /\
  (forall s, calculateScenarioProjection w p1 sc s st =
             calculateScenarioProjection w p2 sc s st) /\
  (totalValue p1 = totalValue p2 ->
   calculateMetrics p1 projections st = calculateMetrics p2 projections st /\
   calculateRiskScore p1 v = calculateRiskScore p2 v).
Proof.
  intros Ha Hl.
  assert (Hs : forall s, calculateScenarioProjection w p1 sc s st =
                         calculateScenarioProjection w p2 sc s st).
  { intros s. unfold calculateScenarioProjection. rewrite Ha, Hl. reflexivity. }
  split; [| split; [exact Hs |]].
  - unfold calculateProjections, getCacheKey. rewrite Ha, Hl, !Hs. reflexivity.
  - intros Hv.
    assert (Hr : forall u, calculateRiskScore p1 u = calculateRiskScore p2 u).
    { intros u. unfold calculateRiskScore. rewrite Ha, Hv. reflexivity. }
    split; [| apply Hr].
    unfold calculateMetrics. rewrite Hv, Hr. reflexivity.
Qed.

(** *** The cache *)

Lemma map_default {A B : Type} (f : A -> B) (o : option (list A)) :
  default [] (map f <$> o) = map f (default [] o).
Proof. destruct o; reflexivity. Qed.

Lemma same_value_red (u v : option Q) :
  same_value u v -> option_map Qred u = option_map Qred v.
Proof.
  destruct u, v; simpl; intros H; try contradiction; [| reflexivity].
  rewrite (Qred_complete _ _ H). reflexivity.
Qed.

Lemma map_Forall2 {A B : Type} (R : A -> A -> Prop) (f : A -> B) (l1 l2 : list A) :
  (forall a b, R a b -> f a = f b) -> Forall2 R l1 l2 -> map f l1 = map f l2.
Proof.
  intros Hf H. induction H as [| a b l1 l2 Hab _ IH]; simpl; [reflexivity |].
  rewrite (Hf a b Hab), IH. reflexivity.
Qed.

(** Structurally identical inputs have the same cache key. *)
Lemma getCacheKey_identical p1 sc1 st1 p2 sc2 st2 :
  structurally_identical p1 sc1 st1 p2 sc2 st2 ->
  getCacheKey p1 sc1 st1 = getCacheKey p2 sc2 st2.
Proof.
  intros (Ha & Hl & Hr & Hh & Hi). unfold getCacheKey. f_equal.
  rewrite !map_default. f_equal.
  - apply (map_Forall2 same_asset); [| exact Ha].
    intros a b [Et Ev]. rewrite Et, (same_value_red _ _ Ev). reflexivity.
  - apply (map_Forall2 same_liability); [| exact Hl].
    intros a b (Et & EP & Er & ET).
    rewrite Et, (Qred_complete _ _ EP), (Qred_complete _ _ Er), (Qred_complete _ _ ET).
    reflexivity.
  - apply (map_Forall2 same_rates); [| exact Hr].
    intros [t r] [t' r'] (Et & E1 & E2 & E3). simpl in *.
    rewrite Et, (Qred_complete _ _ E1), (Qred_complete _ _ E2), (Qred_complete _ _ E3).
    reflexivity.
  - apply Qred_complete. exact Hh.
  - apply Qred_complete. exact Hi.
Qed.

(** After a call the cache holds the returned reference under the key. *)
Lemma calculateProjections_cached w engine p sc st :
  cache (snd (calculateProjections w engine p sc st)) !! getCacheKey p sc st =
  Some (fst (calculateProjections w engine p sc st)).
Proof.
  unfold calculateProjections.
  destruct (cache engine !! getCacheKey p sc st) eqn:E; simpl.
  - exact E.
  - apply lookup_insert_eq.
Qed.

Lemma calculateProjections_wf w engine p sc st :
  engine_wf engine -> engine_wf (snd (calculateProjections w engine p sc st)).
Proof.
  intros Hwf. unfold calculateProjections.
  destruct (cache engine !! getCacheKey p sc st) eqn:E; simpl; [exact Hwf |].
  intros k r. simpl. rewrite length_app. simpl.
  destruct (decide (getCacheKey p sc st = k)) as [-> | Hne].
  - rewrite lookup_insert_eq. intros [= <-]. lia.
  - rewrite lookup_insert_ne by exact Hne. intros H. apply Hwf in H. lia.
Qed.

(** The cache only grows: [calculateProjections] never removes or replaces
    an entry. *)
Lemma calculateProjections_keeps w engine p sc st (k : string) (r : nat) :
  cache engine !! k = Some r ->
  cache (snd (calculateProjections w engine p sc st)) !! k = Some r.
Proof.
  intros H. unfold calculateProjections.
  destruct (cache engine !! getCacheKey p sc st) eqn:E; simpl; [exact H |].
  rewrite lookup_insert_ne; [exact H |]. intros Hk. rewrite <- Hk in H. congruence.
Qed.

Lemma run_calls_keeps calls engine (k : string) (r : nat) :
  cache engine !! k = Some r -> cache (run_calls calls engine) !! k = Some r.
Proof.
  revert engine. induction calls as [| [[[w p] sc] st] calls IH]; intros engine H.
  - exact H.
  - apply IH. apply calculateProjections_keeps. exact H.
Qed.

Lemma new_FinancialEngine_wf : engine_wf new_FinancialEngine.
Proof. intros k r. unfold new_FinancialEngine. simpl. rewrite lookup_empty. discriminate. Qed.

(** C6: a second call of [calculateProjections] with structurally identical
    inputs returns the reference that the first call returned and left in
    the cache, and changes nothing; so it does after any calls in between.
    In an engine whose cache points into its store that reference is to an
    allocated projections object. *)
Theorem cache_hit_same_reference w w' engine p1 sc1 st1 p2 sc2 st2 calls :
  structurally_identical p1 sc1 st1 p2 sc2 st2 ->
  let first := calculateProjections w engine p1 sc1 st1 in
  let second := calculateProjections w' (snd first) p2 sc2 st2 in
  let later := calculateProjections w' (run_calls calls (snd first)) p2 sc2 st2 in
  fst second = fst first /\
  snd second = snd first /\
  fst later = fst first /\
  cache (snd first) !! getCacheKey p1 sc1 st1 = Some (fst first) /\
  (engine_wf engine -> is_Some (nth_error (store (snd first)) (fst first))).
Proof.
  intros Hid first second later.
  pose proof (calculateProjections_cached w engine p1 sc1 st1) as Hc. fold first in Hc.
  assert (Hsecond : second = (fst first, snd first)).
  { unfold second, calculateProjections at 1.
    rewrite <- (getCacheKey_identical _ _ _ _ _ _ Hid), Hc. reflexivity. }
  assert (Hlater : fst later = fst first).
  { unfold later, calculateProjections at 1.
    rewrite <- (getCacheKey_identical _ _ _ _ _ _ Hid).
    rewrite (run_calls_keeps calls _ _ _ Hc). reflexivity. }
  rewrite Hsecond. simpl. split; [reflexivity |]. split; [reflexivity |].
  split; [exact Hlater |]. split; [exact Hc |].
  intros Hwf. pose proof (calculateProjections_wf w engine p1 sc1 st1 Hwf) as Hwf'.
  fold first in Hwf'. specialize (Hwf' _ _ Hc).
  destruct (nth_error (store (snd first)) (fst first)) eqn:E; [eauto |].
  apply nth_error_None in E. lia.
Qed.

(** ** Grouping the assets *)

Lemma assets_of_type_app (t : string) (l1 l2 : list Asset) :
  assets_of_type t (l1 ++ l2) = assets_of_type t l1 ++ assets_of_type t l2.
Proof. unfold assets_of_type. apply List.filter_app. Qed.

Lemma assets_of_type_none (t : string) (l : list Asset) :
  (forall a, In a l -> asset_type a <> t) -> assets_of_type t l = [].
Proof.
  induction l as [| a l IH]; intros H; [reflexivity |].
  unfold assets_of_type in *. simpl.
  destruct (String.eqb (asset_type a) t) eqn:E.
  - apply String.eqb_eq in E. exfalso. apply (H a); [left; reflexivity | exact E].
  - apply IH. intros b Hb. apply H. right. exact Hb.
Qed.

Lemma group_push_keys (gs : list (string * list Asset)) (a : Asset) (k : string) :
  In k (map fst (group_push gs a)) <-> In k (map fst gs) \/ k = asset_type a.
Proof.
  induction gs as [| [t g] gs IH]; simpl.
  - split.
    + intros [<- | []]. right. reflexivity.
    + intros [[] | ->]. left. reflexivity.
  - destruct (String.eqb t (asset_type a)) eqn:E; simpl.
    + apply String.eqb_eq in E. subst t. split; [intros H; left; exact H |].
      intros [H | ->]; [exact H | left; reflexivity].
    + rewrite IH. split.
      * intros [H | [H | H]]; [left; left | left; right | right]; exact H.
      * intros [[H | H] | H]; [left | right; left | right; right]; exact H.
Qed.

Lemma group_push_NoDup (gs : list (string * list Asset)) (a : Asset) :
  List.NoDup (map fst gs) -> List.NoDup (map fst (group_push gs a)).
Proof.
  induction gs as [| [t g] gs IH]; simpl; intros H.
  - constructor; [intros [] | constructor].
  - inversion H as [| ? ? Hn Hd]; subst.
    destruct (String.eqb t (asset_type a)) eqn:E; simpl.
    + constructor; assumption.
    + constructor; [| apply IH; exact Hd].
      rewrite group_push_keys. intros [Hin | ->]; [contradiction |].
      rewrite String.eqb_refl in E. discriminate.
Qed.

Lemma group_push_In (gs : list (string * list Asset)) (a : Asset) t g :
  List.NoDup (map fst gs) ->
  In (t, g) (group_push gs a) ->
  (t <> asset_type a /\ In (t, g) gs) \/
  (t = asset_type a /\
   ((exists g0, In (t, g0) gs /\ g = g0 ++ [a]) \/
    (~ In t (map fst gs) /\ g = [a]))).
Proof.
  induction gs as [| [k x] gs IH]; simpl; intros Hnd.
  - intros [[= <- <-] | []]. right. split; [reflexivity |]. right.
    split; [intros [] | reflexivity].
  - inversion Hnd as [| ? ? Hn Hd]; subst.
    destruct (String.eqb k (asset_type a)) eqn:E; simpl.
    + apply String.eqb_eq in E. subst k. intros [[= <- <-] | H].
      * right. split; [reflexivity |]. left. exists x. split; [left |]; reflexivity.
      * left. split; [| right; exact H].
        intros ->. apply Hn. apply (in_map fst) in H. exact H.
    + apply String.eqb_neq in E. intros [[= <- <-] | H].
      * left. split; [exact E | left; reflexivity].
      * destruct (IH Hd H) as [[Hne Hin] | [-> [(g0 & Hin & ->) | [Hne ->]]]].
        -- left. split; [exact Hne | right; exact Hin].
        -- right. split; [reflexivity |]. left. exists g0.
           split; [right; exact Hin | reflexivity].
        -- right. split; [reflexivity |]. right. split; [| reflexivity].
           intros [-> | Hin]; [congruence | contradiction].
Qed.

Lemma grouped_push gs seen (a : Asset) :
  grouped gs seen -> grouped (group_push gs a) (seen ++ [a]).
Proof.
  intros (Hnd & Hg & Hk). split; [apply group_push_NoDup; exact Hnd | split].
  - intros t g Hin. rewrite assets_of_type_app.
    assert (Ea : assets_of_type (asset_type a) [a] = [a]).
    { unfold assets_of_type. simpl. rewrite String.eqb_refl. reflexivity. }
    destruct (group_push_In gs a t g Hnd Hin)
      as [[Hne Hold] | [-> [(g0 & Hold & ->) | [Hnew ->]]]].
    + destruct (Hg t g Hold) as [Hgeq Hnil]. split; [| exact Hnil].
      assert (E : assets_of_type t [a] = []).
      { unfold assets_of_type. simpl.
        apply not_eq_sym, String.eqb_neq in Hne. rewrite Hne. reflexivity. }
      rewrite E, app_nil_r. exact Hgeq.
    + destruct (Hg _ g0 Hold) as [Hgeq _]. rewrite Ea, <- Hgeq.
      split; [reflexivity |].
      intros H. apply app_eq_nil in H. destruct H as [_ H]. discriminate H.
    + rewrite Ea, (assets_of_type_none (asset_type a) seen).
      * split; [reflexivity | discriminate].
      * intros b Hb Heq. apply Hnew. rewrite <- Heq. apply Hk. exact Hb.
  - intros b Hb. apply group_push_keys. apply in_app_or in Hb.
    destruct Hb as [Hb | [<- | []]]; [left; apply Hk; exact Hb | right; reflexivity].
Qed.

Lemma grouped_fold (l : list Asset) gs seen :
  grouped gs seen -> grouped (fold_left group_push l gs) (seen ++ l).
Proof.
  revert gs seen. induction l as [| a l IH]; intros gs seen H; simpl.
  - rewrite app_nil_r. exact H.
  - replace (seen ++ a :: l) with ((seen ++ [a]) ++ l) by (rewrite <- app_assoc; reflexivity).
    apply IH. apply grouped_push. exact H.
Qed.

Lemma groupAssetsByType_grouped (l : list Asset) : grouped (groupAssetsByType l) l.
Proof.
  apply (grouped_fold l [] []). split; [constructor | split]; intros; contradiction.
Qed.

(** X1: on assets whose types do not name a member of [Object.prototype],
    [groupAssetsByType] splits the assets by type: no type has two groups,
    the group of a type holds exactly the assets of that type in their
    order and is not empty, and every asset is in the group of its type. *)
Theorem groupAssetsByType_partition (l : list Asset) :
  Forall (fun a => inherited (asset_type a) = false) l ->
  List.NoDup (map fst (groupAssetsByType l)) /\
  (forall t g, In (t, g) (groupAssetsByType l) ->
               g = assets_of_type t l /\ g <> []) /\
  (forall a, In a l ->
             In (asset_type a, assets_of_type (asset_type a) l) (groupAssetsByType l)).
Proof.
  intros _. destruct (groupAssetsByType_grouped l) as (Hnd & Hg & Hk).
  split; [exact Hnd | split; [exact Hg |]].
  intros a Ha. specialize (Hk a Ha). apply in_map_iff in Hk.
  destruct Hk as ([t g] & Ht & Hin). simpl in Ht. subst t.
  destruct (Hg _ _ Hin) as [<- _]. exact Hin.
Qed.

(** ** The breakdown and the nominal value *)






(** ** Growth over the years and across the scenarios *)

Lemma sum_values_nonneg (l : list Asset) :
  (forall a, In a l -> 0 <= or0 (value a)) -> 0 <= sum_values l.
Proof.
  induction l as [| a l IH]; intros H; simpl; [lra |].
  pose proof (H a (or_introl eq_refl)).
  assert (0 <= sum_values l) by (apply IH; intros b Hb; apply H; right; exact Hb).
  lra.
Qed.

Lemma Qpower_base_le (a b : Q) (n : nat) :
  0 <= a -> a <= b -> a ^ Z.of_nat n <= b ^ Z.of_nat n.
Proof.
  intros Ha Hab. induction n as [| n IH].
  - simpl. lra.
  - rewrite Nat2Z.inj_succ, <- Z.add_1_r.
    destruct (Qeq_dec a 0) as [E | N].
    + rewrite E. rewrite Qpower_0 by lia.
      apply Qpower_0_le. lra.
    + assert (Hb : ~ b == 0) by lra.
      rewrite !Qpower_plus by assumption. rewrite !Qpower_1_r.
      assert (0 <= a ^ Z.of_nat n) by (apply Qpower_0_le; exact Ha).
      nra.
Qed.

Lemma Qpower_exp_le (x : Q) (n m : nat) :
  1 <= x -> (n <= m)%nat -> x ^ Z.of_nat n <= x ^ Z.of_nat m.
Proof. intros Hx Hnm. apply Qpower_le_compat_l; [lia | exact Hx]. Qed.

Lemma groups_value_le (r1 r2 : string -> Q) (n m : nat) gs :
  (forall t g, In (t, g) gs ->
     0 <= sum_values g /\
     (1 + r1 t / 100) ^ Z.of_nat n <= (1 + r2 t / 100) ^ Z.of_nat m) ->
  groups_value r1 n gs <= groups_value r2 m gs.
Proof.
  induction gs as [| [t g] gs IH]; intros H; simpl; [lra |].
  destruct (H t g (or_introl eq_refl)) as [Hs Hp].
  assert (groups_value r1 n gs <= groups_value r2 m gs)
    by (apply IH; intros t' g' Hin; apply H; right; exact Hin).
  nra.
Qed.

Lemma group_values_nonneg (l : list Asset) t g :
  (forall a, In a l -> 0 <= or0 (value a)) ->
  In (t, g) (groupAssetsByType l) -> 0 <= sum_values g /\ exists a, In a l /\ asset_type a = t.
Proof.
  intros Hv Hin.
  destruct (groupAssetsByType_grouped l) as (_ & Hg & _).
  destruct (Hg t g Hin) as [Hgeq Hnil]. subst g. split.
  - apply sum_values_nonneg. intros a Ha. apply Hv.
    unfold assets_of_type in Ha. apply filter_In in Ha. apply Ha.
  - destruct (assets_of_type t l) as [| a rest] eqn:E; [contradiction |].
    assert (Ha : In a (assets_of_type t l)) by (rewrite E; left; reflexivity).
    unfold assets_of_type in Ha. apply filter_In in Ha. destruct Ha as [Ha Ht].
    exists a. split; [exact Ha |]. apply String.eqb_eq. exact Ht.
Qed.

Lemma nominal_at_value w p sc s st (y : nat) :
  inject_Z (Z.of_nat y) <= horizonYears st ->
  exists q, nominal_at (calculateScenarioProjection w p sc s st) y = Fin q /\
            q == groups_value (fun t => returnRate_of w st t s) y
                   (groupAssetsByType (default [] (assets p))).
Proof.
  intros Hy.
  destruct (nominal_value w p sc s st y Hy) as (yp & Hn & _ & Hnom & _).
  unfold nominal_at. rewrite Hn. simpl. apply num_eq_Fin_inv. exact Hnom.
Qed.

(** X3: when no asset value is negative and no asset type has a negative
    return rate under the scenario, the nominal value of a projection never
    falls from one year to a later one. *)
Theorem nominal_nondecreasing w p sc s st (y1 y2 : nat) :
  (forall a, In a (default [] (assets p)) -> 0 <= or0 (value a)) ->
  (forall a, In a (default [] (assets p)) ->
             0 <= returnRate_of w st (asset_type a) s) ->
  (y1 <= y2)%nat ->
  inject_Z (Z.of_nat y2) <= horizonYears st ->
  jle (nominal_at (calculateScenarioProjection w p sc s st) y1)
      (nominal_at (calculateScenarioProjection w p sc s st) y2) = true.
Proof.
  intros Hv Hr H12 Hy2.
  assert (Hy1 : inject_Z (Z.of_nat y1) <= horizonYears st).
  { apply Qle_trans with (inject_Z (Z.of_nat y2)); [| exact Hy2].
    rewrite <- Zle_Qle. lia. }
  destruct (nominal_at_value w p sc s st y1 Hy1) as (q1 & -> & E1).
  destruct (nominal_at_value w p sc s st y2 Hy2) as (q2 & -> & E2).
  apply Qleb_spec. rewrite E1, E2. apply groups_value_le.
  intros t g Hin.
  destruct (group_values_nonneg _ t g Hv Hin) as (Hs & a & Ha & <-).
  split; [exact Hs |]. apply Qpower_exp_le; [| exact H12].
  specialize (Hr a Ha). qlra.
Qed.

(** X4: when no asset value is negative, and under one scenario every asset
    type has a return rate that is at least -100% and at most its rate under
    another scenario, the nominal value under the first scenario is at most
    the one under the second, at every year. *)
Theorem nominal_ordered_by_scenario w p sc st (s1 s2 : ScenarioType) (y : nat) :
  (forall a, In a (default [] (assets p)) -> 0 <= or0 (value a)) ->
  (forall a, In a (default [] (assets p)) ->
             -100 <= returnRate_of w st (asset_type a) s1 /\
             returnRate_of w st (asset_type a) s1 <=
             returnRate_of w st (asset_type a) s2) ->
  inject_Z (Z.of_nat y) <= horizonYears st ->
  jle (nominal_at (calculateScenarioProjection w p sc s1 st) y)
      (nominal_at (calculateScenarioProjection w p sc s2 st) y) = true.
Proof.
  intros Hv Hr Hy.
  destruct (nominal_at_value w p sc s1 st y Hy) as (q1 & -> & E1).
  destruct (nominal_at_value w p sc s2 st y Hy) as (q2 & -> & E2).
  apply Qleb_spec. rewrite E1, E2. apply groups_value_le.
  intros t g Hin.
  destruct (group_values_nonneg _ t g Hv Hin) as (Hs & a & Ha & <-).
  split; [exact Hs |]. destruct (Hr a Ha) as [Hlo Hle].
  apply Qpower_base_le; qlra.
Qed.

(** ** Liabilities with the registry loaded *)

Lemma fold_remaining (w : Window) (y : Q) (ls : list Liability) (acc : Q) :
  liabilityClasses w = true ->
  Forall (fun l => exists b, calculateRemainingBalance l y = Fin b /\
                             b == balance_value l y) ls ->
  (fold_left (fun totalLiabilities liability =>
     if negb (liabilityClasses w)
     then (totalLiabilities +! Fin (or0 (currentBalance liability)))%js
     else (totalLiabilities +! calculateRemainingBalance liability y)%js)
     ls (Fin acc) =j Fin (acc + sum_balance_values ls y))%js.
Proof.
  intros Hw. rewrite Hw. cbn [negb]. intros H. revert acc.
  induction H as [| l ls (b & Hb & E) _ IH]; intros acc; simpl.
  - lra.
  - rewrite Hb. cbn [jadd]. eapply num_eq_trans; [apply IH |]. simpl. lra.
Qed.

Lemma liabilities_value (w : Window) (y : Q) (ls : option (list Liability)) :
  liabilityClasses w = true ->
  Forall (fun l => exists b, calculateRemainingBalance l y = Fin b /\
                             b == balance_value l y) (default [] ls) ->
  (calculateLiabilitiesValue w ls y =j Fin (sum_balance_values (default [] ls) y))%js.
Proof.
  intros Hw H. destruct ls as [[| l ls] |]; try (simpl; reflexivity).
  unfold calculateLiabilitiesValue.
  eapply num_eq_trans; [apply (fold_remaining w y (l :: ls) 0 Hw H) |].
  simpl. lra.
Qed.

Lemma sum_balance_values_start (ls : list Liability) (y : Q) :
  y <= 0 -> sum_balance_values ls y == sum_principals ls.
Proof.
  intros Hy. apply Qleb_spec in Hy.
  induction ls as [| l ls IH]; simpl; [reflexivity |].
  unfold balance_value at 1. rewrite Hy, IH. reflexivity.
Qed.

Lemma sum_balance_values_end (ls : list Liability) (y : Q) :
  0 < y -> (forall l, In l ls -> termYears l <= y) -> sum_balance_values ls y == 0.
Proof.
  intros Hy. apply Qleb_false in Hy.
  induction ls as [| l ls IH]; intros H; simpl; [reflexivity |].
  unfold balance_value at 1. rewrite Hy.
  assert (E : Qleb (termYears l) y = true) by (apply Qleb_spec, H; left; reflexivity).
  rewrite E, IH; [reflexivity |]. intros l' Hl'. apply H. right. exact Hl'.
Qed.

(** X5: with the liability registry loaded [calculateLiabilitiesValue] is
    the sum of the [principal] fields up to year 0, whatever the
    [currentBalance] fields hold, and 0 once the term of every liability
    has passed. *)
Theorem calculateLiabilitiesValue_with_registry
    (w : Window) (ls : option (list Liability)) (years : Q) :
  liabilityClasses w = true ->
  (years <= 0 ->
   (calculateLiabilitiesValue w ls years =j Fin (sum_principals (default [] ls)))%js) /\
  (0 < years -> (forall l, In l (default [] ls) -> termYears l <= years) ->
   (calculateLiabilitiesValue w ls years =j Fin 0)%js).
Proof.
  intros Hw. split.
  - intros Hy. eapply num_eq_trans.
    + apply liabilities_value; [exact Hw |]. apply List.Forall_forall. intros l _.
      exists (principal l). split; [apply remaining_balance_start; exact Hy |].
      unfold balance_value. apply Qleb_spec in Hy. rewrite Hy. reflexivity.
    + simpl. apply sum_balance_values_start. exact Hy.
  - intros Hy Hall. eapply num_eq_trans.
    + apply liabilities_value; [exact Hw |]. apply List.Forall_forall. intros l Hl.
      exists 0. split; [apply remaining_balance_end; [exact Hy | apply Hall; exact Hl] |].
      unfold balance_value. apply Qleb_false in Hy. rewrite Hy.
      assert (E : Qleb (termYears l) years = true) by (apply Qleb_spec, Hall; exact Hl).
      rewrite E. reflexivity.
    + simpl. apply sum_balance_values_end; assumption.
Qed.

Lemma sum_balance_values_bounds (ls : list Liability) (y : Q) :
  pow_monotone ->
  (forall l, In l ls -> valid_liability l /\ is_integer (principal l * 100) = true) ->
  0 <= sum_balance_values ls y <= sum_principals ls.
Proof.
  intros Hpow. induction ls as [| l ls IH]; intros H; simpl; [lra |].
  destruct (H l (or_introl eq_refl)) as [Hv Hc].
  pose proof (balance_value_bounds l Hv Hpow Hc y).
  assert (0 <= sum_balance_values ls y <= sum_principals ls)
    by (apply IH; intros l' Hl'; apply H; right; exact Hl').
  lra.
Qed.

Lemma sum_balance_values_decreasing (ls : list Liability) (y1 y2 : Q) :
  pow_monotone ->
  (forall l, In l ls -> valid_liability l /\ is_integer (principal l * 100) = true) ->
  y1 <= y2 -> sum_balance_values ls y2 <= sum_balance_values ls y1.
Proof.
  intros Hpow H H12. induction ls as [| l ls IH]; simpl; [lra |].
  destruct (H l (or_introl eq_refl)) as [Hv Hc].
  pose proof (balance_value_decreasing l Hv Hpow Hc y1 y2 H12).
  assert (sum_balance_values ls y2 <= sum_balance_values ls y1)
    by (apply IH; intros l' Hl'; apply H; right; exact Hl').
  lra.
Qed.

Lemma liabilities_amount (w : Window) (ls : option (list Liability)) (y : Q) :
  pow_monotone ->
  liabilityClasses w = true ->
  (forall l, In l (default [] ls) -> valid_liability l) ->
  exists v, calculateLiabilitiesValue w ls y = Fin v /\
            v == sum_balance_values (default [] ls) y.
Proof.
  intros Hpow Hw H. apply num_eq_Fin_inv. apply liabilities_value; [exact Hw |].
  apply List.Forall_forall. intros l Hl. apply balance_is_value; [apply H; exact Hl | exact Hpow].
Qed.

(** X6: with the registry loaded, for loans with a positive principal of
    whole cents, a positive rate and a positive term, the liabilities value
    is a finite amount between 0 and the sum of the principals, and it never
    rises from one point in time to a later one. *)
Theorem liabilities_value_bounded_decreasing
    (w : Window) (ls : option (list Liability)) (y1 y2 : Q) :
  pow_monotone ->
  liabilityClasses w = true ->
  (forall l, In l (default [] ls) ->
             valid_liability l /\ is_integer (principal l * 100) = true) ->
  (exists v, calculateLiabilitiesValue w ls y1 = Fin v /\
             0 <= v <= sum_principals (default [] ls)) /\
  (y1 <= y2 ->
   jle (calculateLiabilitiesValue w ls y2) (calculateLiabilitiesValue w ls y1) = true).
Proof.
  intros Hpow Hw H.
  assert (Hv : forall l, In l (default [] ls) -> valid_liability l)
    by (intros l Hl; apply H; exact Hl).
  destruct (liabilities_amount w ls y1 Hpow Hw Hv) as (v1 & E1 & V1).
  destruct (liabilities_amount w ls y2 Hpow Hw Hv) as (v2 & E2 & V2).
  split.
  - exists v1. split; [exact E1 |]. rewrite V1.
    apply sum_balance_values_bounds; assumption.
  - intros H12. rewrite E1, E2. apply Qleb_spec. rewrite V1, V2.
    apply sum_balance_values_decreasing; assumption.
Qed.

(** X7: a portfolio whose assets have no negative value and no negative
    return rate, and whose loans are as in X6, has a net worth that never
    falls from one year of a projection to a later one. *)
Theorem netWorth_nondecreasing w p sc s st (y1 y2 : nat) :
  pow_monotone ->
  liabilityClasses w = true ->
  (forall a, In a (default [] (assets p)) -> 0 <= or0 (value a)) ->
  (forall a, In a (default [] (assets p)) ->
             0 <= returnRate_of w st (asset_type a) s) ->
  (forall l, In l (default [] (liabilities p)) ->
             valid_liability l /\ is_integer (principal l * 100) = true) ->
  (y1 <= y2)%nat ->
  inject_Z (Z.of_nat y2) <= horizonYears st ->
  jle (netWorth_at (calculateScenarioProjection w p sc s st) y1)
      (netWorth_at (calculateScenarioProjection w p sc s st) y2) = true.
Proof.
  intros Hpow Hw Hval Hr Hl H12 Hy2.
  assert (Hy1 : inject_Z (Z.of_nat y1) <= horizonYears st).
  { apply Qle_trans with (inject_Z (Z.of_nat y2)); [| exact Hy2].
    rewrite <- Zle_Qle. lia. }
  assert (Hv : forall l, In l (default [] (Some (default [] (liabilities p)))) ->
                         valid_liability l)
    by (intros l Hin; apply Hl; exact Hin).
  destruct (nominal_value w p sc s st y1 Hy1) as (yp1 & N1 & _ & Hn1 & W1 & L1 & _).
  destruct (nominal_value w p sc s st y2 Hy2) as (yp2 & N2 & _ & Hn2 & W2 & L2 & _).
  unfold netWorth_at. rewrite N1, N2. cbn [fmap option_fmap option_map default].
  rewrite W1, W2, L1, L2.
  destruct (num_eq_Fin_inv _ _ Hn1) as (q1 & -> & Q1).
  destruct (num_eq_Fin_inv _ _ Hn2) as (q2 & -> & Q2).
  destruct (liabilities_amount w (Some (default [] (liabilities p)))
              (inject_Z (Z.of_nat y1)) Hpow Hw Hv) as (v1 & -> & V1).
  destruct (liabilities_amount w (Some (default [] (liabilities p)))
              (inject_Z (Z.of_nat y2)) Hpow Hw Hv) as (v2 & -> & V2).
  cbn [jsub jneg jadd]. apply Qleb_spec.
  assert (Hq : q1 <= q2).
  { rewrite Q1, Q2. apply groups_value_le. intros t g Hin.
    destruct (group_values_nonneg _ t g Hval Hin) as (Hs & a & Ha & <-).
    split; [exact Hs |]. apply Qpower_exp_le; [| exact H12].
    specialize (Hr a Ha). qlra. }
  assert (Hd : v2 <= v1).
  { rewrite V1, V2. apply sum_balance_values_decreasing; [exact Hpow | |].
    - intros l Hin. apply Hl. exact Hin.
    - rewrite <- Zle_Qle. lia. }
  lra.
Qed.

(** ** A loan at the rate 0 *)

Lemma Math_pow_one (x e : Q) :
  pow_at_one -> x == 1 -> (Math_pow (Fin x) (Fin e) =j Fin 1)%js.
Proof.
  intros H1 Hx. eapply num_eq_trans; [apply Math_pow_pos; lra |].
  simpl. unfold power. destruct (is_integer e).
  - rewrite Hx. apply Qpower_1.
  - apply H1. exact Hx.
Qed.

Lemma zero_rate_balance (l : Liability) (y : Q) :
  pow_at_one -> rate l == 0 -> 0 < y -> y < termYears l ->
  calculateRemainingBalance l y = NaN.
Proof.
  intros H1 Hr H0 HT.
  apply Qleb_false in H0. apply Qleb_false in HT.
  unfold calculateRemainingBalance. rewrite H0, HT.
  assert (HA : 1 + rate l / 100 / 12 == 1) by (rewrite Hr; reflexivity).
  destruct (num_eq_Fin_inv _ _ (Math_pow_one _ (termYears l * 12) H1 HA))
    as (pT & -> & ET).
  destruct (num_eq_Fin_inv _ _ (Math_pow_one _ (y * 12) H1 HA)) as (pm & -> & Em).
  unfold jsub. cbn [jneg jadd jmul jdiv].
  assert (Ez : Qeq_bool (pT + - (1)) 0 = true) by (apply Qeq_bool_iff; lra).
  rewrite Ez.
  assert (Ec : (principal l * (pT + - pm) ?= 0) = Eq).
  { apply Qeq_alt. rewrite ET, Em. ring. }
  rewrite Ec. reflexivity.
Qed.

Lemma fold_remaining_NaN (y : Q) (ls : list Liability) :
  fold_left (fun totalLiabilities liability =>
               (totalLiabilities +! calculateRemainingBalance liability y)%js) ls NaN = NaN.
Proof. induction ls as [| l ls IH]; simpl; [reflexivity | exact IH]. Qed.

Lemma liabilities_NaN (w : Window) (ls : list Liability) (l : Liability) (y : Q) :
  liabilityClasses w = true -> In l ls -> calculateRemainingBalance l y = NaN ->
  calculateLiabilitiesValue w (Some ls) y = NaN.
Proof.
  intros Hw Hin HN. unfold calculateLiabilitiesValue.
  destruct ls as [| l0 ls0]; [contradiction |].
  rewrite Hw. cbn [negb]. generalize (Fin 0) as acc. revert Hin.
  generalize (l0 :: ls0) as ks. clear l0 ls0.
  induction ks as [| k ks IH]; intros Hin acc; [contradiction |].
  simpl. destruct Hin as [-> | Hin].
  - rewrite HN. replace (acc +! NaN)%js with NaN by (destruct acc; reflexivity).
    apply fold_remaining_NaN.
  - apply IH. exact Hin.
Qed.

(** X8: strictly inside its term a loan with the rate 0 has no remaining
    balance: [calculateRemainingBalance] divides zero by zero and returns
    [NaN].  With the registry loaded, one such loan makes the liabilities,
    the net worth and the real value of the projection [NaN] in every such
    year. *)
Theorem zero_rate_loan_NaN w p sc s st (l : Liability) (y : nat) :
  pow_at_one ->
  rate l == 0 ->
  (0 < y)%nat -> inject_Z (Z.of_nat y) < termYears l ->
  calculateRemainingBalance l (inject_Z (Z.of_nat y)) = NaN /\
  (liabilityClasses w = true ->
   In l (default [] (liabilities p)) ->
   inject_Z (Z.of_nat y) <= horizonYears st ->
   exists yp,
     nth_error (calculateScenarioProjection w p sc s st) y = Some yp /\
     yp_liabilities yp = NaN /\ yp_netWorth yp = NaN /\ real yp = NaN).
Proof.
  intros H1 Hr H0 HT.
  assert (Hy : 0 < inject_Z (Z.of_nat y)) by (rewrite <- (Zlt_Qlt 0); lia).
  pose proof (zero_rate_balance l _ H1 Hr Hy HT) as HN.
  split; [exact HN |].
  intros Hw Hin Hh.
  destruct (nominal_value w p sc s st y Hh) as (yp & Hn & _ & _ & HW & HL & HR).
  exists yp. split; [exact Hn |].
  assert (EL : yp_liabilities yp = NaN).
  { rewrite HL. apply (liabilities_NaN w _ l); assumption. }
  assert (EW : yp_netWorth yp = NaN).
  { rewrite HW, EL. destruct (nominal yp); reflexivity. }
  split; [exact EL | split; [exact EW |]].
  rewrite HR, EW. reflexivity.
Qed.

(** ** The real value *)

Lemma jdiv_zero (a : number) (z : Q) : z == 0 -> forall q, (a /! Fin z)%js <> Fin q.
Proof.
  intros Hz q. apply Qeq_bool_iff in Hz.
  destruct a as [x | | |]; simpl; try rewrite Hz; try discriminate.
  destruct (x ?= 0); discriminate.
Qed.

(** X9: with an inflation rate above -100% the real value of a year is the
    net worth divided by the inflation factor compounded over the years;
    with no deflation the real value of a non-negative net worth is at most
    the net worth. *)
Theorem real_value_deflated w p sc s st (y : nat) (n : Q) :
  -100 < inflation st ->
  inject_Z (Z.of_nat y) <= horizonYears st ->
  netWorth_at (calculateScenarioProjection w p sc s st) y = Fin n ->
  (real_at (calculateScenarioProjection w p sc s st) y =j
   Fin (n / (1 + inflation st / 100) ^ Z.of_nat y))%js /\
  (0 <= inflation st -> 0 <= n ->
   jle (real_at (calculateScenarioProjection w p sc s st) y) (Fin n) = true).
Proof.
  intros Hi Hy. unfold netWorth_at, real_at.
  destruct (nominal_value w p sc s st y Hy) as (yp & Hn & _ & _ & _ & _ & HR).
  rewrite Hn. simpl. intros HW. rewrite HR, HW.
  destruct (num_eq_Fin_inv _ _ (Math_pow_nat (1 + inflation st / 100) y))
    as (f & -> & Ef).
  assert (HA : 0 < 1 + inflation st / 100) by qlra.
  assert (Hf : 0 < f) by (rewrite Ef; apply Qpower_0_lt; exact HA).
  rewrite jdiv_Fin by lra. split.
  - simpl. rewrite Ef. reflexivity.
  - intros H0 Hn0. apply Qleb_spec.
    assert (H1 : 1 <= f).
    { rewrite Ef. apply (Qpower_exp_le _ 0 y); [qlra | lia]. }
    apply Qle_shift_div_r; [exact Hf | nra].
Qed.

(** X10: at an inflation rate of -100% the inflation factor of every year
    after year 0 is zero, and the real value of that year is not a finite
    number: it is an infinity or [NaN]. *)
Theorem real_value_at_full_deflation w p sc s st (y : nat) :
  inflation st == -100 ->
  (0 < y)%nat ->
  inject_Z (Z.of_nat y) <= horizonYears st ->
  exists yp,
    nth_error (calculateScenarioProjection w p sc s st) y = Some yp /\
    forall q, real yp <> Fin q.
Proof.
  intros Hi H0 Hy.
  destruct (nominal_value w p sc s st y Hy) as (yp & Hn & _ & _ & _ & _ & HR).
  exists yp. split; [exact Hn |]. rewrite HR.
  destruct (num_eq_Fin_inv _ _ (Math_pow_nat (1 + inflation st / 100) y))
    as (f & -> & Ef).
  apply jdiv_zero. rewrite Ef.
  assert (HA : 1 + inflation st / 100 == 0) by (rewrite Hi; reflexivity).
  rewrite HA. apply Qpower_0. lia.
Qed.

(** ** The risk score *)

Lemma weightedRisk_finite (tv : Q) (l : list Asset) (acc : Q) :
  ~ tv == 0 ->
  exists q,
    fold_left (fun weightedRisk asset =>
      (weightedRisk +!
       (Fin (or0 (value asset)) /! Fin tv) *!
       jor (Fin <$> assetRiskWeights (asset_type asset)) (Fin 3))%js) l (Fin acc) = Fin q.
Proof.
  intros Htv. revert acc. induction l as [| a l IH]; intros acc; cbn [fold_left].
  - exists acc. reflexivity.
  - assert (Hr : exists r, jor (Fin <$> assetRiskWeights (asset_type a)) (Fin 3) = Fin r).
    { destruct (assetRiskWeights (asset_type a)) as [r |]; simpl.
      - destruct (negb (Qeq_bool r 0)); eexists; reflexivity.
      - eexists; reflexivity. }
    destruct Hr as (r & ->). rewrite (jdiv_Fin _ _ Htv). cbn [jmul jadd]. apply IH.
Qed.

Lemma totalValue_divisor (tv : option Q) :
  exists d, jor (Fin <$> tv) (Fin 1) = Fin d /\ ~ d == 0.
Proof.
  destruct tv as [x |]; simpl.
  - destruct (Qeq_bool x 0) eqn:E; simpl.
    + exists 1. split; [reflexivity | lra].
    + exists x. split; [reflexivity |]. intros H. apply Qeq_bool_iff in H. congruence.
  - exists 1. split; [reflexivity | lra].
Qed.

Lemma clamp_round (x : Q) :
  exists k, (1 <= k <= 10)%Z /\
    Math_min (Math_max (Math_round (Fin x)) (Fin 1)) (Fin 10) = Fin (inject_Z k).
Proof.
  cbn [Math_round]. set (z := Qfloor (x + (1 # 2))).
  unfold Math_max. cbn [ncompare].
  destruct (Z_lt_le_dec z 1) as [Hlt | Hge].
  - assert (E : (inject_Z z ?= 1) = Lt).
    { apply Qlt_alt. rewrite (Zlt_Qlt z 1) in Hlt. exact Hlt. }
    rewrite E. exists 1%Z. split; [lia | reflexivity].
  - assert (E : (inject_Z z ?= 1) <> Lt).
    { intros H. apply Qlt_alt in H. change (inject_Z z < inject_Z 1) in H.
      rewrite <- Zlt_Qlt in H. lia. }
    assert (Ha : match inject_Z z ?= 1 with Lt => Fin 1 | _ => Fin (inject_Z z) end =
                 Fin (inject_Z z)).
    { destruct (inject_Z z ?= 1); [reflexivity | contradiction | reflexivity]. }
    rewrite Ha. unfold Math_min. cbn [ncompare].
    destruct (Z_le_gt_dec z 10) as [Hle | Hgt].
    + assert (E' : (inject_Z z ?= 10) <> Gt).
      { apply Qle_alt. rewrite (Zle_Qle z 10) in Hle. exact Hle. }
      exists z. split; [lia |].
      destruct (inject_Z z ?= 10); [reflexivity | reflexivity | contradiction].
    + assert (E' : (inject_Z z ?= 10) = Gt).
      { apply Qgt_alt. apply Z.gt_lt in Hgt. rewrite (Zlt_Qlt 10 z) in Hgt. exact Hgt. }
      rewrite E'. exists 10%Z. split; [lia | reflexivity].
Qed.

Lemma riskScore_clamped (p : Portfolio) (volatility : number) :
  volatility <> NaN ->
  exists k, (1 <= k <= 10)%Z /\ calculateRiskScore p volatility = Fin (inject_Z k).
Proof.
  intros Hv. unfold calculateRiskScore.
  destruct (assets p) as [[| a l] |]; try (exists 1%Z; split; [lia | reflexivity]).
  destruct (totalValue_divisor (totalValue p)) as (d & -> & Hd).
  destruct (weightedRisk_finite d (a :: l) 0 Hd) as (q & ->).
  destruct volatility as [v | | |]; [| | | contradiction].
  - cbn [jdiv]. change (Qeq_bool 20 0) with false. cbv iota.
    unfold Math_min at 2. cbn [ncompare].
    destruct (v / 20 ?= 2); cbn [jadd]; apply clamp_round.
  - cbn [jdiv sgn cmul inf_of]. change (Qeq_bool 20 0) with false. cbv iota.
    change (20 ?= 0) with Gt. cbn [cmul inf_of].
    unfold Math_min at 2. cbn [ncompare jadd]. apply clamp_round.
  - exists 1%Z. split; [lia | reflexivity].
Qed.

(** X11: for a portfolio whose asset types do not name a member of
    [Object.prototype], [calculateRiskScore] returns a whole number from 1
    to 10 for every volatility that is a number, whatever the values and
    the cached total are; when the volatility is [NaN] and the portfolio
    has assets, it returns [NaN]. *)
Theorem calculateRiskScore_range (p : Portfolio) (volatility : number) :
  (Forall (fun a => inherited (asset_type a) = false) (default [] (assets p)) ->
   volatility <> NaN ->
   exists k, (1 <= k <= 10)%Z /\ calculateRiskScore p volatility = Fin (inject_Z k)) /\
  (forall a l, assets p = Some (a :: l) -> calculateRiskScore p NaN = NaN).
Proof.
  split; [intros _; apply riskScore_clamped |].
  - intros a l Hp. unfold calculateRiskScore. rewrite Hp.
    destruct (totalValue_divisor (totalValue p)) as (d & -> & Hd).
    destruct (weightedRisk_finite d (a :: l) 0 Hd) as (q & ->).
    reflexivity.
Qed.

(** ** The maximum drawdown *)

Lemma drawdown_step (m d v : Q) :
  0 <= m -> 0 <= d ->
  exists m' d',
    (let maxValue := Math_max (Fin m) (Fin v) in
     if jgt maxValue (Fin 0)
     then (maxValue, Math_max (Fin d) ((maxValue -! Fin v) /! maxValue *! Fin 100)%js)
     else (maxValue, Fin d)) = (Fin m', Fin d') /\
    0 <= m' /\ m <= m' /\ v <= m' /\ (m' = m \/ m' = v) /\
    d <= d' /\
    (0 <= v -> d <= 100 -> d' <= 100) /\
    ((0 < m -> m <= v) -> d' = d).
Proof.
  intros Hm Hd. cbv zeta.
  assert (Hmax : exists m', Math_max (Fin m) (Fin v) = Fin m' /\
                            m <= m' /\ v <= m' /\ (m' = m \/ m' = v) /\
                            ((0 < m -> m <= v) -> 0 < m' -> m' == v)).
  { unfold Math_max. cbn [ncompare]. destruct (m ?= v) eqn:E.
    - apply Qeq_alt in E. exists m. repeat split; try lra. left; reflexivity.
    - apply Qlt_alt in E. exists v. repeat split; try lra. right; reflexivity.
    - apply Qgt_alt in E. exists m. repeat split; try lra. left; reflexivity. }
  destruct Hmax as (m' & -> & H1 & H2 & H3 & H4).
  unfold jgt, jlt. cbn [ncompare].
  destruct (0 ?= m') eqn:E0.
  - exists m', d. apply Qeq_alt in E0.
    repeat split; try lra; try exact H3.
  - apply Qlt_alt in E0.
    unfold jsub. cbn [jneg jadd jdiv]. rewrite Qeq_bool_false by lra. cbn [jmul].
    set (dd := (m' + - v) / m' * 100).
    assert (Hdd0 : 0 <= dd).
    { unfold dd. apply Qmult_le_0_compat; [| lra].
      apply Qle_shift_div_l; [exact E0 | lra]. }
    assert (Hdd1 : 0 <= v -> dd <= 100).
    { intros Hv. unfold dd.
      assert ((m' + - v) / m' <= 1) by (apply Qle_shift_div_r; [exact E0 | lra]).
      lra. }
    assert (Hdd2 : m' == v -> dd == 0).
    { intros Hx. unfold dd. rewrite Hx. field. lra. }
    unfold Math_max. cbn [ncompare]. destruct (d ?= dd) eqn:E.
    + exists m', d. apply Qeq_alt in E.
      repeat split; try lra; try exact H3.
    + exists m', dd. apply Qlt_alt in E.
      repeat split; try lra; try exact H3.
    + exists m', d. apply Qgt_alt in E.
      repeat split; try lra; try exact H3.
  - apply Qgt_alt in E0. lra.
Qed.

Lemma drawdown_loop (vs : list Q) (proj : list YearPoint) (m d : Q) :
  map nominal proj = map Fin vs -> 0 <= m -> 0 <= d ->
  exists m' d',
    fold_left (fun '(maxValue, maxDrawdown) yearData =>
         let value := nominal yearData in
         let maxValue := Math_max maxValue value in
         if jgt maxValue (Fin 0)
         then
           let drawdown := ((maxValue -! value) /! maxValue *! Fin 100)%js in
           (maxValue, Math_max maxDrawdown drawdown)
         else (maxValue, maxDrawdown))
       proj (Fin m, Fin d) = (Fin m', Fin d') /\
    d <= d' /\
    ((forall v, In v vs -> 0 <= v) -> d <= 100 -> d' <= 100) /\
    (nondecreasing vs -> (forall v, nth_error vs 0 = Some v -> 0 < m -> m <= v) ->
     d' = d).
Proof.
  revert proj m d. induction vs as [| v vs IH]; intros proj m d Hmap Hm Hd.
  - destruct proj; [| discriminate]. exists m, d. simpl.
    repeat split; try lra; auto.
  - destruct proj as [| yp proj]; [discriminate |].
    simpl in Hmap. injection Hmap as Hyp Hrest.
    cbn [fold_left]. cbv zeta. rewrite Hyp.
    destruct (drawdown_step m d v Hm Hd)
      as (m1 & d1 & Hstep & G1 & G2 & G3 & G4 & G5 & G6 & G7).
    cbv zeta in Hstep. rewrite Hstep.
    destruct (IH proj m1 d1 Hrest G1 ltac:(lra)) as (m' & d' & Hf & F1 & F2 & F3).
    exists m', d'. split; [exact Hf |]. split; [lra |]. split.
    + intros Hall H100. apply F2.
      * intros x Hx. apply Hall. right. exact Hx.
      * apply G6; [apply Hall; left; reflexivity | exact H100].
    + intros Hs Hhd.
      assert (E1 : d1 = d) by (apply G7; apply (Hhd v eq_refl)).
      rewrite <- E1. apply F3.
      * intros i a b Ha Hb. apply (Hs (S i) a b); assumption.
      * intros x Hx Hm1. pose proof (Hs 0%nat v x eq_refl Hx) as Hvx.
        destruct G4 as [-> | ->]; [| exact Hvx].
        apply Qle_trans with v; [apply (Hhd v eq_refl); exact Hm1 | exact Hvx].
Qed.

(** X12: on a projection whose nominal values are finite
    [calculateMaxDrawdown] is a finite number that is not negative; it is at
    most 100 when no nominal value is negative, and 0 when the nominal
    value never falls from one year to the next. *)
Theorem calculateMaxDrawdown_range (projection : list YearPoint) (vs : list Q) :
  map nominal projection = map Fin vs ->
  exists d,
    calculateMaxDrawdown projection = Fin d /\ 0 <= d /\
    ((forall v, In v vs -> 0 <= v) -> d <= 100) /\
    (nondecreasing vs -> d = 0).
Proof.
  intros Hmap.
  destruct (drawdown_loop vs projection 0 0 Hmap ltac:(lra) ltac:(lra))
    as (m' & d' & Hf & F1 & F2 & F3).
  exists d'. split; [exact (f_equal snd Hf) |]. split; [exact F1 |]. split.
  - intros Hall. apply F2; [exact Hall | lra].
  - intros Hs. apply F3; [exact Hs |]. intros v _ H. lra.
Qed.

(** ** The metrics of the computed projections *)

Lemma calculateProjections_miss w engine p sc st :
  cache engine !! getCacheKey p sc st = None ->
  nth_error (store (snd (calculateProjections w engine p sc st)))
    (fst (calculateProjections w engine p sc st)) =
  Some (computed_projections w p sc st).
Proof.
  intros H. unfold calculateProjections. rewrite H. simpl.
  rewrite nth_error_app2 by lia. rewrite Nat.sub_diag. reflexivity.
Qed.

Lemma yearData_nominal_value w gs ls infl s (y : nat) :
  exists q, nominal (yearData w gs ls infl s y) = Fin q /\
            q == groups_value (fun t => calculateInflationAdjustedReturn (infl * 100)
                                          (adjustment_of w t s)) y gs.
Proof.
  apply num_eq_Fin_inv. rewrite yearData_nominal.
  eapply num_eq_trans; [apply fold_typeStep |]. simpl. lra.
Qed.

Lemma nominals_of_years w gs ls infl s (a n : nat) :
  exists vs,
    map nominal (map (yearData w gs ls infl s) (seq a n)) = map Fin vs /\
    forall i v, nth_error vs i = Some v ->
      v == groups_value (fun t => calculateInflationAdjustedReturn (infl * 100)
                                    (adjustment_of w t s)) (a + i) gs.
Proof.
  revert a. induction n as [| n IH]; intros a.
  - exists []. split; [reflexivity |]. intros [| i] v H; discriminate.
  - destruct (yearData_nominal_value w gs ls infl s a) as (q & Hq & Eq).
    destruct (IH (S a)) as (vs & Hvs & Hnth).
    exists (q :: vs). split.
    + simpl. rewrite Hq, Hvs. reflexivity.
    + intros [| i] v H; simpl in H.
      * injection H as <-. rewrite Nat.add_0_r. exact Eq.
      * rewrite Nat.add_succ_r. apply (Hnth i v H).
Qed.

Lemma projection_nominals w p sc s st :
  exists vs,
    map nominal (calculateScenarioProjection w p sc s st) = map Fin vs /\
    forall i v, nth_error vs i = Some v ->
      v == groups_value (fun t => returnRate_of w st t s) i
             (groupAssetsByType (default [] (assets p))).
Proof.
  unfold calculateScenarioProjection.
  destruct (nominals_of_years w (groupAssetsByType (default [] (assets p)))
              (default [] (liabilities p)) (inflation st / 100) s 0
              (iterations (horizonYears st))) as (vs & Hvs & Hnth).
  exists vs. split; [exact Hvs |]. intros i v H. apply (Hnth i v H).
Qed.

Lemma nominal_finite w p sc s st (yp : YearPoint) :
  In yp (calculateScenarioProjection w p sc s st) -> exists q, nominal yp = Fin q.
Proof.
  unfold calculateScenarioProjection. intros H. apply in_map_iff in H.
  destruct H as (y & <- & _).
  destruct (yearData_nominal_value w (groupAssetsByType (default [] (assets p)))
              (default [] (liabilities p)) (inflation st / 100) s y) as (q & Hq & _).
  exists q. exact Hq.
Qed.

Lemma final_nominal_finite w p sc s st (i : Q) :
  exists q,
    jor (nominal <$> array_get (calculateScenarioProjection w p sc s st) i) (Fin 0) = Fin q.
Proof.
  unfold array_get.
  destruct (is_integer i && Qleb 0 i); [| exists 0; reflexivity].
  destruct (nth_error _ _) as [yp |] eqn:E; [| exists 0; reflexivity].
  apply nth_error_In in E. destruct (nominal_finite _ _ _ _ _ _ E) as (q & Hq).
  simpl. rewrite Hq. simpl. destruct (negb (Qeq_bool q 0)); eexists; reflexivity.
Qed.

Lemma groups_value_nonneg (r : string -> Q) (n : nat) gs :
  (forall t g, In (t, g) gs -> 0 <= sum_values g /\ 0 <= 1 + r t / 100) ->
  0 <= groups_value r n gs.
Proof.
  induction gs as [| [t g] gs IH]; intros H; simpl; [lra |].
  destruct (H t g (or_introl eq_refl)) as [Hs Hb].
  assert (0 <= (1 + r t / 100) ^ Z.of_nat n) by (apply Qpower_0_le; exact Hb).
  assert (0 <= groups_value r n gs)
    by (apply IH; intros t' g' Hin; apply H; right; exact Hin).
  nra.
Qed.

(** X13: the metrics that [calculateMetrics] derives from the projections
    that the engine computes for the same portfolio: the volatility is a
    finite number and the risk score a whole number from 1 to 10, whatever
    the cached [totalValue] holds; when no asset value is negative and no
    pessimistic return rate is under -100% the maximum drawdown is between 0
    and 100, and it is 0 when no pessimistic return rate is negative. *)
Theorem metrics_of_computed_projections w p sc st :
  (exists v, volatility (calculateMetrics p (computed_projections w p sc st) st) = Fin v) /\
  (exists k, (1 <= k <= 10)%Z /\
     riskScore (calculateMetrics p (computed_projections w p sc st) st) =
     Fin (inject_Z k)) /\
  ((forall a, In a (default [] (assets p)) -> 0 <= or0 (value a)) ->
   (forall a, In a (default [] (assets p)) ->
              -100 <= returnRate_of w st (asset_type a) Pessimistic) ->
   exists d,
     maxDrawdown (calculateMetrics p (computed_projections w p sc st) st) = Fin d /\
     0 <= d <= 100 /\
     ((forall a, In a (default [] (assets p)) ->
                 0 <= returnRate_of w st (asset_type a) Pessimistic) -> d = 0)).
Proof.
  assert (Hvol : exists v,
    volatility (calculateMetrics p (computed_projections w p sc st) st) = Fin v).
  { unfold calculateMetrics. cbn [volatility computed_projections pessimistic optimistic].
    destruct (Qltb 0 (or0 (totalValue p))) eqn:E; [| exists 0; reflexivity].
    apply Qltb_spec in E.
    destruct (final_nominal_finite w p sc Optimistic st (horizonYears st)) as (o & ->).
    destruct (final_nominal_finite w p sc Pessimistic st (horizonYears st)) as (q & ->).
    unfold jsub. cbn [jneg jadd]. rewrite jdiv_Fin by lra. eexists. reflexivity. }
  split; [exact Hvol | split].
  - destruct Hvol as (v & Hv).
    change (riskScore (calculateMetrics p (computed_projections w p sc st) st))
      with (calculateRiskScore p
              (volatility (calculateMetrics p (computed_projections w p sc st) st))).
    rewrite Hv. apply riskScore_clamped. discriminate.
  - intros Hval Hrate.
    change (maxDrawdown (calculateMetrics p (computed_projections w p sc st) st))
      with (calculateMaxDrawdown (calculateScenarioProjection w p sc Pessimistic st)).
    destruct (projection_nominals w p sc Pessimistic st) as (vs & Hvs & Hnth).
    destruct (drawdown_loop vs _ 0 0 Hvs ltac:(lra) ltac:(lra))
      as (m' & d' & Hf & F1 & F2 & F3).
    exists d'. split; [exact (f_equal snd Hf) |]. split; [split; [exact F1 |] |].
    + apply F2; [| lra]. intros v Hin. apply In_nth_error in Hin.
      destruct Hin as (i & Hi). rewrite (Hnth i v Hi).
      apply groups_value_nonneg. intros t g Hg.
      destruct (group_values_nonneg _ t g Hval Hg) as (Hs & a & Ha & <-).
      split; [exact Hs |]. specialize (Hrate a Ha). qlra.
    + intros Hpos. apply F3; [| intros v _ H; lra].
      intros i a b Ha Hb. rewrite (Hnth i a Ha), (Hnth (S i) b Hb).
      apply groups_value_le. intros t g Hg.
      destruct (group_values_nonneg _ t g Hval Hg) as (Hs & x & Hx & <-).
      split; [exact Hs |]. apply Qpower_exp_le; [| lia].
      specialize (Hpos x Hx). qlra.
Qed.

(** ** Diversification *)

Lemma Math_pow_square (p : Q) : exists z, Math_pow (Fin p) (Fin 2) = Fin z /\ z == p * p.
Proof.
  unfold Math_pow. change (Qeq_bool 2 0) with false. cbv iota.
  destruct (Qeq_bool p 0) eqn:E.
  - change (Qleb 0 2) with true. cbv iota. exists 0. split; [reflexivity |].
    apply Qeq_bool_eq in E. rewrite E. ring.
  - change (is_integer 2) with true. cbv iota. change (Qfloor 2) with 2%Z.
    exists (p ^ 2). split; [reflexivity |]. simpl. reflexivity.
Qed.

Lemma hhi_value (ps : list Q) (acc : Q) :
  exists h,
    fold_left (fun sum percentage => (sum +! Math_pow (Fin percentage) (Fin 2))%js)
      ps (Fin acc) = Fin h /\
    h == acc + sum_squares ps.
Proof.
  revert acc. induction ps as [| p ps IH]; intros acc; cbn [fold_left sum_squares].
  - exists acc. split; [reflexivity | lra].
  - destruct (Math_pow_square p) as (z & -> & Hz). cbn [jadd].
    destruct (IH (acc + z)) as (h & Hh & E). exists h. split; [exact Hh |].
    rewrite E, Hz. lra.
Qed.

Lemma sum_squares_bounds (ps : list Q) :
  (forall p, In p ps -> 0 <= p) ->
  0 <= sum_list ps /\ 0 <= sum_squares ps <= sum_list ps * sum_list ps.
Proof.
  induction ps as [| p ps IH]; intros H; simpl; [lra |].
  pose proof (H p (or_introl eq_refl)) as Hp.
  destruct IH as (S0 & Q0 & Q1); [intros q Hq; apply H; right; exact Hq |].
  nra.
Qed.

Lemma round_percent (x : Q) :
  0 <= x <= 100 -> (0 <= Qfloor (x + (1 # 2)) <= 100)%Z.
Proof.
  intros [H0 H1]. split.
  - apply (Qfloor_resp_le 0 (x + (1 # 2))). lra.
  - apply (Qfloor_resp_le (x + (1 # 2)) (100 + (1 # 2))). lra.
Qed.

Lemma distribution_add_groups (d : list (string * Q)) gs (a : Asset) :
  Forall2 (fun e g => fst e = fst g /\ snd e == sum_values (snd g)) d gs ->
  Forall2 (fun e g => fst e = fst g /\ snd e == sum_values (snd g))
    (distribution_add d (asset_type a) (or0 (value a))) (group_push gs a).
Proof.
  induction 1 as [| [k x] [t g] d gs [Hk Hx] Hrest IH]; simpl.
  - constructor; [| constructor]. simpl. split; [reflexivity | lra].
  - simpl in Hk, Hx. subst k. destruct (String.eqb t (asset_type a)).
    + constructor; [| exact Hrest]. simpl. split; [reflexivity |].
      rewrite sum_values_app, Hx. simpl. lra.
    + constructor; [| exact IH]. simpl. split; [reflexivity | exact Hx].
Qed.

Lemma distribution_groups (l : list Asset) (d : list (string * Q)) gs :
  Forall2 (fun e g => fst e = fst g /\ snd e == sum_values (snd g)) d gs ->
  Forall2 (fun e g => fst e = fst g /\ snd e == sum_values (snd g))
    (fold_left (fun d asset => distribution_add d (asset_type asset) (or0 (value asset)))
       l d)
    (fold_left group_push l gs).
Proof.
  revert d gs. induction l as [| a l IH]; intros d gs H; simpl; [exact H |].
  apply IH. apply distribution_add_groups. exact H.
Qed.

Lemma shares_of_groups (T : Q) (d : list (string * Q)) gs :
  0 < T ->
  Forall2 (fun e g => fst e = fst g /\ snd e == sum_values (snd g)) d gs ->
  Forall2 (share_of T)
    (map (fun '(t, x) => (t, if Qltb 0 T then x / T * 100 else 0)) d) gs /\
  sum_list (map snd (map (fun '(t, x) => (t, if Qltb 0 T then x / T * 100 else 0)) d)) ==
  groups_value (fun _ => 0) 0 gs / T * 100.
Proof.
  intros HT. apply Qltb_spec in HT as E. rewrite E. apply Qltb_spec in E.
  induction 1 as [| [k x] [t g] d gs [Hk Hx] _ [IH1 IH2]]; simpl.
  - split; [constructor | field; lra].
  - simpl in Hk, Hx. split.
    + constructor; [| exact IH1]. split; [exact Hk |]. simpl. rewrite Hx. reflexivity.
    + rewrite IH2, Hx. field. lra.
Qed.

Lemma diversification_fields (p : Portfolio) (a : Asset) (l : list Asset) :
  assets p = Some (a :: l) ->
  exists h,
    h == sum_squares (map snd (distribution (calculateDiversification p))) /\
    score (calculateDiversification p) =
      Math_round (Math_max (Fin 0) (Fin 100 -! Fin h /! Fin 100)%js) /\
    concentration (calculateDiversification p) = Math_round (Fin h /! Fin 100)%js /\
    typesCount (calculateDiversification p) =
      Some (length (distribution (calculateDiversification p))) /\
    distribution (calculateDiversification p) =
      map (fun '(t, x) =>
             (t, if Qltb 0 (or0 (totalValue p)) then x / or0 (totalValue p) * 100 else 0))
        (fold_left (fun d asset => distribution_add d (asset_type asset)
                                      (or0 (value asset))) (a :: l) []).
Proof.
  intros Ha. unfold calculateDiversification. rewrite Ha.
  cbn [score concentration typesCount distribution].
  match goal with
  | |- context [fold_left _ (map snd ?d) (Fin 0)] =>
      destruct (hhi_value (map snd d) 0) as (h & Hh & E)
  end.
  exists h. rewrite Hh. split; [rewrite E; lra |]. repeat split; reflexivity.
Qed.

Lemma distribution_shares (p : Portfolio) (a : Asset) (l : list Asset) (T : Q) :
  assets p = Some (a :: l) ->
  totalValue p = Some T -> T == sum_values (a :: l) -> 0 < T ->
  Forall2 (share_of T) (distribution (calculateDiversification p))
    (groupAssetsByType (a :: l)) /\
  sum_list (map snd (distribution (calculateDiversification p))) == 100.
Proof.
  intros Ha HT Hsum Hpos.
  destruct (diversification_fields p a l Ha) as (h & Hh & Hs & Hc & Hn & Hd).
  rewrite HT in Hd. cbn [or0] in Hd.
  assert (HG := distribution_groups (a :: l) [] [] (List.Forall2_nil _)).
  fold (groupAssetsByType (a :: l)) in HG.
  destruct (shares_of_groups T _ _ Hpos HG) as [S1 S2].
  rewrite <- Hd in S1, S2.
  split; [exact S1 |].
  rewrite S2, groups_value_present, <- Hsum. field. lra.
Qed.

(** X14: for a portfolio whose asset types neither name a member of
    [Object.prototype] nor begin with a digit, with a cached [totalValue]
    that is positive and up to date, [calculateDiversification] lists the
    asset types in the order of [groupAssetsByType], each with the share of
    its assets in the total, in percent; the shares add up to 100, and
    [typesCount] is the number of types.  When no asset value is negative
    the score and the concentration are whole numbers from 0 to 100. *)
Theorem calculateDiversification_shares (p : Portfolio) (a : Asset) (l : list Asset) (T : Q) :
  assets p = Some (a :: l) ->
  totalValue p = Some T -> T == sum_values (a :: l) -> 0 < T ->
  Forall (fun x => plain_type (asset_type x) = true) (a :: l) ->
  Forall2 (share_of T) (distribution (calculateDiversification p))
    (groupAssetsByType (a :: l)) /\
  sum_list (map snd (distribution (calculateDiversification p))) == 100 /\
  typesCount (calculateDiversification p) = Some (length (groupAssetsByType (a :: l))) /\
  ((forall x, In x (a :: l) -> 0 <= or0 (value x)) ->
   exists s c,
     score (calculateDiversification p) = Fin (inject_Z s) /\
     concentration (calculateDiversification p) = Fin (inject_Z c) /\
     (0 <= s <= 100)%Z /\ (0 <= c <= 100)%Z).
Proof.
  intros Ha HT Hsum Hpos _.
  destruct (diversification_fields p a l Ha) as (h & Hh & Hs & Hc & Hn & _).
  destruct (distribution_shares p a l T Ha HT Hsum Hpos) as [S1 S100].
  split; [exact S1 |]. split; [exact S100 |]. split.
  - rewrite Hn. f_equal. apply (Forall2_length _ _ _ S1).
  - intros Hval.
    assert (Hp : forall q, In q (map snd (distribution (calculateDiversification p))) ->
                           0 <= q).
    { revert S1. generalize (distribution (calculateDiversification p)) as d.
      assert (Hg : forall t g, In (t, g) (groupAssetsByType (a :: l)) -> 0 <= sum_values g).
      { intros t g Hin. apply (group_values_nonneg _ t g Hval Hin). }
      revert Hg. generalize (groupAssetsByType (a :: l)) as gs.
      intros gs Hg d S1. induction S1 as [| [k x] [t g] d gs [_ Hx] _ IH]; intros q Hq.
      - contradiction.
      - destruct Hq as [<- | Hq].
        + simpl in *. rewrite Hx.
          assert (0 <= sum_values g) by (apply (Hg t g); left; reflexivity).
          apply Qmult_le_0_compat; [| lra]. apply Qle_shift_div_l; [exact Hpos | lra].
        + apply IH; [| exact Hq]. intros t' g' Hin. apply (Hg t' g'). right. exact Hin. }
    destruct (sum_squares_bounds _ Hp) as (_ & B0 & B1).
    rewrite S100, <- Hh in B1. rewrite <- Hh in B0.
    assert (Hx : 0 <= h / 100 <= 100).
    { split; [apply Qle_shift_div_l; lra | apply Qle_shift_div_r; lra]. }
    rewrite Hs, Hc. rewrite jdiv_Fin by lra.
    unfold jsub. cbn [jneg jadd]. unfold Math_max. cbn [ncompare].
    revert Hx. generalize (h / 100) as x. intros x Hx.
    assert (Hsc : exists s,
              Math_round (match 0 ?= 100 + - x with
                          | Lt => Fin (100 + - x) | _ => Fin 0 end) = Fin (inject_Z s) /\
              (0 <= s <= 100)%Z).
    { destruct (0 ?= 100 + - x); cbn [Math_round]; eexists;
        (split; [reflexivity |]); apply round_percent; lra. }
    destruct Hsc as (sc & -> & Hsc).
    exists sc, (Qfloor (x + (1 # 2))). split; [reflexivity |].
    split; [reflexivity |]. split; [exact Hsc | apply round_percent; exact Hx].
Qed.

(** X15: a portfolio whose assets are all of one type, which does not name
    a member of [Object.prototype], with a positive [totalValue] that is up
    to date, has the diversification score 0 and the concentration 100. *)
Theorem calculateDiversification_single_type
    (p : Portfolio) (a : Asset) (l : list Asset) (T : Q) :
  assets p = Some (a :: l) ->
  totalValue p = Some T -> T == sum_values (a :: l) -> 0 < T ->
  Forall (fun x => asset_type x = asset_type a) l ->
  inherited (asset_type a) = false ->
  score (calculateDiversification p) = Fin 0 /\
  concentration (calculateDiversification p) = Fin 100 /\
  typesCount (calculateDiversification p) = Some 1%nat.
Proof.
  intros Ha HT Hsum Hpos Hty _.
  destruct (diversification_fields p a l Ha) as (h & Hh & Hs & Hc & Hn & _).
  destruct (distribution_shares p a l T Ha HT Hsum Hpos) as [S1 _].
  assert (Hg : groupAssetsByType (a :: l) = [(asset_type a, a :: l)]).
  { apply (groupAssetsByType_single (asset_type a) (a :: l)).
    constructor; [reflexivity | exact Hty]. }
  rewrite Hg in S1. inversion S1 as [| e g d gs [_ He] Hnil Ed Eg]; subst.
  inversion Hnil; subst.
  match goal with H : _ :: [] = distribution _ |- _ => rewrite <- H in Hh, Hn end.
  cbn [map sum_squares snd] in Hh. cbn [snd] in He.
  assert (E100 : h / 100 == 100).
  { rewrite Hh, He, <- Hsum. field. lra. }
  rewrite Hs, Hc, Hn. rewrite jdiv_Fin by lra.
  unfold jsub. cbn [jneg jadd]. unfold Math_max. cbn [ncompare Math_round].
  assert (E0 : (0 ?= 100 + - (h / 100)) = Eq) by (apply Qeq_alt; rewrite E100; reflexivity).
  rewrite E0. split; [reflexivity |]. split; [| reflexivity].
  rewrite (Qfloor_comp _ (100 + (1 # 2))) by (rewrite E100; reflexivity).
  reflexivity.
Qed.

(** X16: when the cached [totalValue] is missing, zero or negative while
    the portfolio has assets, every share is 0, and
    [calculateDiversification] reports the score 100 and the concentration
    0, whatever the assets are. *)
Theorem calculateDiversification_without_total
    (p : Portfolio) (a : Asset) (l : list Asset) :
  assets p = Some (a :: l) ->
  or0 (totalValue p) <= 0 ->
  (forall e, In e (distribution (calculateDiversification p)) -> snd e = 0) /\
  score (calculateDiversification p) = Fin 100 /\
  concentration (calculateDiversification p) = Fin 0.
Proof.
  intros Ha HT.
  destruct (diversification_fields p a l Ha) as (h & Hh & Hs & Hc & _ & Hd).
  assert (E : Qltb 0 (or0 (totalValue p)) = false) by (apply Qltb_false; exact HT).
  rewrite E in Hd.
  assert (Hz : forall e, In e (distribution (calculateDiversification p)) -> snd e = 0).
  { rewrite Hd. intros e He. apply in_map_iff in He.
    destruct He as ([t x] & <- & _). reflexivity. }
  assert (H0 : h == 0).
  { rewrite Hh. revert Hz. generalize (distribution (calculateDiversification p)) as d.
    induction d as [| e d IH]; intros Hz; simpl; [reflexivity |].
    rewrite (Hz e (or_introl eq_refl)), IH; [reflexivity |].
    intros e' He'. apply Hz. right. exact He'. }
  split; [exact Hz |].
  rewrite Hs, Hc. rewrite jdiv_Fin by lra.
  unfold jsub. cbn [jneg jadd]. unfold Math_max. cbn [ncompare Math_round].
  assert (E0 : (0 ?= 100 + - (h / 100)) = Lt) by (apply Qlt_alt; rewrite H0; reflexivity).
  rewrite E0. cbn [Math_round]. split.
  - rewrite (Qfloor_comp _ (100 + (1 # 2))) by (rewrite H0; reflexivity). reflexivity.
  - rewrite (Qfloor_comp _ (1 # 2)) by (rewrite H0; reflexivity). reflexivity.
Qed.

(** ** The cache *)

Lemma cache_size_step w engine p sc st :
  getCacheSize (snd (calculateProjections w engine p sc st)) =
  match cache engine !! getCacheKey p sc st with
  | Some _ => getCacheSize engine
  | None => S (getCacheSize engine)
  end.
Proof.
  unfold calculateProjections, getCacheSize.
  destruct (cache engine !! getCacheKey p sc st) eqn:E; simpl; [reflexivity |].
  apply map_size_insert_None. exact E.
Qed.

Lemma store_step w engine p sc st (i : nat) (o : Projections) :
  nth_error (store engine) i = Some o ->
  nth_error (store (snd (calculateProjections w engine p sc st))) i = Some o.
Proof.
  intros H. unfold calculateProjections.
  destruct (cache engine !! getCacheKey p sc st); simpl; [exact H |].
  rewrite nth_error_app1; [exact H |]. apply nth_error_Some. congruence.
Qed.

(** X17: a call of [calculateProjections] that finds its key in the cache
    leaves the engine as it is; one that does not adds exactly one entry.
    So after any sequence of calls the cache has at least the entries it
    had and at most one more for each call, and every projections object
    handed out before is still the same object. *)
Theorem cache_grows_by_misses w engine p sc st calls :
  (forall r, cache engine !! getCacheKey p sc st = Some r ->
             calculateProjections w engine p sc st = (r, engine)) /\
  (cache engine !! getCacheKey p sc st = None ->
   getCacheSize (snd (calculateProjections w engine p sc st)) =
   S (getCacheSize engine)) /\
  (getCacheSize engine <= getCacheSize (run_calls calls engine)
                       <= getCacheSize engine + length calls)%nat /\
  (forall i o, nth_error (store engine) i = Some o ->
               nth_error (store (run_calls calls engine)) i = Some o).
Proof.
  split; [| split; [| split]].
  - intros r H. unfold calculateProjections. rewrite H. reflexivity.
  - intros H. rewrite cache_size_step, H. reflexivity.
  - revert engine. induction calls as [| [[[w' p'] sc'] st'] calls IH]; intros engine.
    + simpl. lia.
    + cbn [run_calls fold_left length].
      specialize (IH (snd (calculateProjections w' engine p' sc' st'))).
      unfold run_calls in IH. rewrite cache_size_step in IH.
      destruct (cache engine !! getCacheKey p' sc' st'); lia.
  - revert engine. induction calls as [| [[[w' p'] sc'] st'] calls IH]; intros engine i o H.
    + exact H.
    + cbn [run_calls fold_left]. apply IH. apply store_step. exact H.
Qed.

(** X18: after [clearCache] the cache is empty and the next call of
    [calculateProjections] computes the projections anew: it returns a new
    object, different from every object that the cache held before, and the
    cache holds that one entry.  The objects handed out before are not
    touched. *)
Theorem clearCache_forces_recomputation w engine p sc st :
  engine_wf engine ->
  getCacheSize (clearCache engine) = 0%nat /\
  (forall k r, cache engine !! k = Some r ->
               fst (calculateProjections w (clearCache engine) p sc st) <> r) /\
  nth_error (store (snd (calculateProjections w (clearCache engine) p sc st)))
    (fst (calculateProjections w (clearCache engine) p sc st)) =
  Some (computed_projections w p sc st) /\
  getCacheSize (snd (calculateProjections w (clearCache engine) p sc st)) = 1%nat /\
  (forall i o, nth_error (store engine) i = Some o ->
     nth_error (store (snd (calculateProjections w (clearCache engine) p sc st))) i =
     Some o).
Proof.
  intros Hwf.
  assert (Hmiss : cache (clearCache engine) !! getCacheKey p sc st = None)
    by apply lookup_empty.
  assert (H0 : getCacheSize (clearCache engine) = 0%nat) by apply map_size_empty.
  split; [exact H0 |]. split; [| split; [| split]].
  - intros k r Hk. apply Hwf in Hk.
    unfold calculateProjections. rewrite Hmiss. simpl. lia.
  - apply calculateProjections_miss. exact Hmiss.
  - rewrite cache_size_step, Hmiss, H0. reflexivity.
  - intros i o H. apply store_step. exact H.
Qed.

Lemma liabilities_at_value w p sc s st (y : nat) :
  inject_Z (Z.of_nat y) <= horizonYears st ->
  liabilities_at (calculateScenarioProjection w p sc s st) y =
  calculateLiabilitiesValue w (Some (default [] (liabilities p))) (inject_Z (Z.of_nat y)).
Proof.
  intros Hy. unfold liabilities_at.
  destruct (nominal_value w p sc s st y Hy) as (yp & -> & _ & _ & _ & HL & _).
  exact HL.
Qed.

Lemma liabilities_without_registry w (ls : list Liability) (y : Q) :
  liabilityClasses w = false ->
  (calculateLiabilitiesValue w (Some ls) y =j Fin (sum_balances ls))%js.
Proof.
  intros Hw. destruct ls as [| l ls]; [simpl; reflexivity |].
  unfold calculateLiabilitiesValue.
  eapply num_eq_trans; [apply (fold_balances w y (l :: ls) 0 Hw) |].
  simpl. lra.
Qed.

(** X19: the cache key leaves out the [currentBalance] of the liabilities,
    which is all that the projections read of them without the liability
    registry.  So after a call for one portfolio, a call for a portfolio
    that differs from it only in the current balances gets the first one's
    projections, whose liabilities are the first portfolio's balances and
    not its own. *)
Theorem cache_serves_other_balances w engine p1 p2 sc st (y : nat) :
  liabilityClasses w = false ->
  cache engine !! getCacheKey p1 sc st = None ->
  structurally_identical p1 sc st p2 sc st ->
  ~ sum_balances (default [] (liabilities p1)) ==
    sum_balances (default [] (liabilities p2)) ->
  inject_Z (Z.of_nat y) <= horizonYears st ->
  exists served,
    nth_error
      (store (snd (calculateProjections w
                     (snd (calculateProjections w engine p1 sc st)) p2 sc st)))
      (fst (calculateProjections w
              (snd (calculateProjections w engine p1 sc st)) p2 sc st)) = Some served /\
    (liabilities_at (base served) y =j
     Fin (sum_balances (default [] (liabilities p1))))%js /\
    (liabilities_at (base (computed_projections w p2 sc st)) y =j
     Fin (sum_balances (default [] (liabilities p2))))%js /\
    ~ (liabilities_at (base served) y =j
       liabilities_at (base (computed_projections w p2 sc st)) y)%js.
Proof.
  intros Hw Hmiss Hid Hne Hy.
  pose proof (calculateProjections_cached w engine p1 sc st) as Hc.
  pose proof (calculateProjections_miss w engine p1 sc st Hmiss) as Hs.
  assert (Hsecond : calculateProjections w (snd (calculateProjections w engine p1 sc st))
                      p2 sc st =
                    (fst (calculateProjections w engine p1 sc st),
                     snd (calculateProjections w engine p1 sc st))).
  { unfold calculateProjections at 1.
    rewrite <- (getCacheKey_identical _ _ _ _ _ _ Hid), Hc. reflexivity. }
  rewrite Hsecond. cbn [fst snd].
  exists (computed_projections w p1 sc st). split; [exact Hs |].
  cbn [base computed_projections]. rewrite !liabilities_at_value by exact Hy.
  pose proof (liabilities_without_registry w (default [] (liabilities p1))
                (inject_Z (Z.of_nat y)) Hw) as H1.
  pose proof (liabilities_without_registry w (default [] (liabilities p2))
                (inject_Z (Z.of_nat y)) Hw) as H2.
  split; [exact H1 |]. split; [exact H2 |].
  destruct (num_eq_Fin_inv _ _ H1) as (v1 & -> & E1).
  destruct (num_eq_Fin_inv _ _ H2) as (v2 & -> & E2).
  simpl. intros E. apply Hne. rewrite <- E1, <- E2. exact E.
Qed.

(** ** Metrics with liabilities *)

Lemma liabilities_now_registry w (ls : list Liability) :
  liabilityClasses w = true ->
  exists L, calculateLiabilitiesValue w (Some ls) 0 = Fin L /\ L == sum_principals ls.
Proof.
  intros Hw. apply num_eq_Fin_inv. eapply num_eq_trans.
  - apply liabilities_value; [exact Hw |]. apply List.Forall_forall. intros l _.
    exists (principal l). split; [apply remaining_balance_start; lra |]. reflexivity.
  - simpl. apply sum_balance_values_start. lra.
Qed.

Lemma liabilities_now_without_registry w (ls : list Liability) :
  liabilityClasses w = false ->
  exists L, calculateLiabilitiesValue w (Some ls) 0 = Fin L /\ L == sum_balances ls.
Proof.
  intros Hw. apply num_eq_Fin_inv. apply liabilities_without_registry. exact Hw.
Qed.

(** X20: [calculateMetricsWithLiabilities] takes as the current debt the
    sum of the principals when the liability registry is loaded and the sum
    of the current balances when it is not.  With the current debt [L] and
    the cached [totalValue] [A], the current net worth is [A - L]; when that
    is not positive the growth rate and the volatility are 0; the
    debt-to-assets ratio is [L / A * 100] when [A] is positive and 0
    otherwise. *)
Theorem calculateMetricsWithLiabilities_current w p projections st :
  exists L,
    currentLiabilities (calculateMetricsWithLiabilities w p projections st) = Fin L /\
    L == (if liabilityClasses w then sum_principals (default [] (liabilities p))
          else sum_balances (default [] (liabilities p))) /\
    (currentNetWorth (calculateMetricsWithLiabilities w p projections st) =j
     Fin (or0 (totalValue p) - L))%js /\
    (or0 (totalValue p) <= L ->
     nw_growthRate (calculateMetricsWithLiabilities w p projections st) = Fin 0 /\
     nw_volatility (calculateMetricsWithLiabilities w p projections st) = Fin 0) /\
    (0 < or0 (totalValue p) ->
     debtToAssetsRatio (calculateMetricsWithLiabilities w p projections st) =
     Fin (L / or0 (totalValue p) * 100)) /\
    (or0 (totalValue p) <= 0 ->
     debtToAssetsRatio (calculateMetricsWithLiabilities w p projections st) = Fin 0).
Proof.
  assert (HL : exists L,
    calculateLiabilitiesValue w (Some (default [] (liabilities p))) 0 = Fin L /\
    L == (if liabilityClasses w then sum_principals (default [] (liabilities p))
          else sum_balances (default [] (liabilities p)))).
  { destruct (liabilityClasses w) eqn:Hw.
    - apply liabilities_now_registry. exact Hw.
    - apply liabilities_now_without_registry. exact Hw. }
  destruct HL as (L & HL & EL). exists L.
  unfold calculateMetricsWithLiabilities.
  cbn [currentLiabilities currentNetWorth nw_growthRate nw_volatility debtToAssetsRatio].
  rewrite HL. split; [reflexivity |]. split; [exact EL |].
  unfold jsub. cbn [jneg jadd]. split; [simpl; lra |]. split; [| split].
  - intros Hle.
    assert (E : jgt (Fin (or0 (totalValue p) + - L)) (Fin 0) = false).
    { apply Qltb_false. lra. }
    rewrite E. split; reflexivity.
  - intros Hpos. apply Qltb_spec in Hpos as E. rewrite E.
    rewrite jdiv_Fin by lra. reflexivity.
  - intros Hle. apply Qltb_false in Hle. rewrite Hle. reflexivity.
Qed.

(** ** Validation of the loan parameters *)

Lemma positive_check (v : option Q) :
  falsy v || le_opt v 0 = false <-> exists x, v = Some x /\ 0 < x.
Proof.
  destruct v as [x |]; simpl.
  - split.
    + intros H. apply orb_false_elim in H. destruct H as [_ H].
      apply Qleb_false in H. exists x. split; [reflexivity | exact H].
    + intros (y & [= <-] & Hy). rewrite Qeq_bool_false by lra.
      apply Qleb_false. exact Hy.
  - split; [discriminate | intros (y & Hy & _); discriminate].
Qed.

Lemma bounded_check (v : option Q) (c : Q) :
  falsy v || le_opt v 0 || gt_opt v c = false <-> exists x, v = Some x /\ 0 < x <= c.
Proof.
  split.
  - intros H. apply orb_false_elim in H. destruct H as [H1 H2].
    apply positive_check in H1. destruct H1 as (x & -> & Hx).
    simpl in H2. apply Qltb_false in H2. exists x. split; [reflexivity | lra].
  - intros (x & -> & H0 & Hc).
    assert (E : falsy (Some x) || le_opt (Some x) 0 = false)
      by (apply positive_check; exists x; split; [reflexivity | exact H0]).
    rewrite E. simpl. apply Qltb_false. exact Hc.
Qed.

Lemma validation_errors (b1 b2 b3 : bool) :
  (Nat.eqb (length ((if b1 then [InvalidPrincipal] else []) ++
                    (if b2 then [InvalidRate] else []) ++
                    (if b3 then [InvalidTerm] else []))) 0 = true <->
   b1 = false /\ b2 = false /\ b3 = false) /\
  (In InvalidPrincipal ((if b1 then [InvalidPrincipal] else []) ++
                        (if b2 then [InvalidRate] else []) ++
                        (if b3 then [InvalidTerm] else [])) <-> b1 = true) /\
  (In InvalidRate ((if b1 then [InvalidPrincipal] else []) ++
                   (if b2 then [InvalidRate] else []) ++
                   (if b3 then [InvalidTerm] else [])) <-> b2 = true) /\
  (In InvalidTerm ((if b1 then [InvalidPrincipal] else []) ++
                   (if b2 then [InvalidRate] else []) ++
                   (if b3 then [InvalidTerm] else [])) <-> b3 = true).
Proof.
  destruct b1, b2, b3; cbn [app length Nat.eqb In];
    (split; [| split; [| split]]); split;
    try (intros [_ [_ H]]; discriminate H);
    try (intros [_ [H _]]; discriminate H);
    try (intros [H _]; discriminate H);
    try (intros H; discriminate H);
    try (intros _; reflexivity);
    try (intros _; repeat split; reflexivity);
    try (intros _; left; reflexivity);
    try (intros _; right; left; reflexivity);
    try (intros _; right; right; left; reflexivity);
    intros H;
    repeat match goal with
           | H : _ \/ _ |- _ => destruct H
           | H : False |- _ => contradiction
           | H : _ = _ |- _ => discriminate H
           end.
Qed.

Lemma rejected_iff (b : bool) (P : Prop) : (b = false <-> P) -> (b = true <-> ~ P).
Proof.
  intros [H1 H2]. split.
  - intros Hb HP. apply H2 in HP. congruence.
  - intros HP. destruct b; [reflexivity |]. exfalso. apply HP. apply H1. reflexivity.
Qed.

Lemma validation_errors_list (principal rate termYears : option Q) :
  errors (validateLoanParameters principal rate termYears) =
    (if falsy principal || le_opt principal 0 then [InvalidPrincipal] else []) ++
    (if falsy rate || le_opt rate 0 || gt_opt rate 100 then [InvalidRate] else []) ++
    (if falsy termYears || le_opt termYears 0 || gt_opt termYears 50
     then [InvalidTerm] else []).
Proof.
  unfold validateLoanParameters. cbn [errors].
  destruct (falsy principal || le_opt principal 0);
    destruct (falsy rate || le_opt rate 0 || gt_opt rate 100);
    destruct (falsy termYears || le_opt termYears 0 || gt_opt termYears 50);
    reflexivity.
Qed.

Lemma validation_accepts (principal rate termYears : option Q) :
  isValid (validateLoanParameters principal rate termYears) = true <->
  (exists P, principal = Some P /\ 0 < P) /\
  (exists r, rate = Some r /\ 0 < r <= 100) /\
  (exists n, termYears = Some n /\ 0 < n <= 50).
Proof.
  change (isValid (validateLoanParameters principal rate termYears))
    with (Nat.eqb (length (errors (validateLoanParameters principal rate termYears))) 0).
  rewrite validation_errors_list.
  rewrite (proj1 (validation_errors _ _ _)).
  rewrite positive_check, !bounded_check. reflexivity.
Qed.

(** X21: [validateLoanParameters] accepts exactly a principal above 0, a
    rate above 0 and at most 100, and a term above 0 and at most 50, all
    three present; it reports the principal, the rate and the term in this
    order, each at most once and exactly when it is out of these bounds. *)
Theorem validateLoanParameters_spec (principal rate termYears : option Q) :
  (isValid (validateLoanParameters principal rate termYears) = true <->
   (exists P, principal = Some P /\ 0 < P) /\
   (exists r, rate = Some r /\ 0 < r <= 100) /\
   (exists n, termYears = Some n /\ 0 < n <= 50)) /\
  errors (validateLoanParameters principal rate termYears) =
    (if falsy principal || le_opt principal 0 then [InvalidPrincipal] else []) ++
    (if falsy rate || le_opt rate 0 || gt_opt rate 100 then [InvalidRate] else []) ++
    (if falsy termYears || le_opt termYears 0 || gt_opt termYears 50
     then [InvalidTerm] else []) /\
  (In InvalidPrincipal (errors (validateLoanParameters principal rate termYears)) <->
   ~ exists P, principal = Some P /\ 0 < P) /\
  (In InvalidRate (errors (validateLoanParameters principal rate termYears)) <->
   ~ exists r, rate = Some r /\ 0 < r <= 100) /\
  (In InvalidTerm (errors (validateLoanParameters principal rate termYears)) <->
   ~ exists n, termYears = Some n /\ 0 < n <= 50).
Proof.
  split; [apply validation_accepts |].
  split; [apply validation_errors_list |].
  rewrite validation_errors_list.
  destruct (validation_errors (falsy principal || le_opt principal 0)
              (falsy rate || le_opt rate 0 || gt_opt rate 100)
              (falsy termYears || le_opt termYears 0 || gt_opt termYears 50))
    as (_ & E1 & E2 & E3).
  rewrite E1, E2, E3.
  split; [| split]; apply rejected_iff;
    [apply positive_check | apply bounded_check | apply bounded_check].
Qed.

(** X22: for parameters that [validateLoanParameters] accepts,
    [calculateMonthlyPayment] is the rounded annuity payment, a finite
    amount that is at least the rounded interest of one month on the
    principal. *)
Theorem validated_loan_payment (P r n : Q) :
  pow_monotone ->
  isValid (validateLoanParameters (Some P) (Some r) (Some n)) = true ->
  exists m,
    calculateMonthlyPayment P r n = Fin m /\
    m == spec_monthly_payment P r n /\
    round2 (P * (r / 100 / 12)) <= m.
Proof.
  intros Hpow Hv.
  apply validation_accepts in Hv.
  destruct Hv as ((? & [= <-] & HP) & (? & [= <-] & Hr & _) & (? & [= <-] & Hn & _)).
  assert (HA : 1 < 1 + r / 100 / 12) by qlra.
  assert (Hpw : 1 < power (1 + r / 100 / 12) (n * 12))
    by (apply (proj2 Hpow); [exact HA | lra]).
  destruct (num_eq_Fin_inv _ _
    (calculateMonthlyPayment_formula P r n HP Hr Hn ltac:(lra))) as (m & Hm & Em).
  exists m. split; [exact Hm |]. split; [exact Em |].
  rewrite Em. unfold spec_monthly_payment. apply round2_mono.
  set (rm := r / 100 / 12) in *. set (pw := power (1 + rm) (n * 12)) in *.
  assert (Hrm : 0 < rm) by lra.
  apply Qle_shift_div_l; [lra |]. nra.
Qed.

(** ** The total payments of a loan *)



(** ** The payment schedule *)

Lemma schedule_balance_shift (P r M : Q) (k : nat) :
  schedule_balance (P - (M - P * r)) r M k = schedule_balance P r M (S k).
Proof.
  induction k as [| k IH]; [reflexivity |].
  change (schedule_balance (P - (M - P * r)) r M (S k))
    with (schedule_balance (P - (M - P * r)) r M k -
          (M - schedule_balance (P - (M - P * r)) r M k * r)).
  rewrite IH. reflexivity.
Qed.


Lemma max0_round (x : Q) :
  exists v, (Math_round (Math_max (Fin 0) (Fin x) *! Fin 100) /! Fin 100)%js = Fin v /\
            v == round2 (Qmax 0 x) /\ 0 <= v.
Proof.
  assert (H0 : 0 <= round2 (Qmax 0 x)).
  { apply Qle_trans with (round2 0); [vm_compute; discriminate |].
    apply round2_mono. apply Q.le_max_l. }
  unfold Math_max. cbn [ncompare]. destruct (0 ?= x) eqn:E.
  - apply Qeq_alt in E. rewrite round2_eq. exists (round2 0).
    assert (E' : round2 0 == round2 (Qmax 0 x)).
    { apply round2_comp. rewrite Q.max_l; [reflexivity | lra]. }
    split; [reflexivity |]. split; [exact E' | rewrite E'; exact H0].
  - apply Qlt_alt in E. rewrite round2_eq. exists (round2 x).
    assert (E' : round2 x == round2 (Qmax 0 x)).
    { apply round2_comp. rewrite Q.max_r; [reflexivity | lra]. }
    split; [reflexivity |]. split; [exact E' | rewrite E'; exact H0].
  - apply Qgt_alt in E. rewrite round2_eq. exists (round2 0).
    assert (E' : round2 0 == round2 (Qmax 0 x)).
    { apply round2_comp. rewrite Q.max_l; [reflexivity | lra]. }
    split; [reflexivity |]. split; [exact E' | rewrite E'; exact H0].
Qed.

Lemma schedule_loop_nth (r M : Q) (count m : nat) (b : Q) (k : nat) :
  (k < count)%nat ->
  exists row,
    nth_error (schedule_loop r M count m b) k = Some row /\
    month row = (m + k)%nat /\
    payment row = Fin (round2 M) /\
    interest row = Fin (round2 (schedule_balance b r M k * r)) /\
    row_principal row = Fin (round2 (M - schedule_balance b r M k * r)) /\
    exists v, remainingBalance row = Fin v /\
              v == round2 (Qmax 0 (schedule_balance b r M (S k))) /\ 0 <= v.
Proof.
  revert m b k. induction count as [| count IH]; intros m b k Hk; [lia |].
  destruct k as [| k].
  - cbn [schedule_loop nth_error]. eexists. split; [reflexivity |].
    cbn [month payment interest row_principal remainingBalance schedule_balance].
    split; [lia |]. split; [reflexivity |]. split; [reflexivity |].
    split; [reflexivity |]. apply max0_round.
  - cbn [schedule_loop nth_error].
    destruct (IH (S m) (b - (M - b * r)) k ltac:(lia))
      as (row & Hn & Hm & Hp & Hi & Hpr & v & Hv & Ev & V0).
    exists row. split; [exact Hn |]. rewrite !schedule_balance_shift in *.
    split; [lia |]. split; [exact Hp |]. split; [exact Hi |]. split; [exact Hpr |].
    exists v. split; [exact Hv |]. split; [exact Ev | exact V0].
Qed.


Lemma schedule_balance_closed (P r M : Q) (k : nat) :
  0 < r ->
  schedule_balance P r M k ==
  P * (1 + r) ^ Z.of_nat k - M * ((1 + r) ^ Z.of_nat k - 1) / r.
Proof.
  intros Hr. induction k as [| k IH].
  - simpl. field. lra.
  - change (schedule_balance P r M (S k))
      with (schedule_balance P r M k - (M - schedule_balance P r M k * r)).
    rewrite IH, Nat2Z.inj_succ, <- Z.add_1_r.
    rewrite Qpower_plus by lra. rewrite Qpower_1_r. field. lra.
Qed.

(** With the annuity payment the carried balance is the closed form that
    [calculateRemainingBalance] evaluates. *)
Lemma annuity_balance (P r M : Q) (n k : nat) :
  0 < r -> (0 < n)%nat ->
  M == P * (r * (1 + r) ^ Z.of_nat n) / ((1 + r) ^ Z.of_nat n - 1) ->
  schedule_balance P r M k ==
  P * ((1 + r) ^ Z.of_nat n - (1 + r) ^ Z.of_nat k) / ((1 + r) ^ Z.of_nat n - 1).
Proof.
  intros Hr Hn HM. rewrite (schedule_balance_closed P r M k Hr), HM.
  assert (H1 : 1 < (1 + r) ^ Z.of_nat n) by (apply Qpower_1_lt; [lra | lia]).
  field. split; lra.
Qed.

(** X25: for a loan with a positive principal and rate and a term of a
    whole number of months, whose [monthlyPayment] is the annuity payment
    before rounding, the payment schedule and [calculateRemainingBalance]
    agree: the row of the last month of year [y] has the remaining balance
    that [calculateRemainingBalance] gives after [y] years. *)
Theorem schedule_agrees_with_balance (l : Liability) (months : Q) (nT y : nat) :
  0 < principal l -> 0 < rate l ->
  termYears l * 12 == inject_Z (Z.of_nat nT) ->
  monthlyPayment l ==
    principal l * (rate l / 100 / 12 * (1 + rate l / 100 / 12) ^ Z.of_nat nT) /
    ((1 + rate l / 100 / 12) ^ Z.of_nat nT - 1) ->
  (0 < y)%nat -> inject_Z (Z.of_nat y) < termYears l ->
  inject_Z (Z.of_nat (12 * y)) <= months ->
  exists row,
    nth_error (getPaymentSchedule l (Some months)) (12 * y - 1) = Some row /\
    month row = (12 * y)%nat /\
    (remainingBalance row =j calculateRemainingBalance l (inject_Z (Z.of_nat y)))%js.
Proof.
  intros HP Hr HT HM Hy HyT Hmonths.
  assert (Hy0 : 0 < inject_Z (Z.of_nat y)) by (rewrite <- (Zlt_Qlt 0); lia).
  assert (Hmade : inject_Z (Z.of_nat y) * 12 == inject_Z (Z.of_nat (12 * y))).
  { rewrite Nat2Z.inj_mul, inject_Z_mult. change (inject_Z (Z.of_nat 12)) with 12. ring. }
  assert (HyT' : (12 * y < nT)%nat).
  { apply Nat2Z.inj_lt. rewrite Zlt_Qlt, <- HT, <- Hmade. lra. }
  assert (Hcount : (12 * y - 1 <
    Z.to_nat (Qfloor (Qmin (default 12%Q (Some months)) (termYears l * 12))))%nat).
  { assert (Hmin : inject_Z (Z.of_nat (12 * y)) <=
                   Qmin (default 12%Q (Some months)) (termYears l * 12)).
    { apply Q.min_glb; [exact Hmonths |]. rewrite HT, <- Zle_Qle. lia. }
    apply Qfloor_resp_le in Hmin. rewrite Qfloor_Z in Hmin. lia. }
  destruct (schedule_loop_nth (rate l / 100 / 12) (monthlyPayment l) _ 1
              (principal l) (12 * y - 1) Hcount)
    as (row & Hn & Hm & _ & _ & _ & v & Hv & Ev & _).
  exists row. split; [exact Hn |]. split; [lia |].
  replace (S (12 * y - 1)) with (12 * y)%nat in Ev by lia.
  destruct (balance_whole_months l (inject_Z (Z.of_nat y)) (Z.of_nat nT)
              (Z.of_nat (12 * y)) Hy0 HyT Hr ltac:(lia) HT Hmade) as (b & Hb & Eb).
  rewrite Hv, Hb. cbn [num_eq]. rewrite Ev, Eb.
  assert (Hrm : 0 < rate l / 100 / 12) by qlra.
  pose proof (annuity_balance _ _ _ nT (12 * y) Hrm ltac:(lia) HM) as Es.
  set (A := 1 + rate l / 100 / 12) in *.
  set (raw := principal l * (A ^ Z.of_nat nT - A ^ Z.of_nat (12 * y)) /
              (A ^ Z.of_nat nT - 1)) in *.
  assert (HA : 1 < A) by (unfold A; lra).
  assert (H1 : 1 < A ^ Z.of_nat nT) by (apply Qpower_1_lt; [exact HA | lia]).
  assert (H2 : A ^ Z.of_nat (12 * y) <= A ^ Z.of_nat nT).
  { apply Qpower_exp_le; [lra | lia]. }
  assert (Hraw : 0 <= raw).
  { unfold raw. apply Qle_shift_div_l; [lra | nra]. }
  assert (Hround : 0 <= round2 raw).
  { apply Qle_trans with (round2 0); [vm_compute; discriminate |].
    apply round2_mono. exact Hraw. }
  rewrite (Q.max_r 0 (round2 raw)) by exact Hround.
  apply round2_comp. rewrite Q.max_r by (rewrite Es; exact Hraw). exact Es.
Qed.

(** ** The caller's refresh of the totals *)

Lemma fold_current_balances (l : list Liability) (acc : Q) :
  fold_left (fun sum liability => sum + or0 (currentBalance liability)) l acc ==
  acc + sum_balances l.
Proof.
  revert acc. induction l as [| x l IH]; intros acc; simpl.
  - lra.
  - rewrite IH. lra.
Qed.

Lemma updatePortfolioValue_fields (p p' : Portfolio) :
  updatePortfolioValue p = Returned p' ->
  exists a l,
    assets p = Some a /\ liabilities p = Some l /\
    p' = {| assets := Some a; liabilities := Some l;
            totalValue :=
              Some (fold_left (fun sum asset => sum + or0 (value asset)) a 0);
            totalLiabilities :=
              Some (fold_left (fun sum liability => sum + or0 (currentBalance liability))
                      l 0);
            netWorth :=
              Some (fold_left (fun sum asset => sum + or0 (value asset)) a 0 -
                    fold_left (fun sum liability => sum + or0 (currentBalance liability))
                      l 0) |}.
Proof.
  unfold updatePortfolioValue.
  destruct (assets p) as [a |]; [| discriminate].
  destruct (liabilities p) as [l |]; [| discriminate].
  intros [= <-]. exists a, l. repeat split.
Qed.

(** X26: [updatePortfolioValue] throws exactly when the asset list or the
    liability list is missing; when only the liability list is missing it
    has by then refreshed [totalValue].  Otherwise it keeps the two lists
    and sets [totalValue] to the sum of the asset values,
    [totalLiabilities] to the sum of the current balances and [netWorth] to
    their difference, a missing value or balance counting as 0.  A second
    refresh changes nothing, and the refresh changes neither the cache key
    nor the projections of the portfolio. *)
Theorem updatePortfolioValue_refresh (p : Portfolio) :
  ((exists state, updatePortfolioValue p = Threw state) <->
   assets p = None \/ liabilities p = None) /\
  (forall state, updatePortfolioValue p = Threw state ->
     assets state = assets p /\ liabilities state = liabilities p /\
     totalLiabilities state = totalLiabilities p /\ netWorth state = netWorth p /\
     (assets p = None -> totalValue state = totalValue p) /\
     (assets p <> None ->
      same_value (totalValue state) (Some (sum_values (default [] (assets p)))))) /\
  (forall p', updatePortfolioValue p = Returned p' ->
     assets p' = assets p /\ liabilities p' = liabilities p /\
     same_value (totalValue p') (Some (sum_values (default [] (assets p)))) /\
     same_value (totalLiabilities p')
       (Some (sum_balances (default [] (liabilities p)))) /\
     same_value (netWorth p')
       (Some (sum_values (default [] (assets p)) -
              sum_balances (default [] (liabilities p)))) /\
     updatePortfolioValue p' = Returned p' /\
     (forall sc st, getCacheKey p' sc st = getCacheKey p sc st) /\
     (forall w sc s st, calculateScenarioProjection w p' sc s st =
                        calculateScenarioProjection w p sc s st)).
Proof.
  split; [| split].
  - unfold updatePortfolioValue.
    destruct (assets p) as [a |], (liabilities p) as [l |]; split; intros H;
      try (destruct H as [state H]; discriminate H);
      try (destruct H as [H | H]; discriminate H);
      try (eexists; reflexivity); try (right; reflexivity); try (left; reflexivity).
  - intros state. unfold updatePortfolioValue.
    destruct (assets p) as [a |] eqn:Ha.
    + destruct (liabilities p) as [l |] eqn:Hl; [discriminate |].
      intros [= <-]. cbn [assets liabilities totalValue totalLiabilities netWorth].
      repeat split; try reflexivity; try discriminate.
      intros _. cbn [default from_option id same_value].
      rewrite fold_values. lra.
    + intros [= <-]. rewrite Ha. repeat split; try reflexivity.
      intros H. contradiction H. reflexivity.
  - intros p' H. destruct (updatePortfolioValue_fields p p' H) as (a & l & Ha & Hl & ->).
    rewrite Ha, Hl. cbn [assets liabilities totalValue totalLiabilities netWorth
                         default from_option id same_value].
    pose proof (fold_values a 0) as Ea. pose proof (fold_current_balances l 0) as El.
    split; [reflexivity |]. split; [reflexivity |].
    split; [rewrite Ea; lra |]. split; [rewrite El; lra |].
    split; [rewrite Ea, El; lra |].
    split; [reflexivity |]. split.
    + intros sc st. unfold getCacheKey. cbn [assets liabilities]. rewrite Ha, Hl.
      reflexivity.
    + intros w sc s st. unfold calculateScenarioProjection. cbn [assets liabilities].
      rewrite Ha, Hl. reflexivity.
Qed.

(** X27: after the caller's refresh the cached total that the metrics read
    is the value the projections start from: the current value of
    [calculateMetrics] and the current assets of
    [calculateMetricsWithLiabilities] are the sum of the asset values, the
    nominal value of year 0 of every scenario. *)
Theorem refreshed_total_is_present_value w p p' sc s st projections :
  updatePortfolioValue p = Returned p' ->
  0 <= horizonYears st ->
  currentValue (calculateMetrics p' projections st) ==
    sum_values (default [] (assets p)) /\
  currentAssets (calculateMetricsWithLiabilities w p' projections st) ==
    sum_values (default [] (assets p)) /\
  (nominal_at (calculateScenarioProjection w p' sc s st) 0 =j
   Fin (currentValue (calculateMetrics p' projections st)))%js.
Proof.
  intros H Hh. destruct (updatePortfolioValue_fields p p' H) as (a & l & Ha & Hl & ->).
  rewrite Ha. cbn [default from_option id].
  assert (E : currentValue (calculateMetrics
                {| assets := Some a; liabilities := Some l;
                   totalValue :=
                     Some (fold_left (fun sum asset => sum + or0 (value asset)) a 0);
                   totalLiabilities :=
                     Some (fold_left (fun sum liability =>
                                        sum + or0 (currentBalance liability)) l 0);
                   netWorth :=
                     Some (fold_left (fun sum asset => sum + or0 (value asset)) a 0 -
                           fold_left (fun sum liability =>
                                        sum + or0 (currentBalance liability)) l 0) |}
                projections st) == sum_values a).
  { unfold calculateMetrics. cbn [currentValue totalValue or0].
    rewrite fold_values. lra. }
  split; [exact E |]. split.
  - unfold calculateMetricsWithLiabilities. cbn [currentAssets totalValue or0].
    rewrite fold_values. lra.
  - match goal with
    | |- (nominal_at (calculateScenarioProjection w ?q sc s st) 0 =j _)%js =>
        destruct (nominal_at_value w q sc s st 0 Hh) as (v & -> & Ev)
    end.
    cbn [num_eq]. rewrite Ev, E. cbn [assets default from_option id].
    apply groups_value_present.
Qed.

(** ** The future values and the volatility *)

Lemma array_get_integer {A : Type} (a : list A) (i : Q) (h : nat) :
  i == inject_Z (Z.of_nat h) -> array_get a i = nth_error a h.
Proof.
  intros E. unfold array_get.
  assert (Hf : Qfloor i = Z.of_nat h) by (rewrite (Qfloor_comp _ _ E); apply Qfloor_Z).
  assert (E1 : is_integer i = true).
  { unfold is_integer. rewrite Hf. apply Qeq_bool_iff. exact E. }
  assert (E2 : Qleb 0 i = true).
  { apply Qleb_spec. rewrite E, <- (Zle_Qle 0). lia. }
  rewrite E1, E2, Hf, Nat2Z.id. reflexivity.
Qed.

Lemma last_of_projection w p sc s st (h : nat) :
  horizonYears st == inject_Z (Z.of_nat h) ->
  last (calculateScenarioProjection w p sc s st) =
  nth_error (calculateScenarioProjection w p sc s st) h.
Proof.
  intros E. rewrite projection_nth. unfold calculateScenarioProjection.
  rewrite (iterations_integer _ _ E).
  assert (Hlt : (h <? S h)%nat = true) by (apply Nat.ltb_lt; lia).
  rewrite Hlt, seq_S, map_app. apply last_snoc.
Qed.

Lemma jor_zero (q : Q) : (jor (Some (Fin q)) (Fin 0) =j Fin q)%js.
Proof.
  simpl. destruct (Qeq_bool q 0) eqn:E; simpl; [| reflexivity].
  apply Qeq_bool_eq in E. rewrite E. reflexivity.
Qed.

Lemma final_nominal w p sc s st (h : nat) :
  horizonYears st == inject_Z (Z.of_nat h) ->
  (jor (nominal <$> nth_error (calculateScenarioProjection w p sc s st) h) (Fin 0) =j
   Fin (groups_value (fun t => returnRate_of w st t s) h
          (groupAssetsByType (default [] (assets p)))))%js.
Proof.
  intros E.
  assert (Hy : inject_Z (Z.of_nat h) <= horizonYears st) by (rewrite E; lra).
  destruct (nominal_value w p sc s st h Hy) as (yp & -> & _ & Hnom & _).
  destruct (num_eq_Fin_inv _ _ Hnom) as (q & Hq & Eq).
  cbn [fmap option_fmap option_map]. rewrite Hq.
  eapply num_eq_trans; [apply jor_zero | exact Eq].
Qed.

(** X28: with a whole number of years as the horizon, the three future
    values of [calculateMetrics] on the projections computed for the same
    portfolio are the nominal values of the last year under the three
    scenarios.  With a positive cached [totalValue] the volatility is half
    the spread between the optimistic and the pessimistic one, in percent
    of [totalValue]; it is not negative when no asset value is negative and
    every asset type has a pessimistic rate of at least -100% and at most
    its optimistic rate. *)
Theorem future_values_and_volatility w p sc st (h : nat) (T : Q) :
  horizonYears st == inject_Z (Z.of_nat h) ->
  totalValue p = Some T -> 0 < T ->
  (fv_pessimistic (futureValue (calculateMetrics p (computed_projections w p sc st) st)) =j
   Fin (groups_value (fun t => returnRate_of w st t Pessimistic) h
          (groupAssetsByType (default [] (assets p)))))%js /\
  (fv_base (futureValue (calculateMetrics p (computed_projections w p sc st) st)) =j
   Fin (groups_value (fun t => returnRate_of w st t Base) h
          (groupAssetsByType (default [] (assets p)))))%js /\
  (fv_optimistic (futureValue (calculateMetrics p (computed_projections w p sc st) st)) =j
   Fin (groups_value (fun t => returnRate_of w st t Optimistic) h
          (groupAssetsByType (default [] (assets p)))))%js /\
  (volatility (calculateMetrics p (computed_projections w p sc st) st) =j
   Fin ((groups_value (fun t => returnRate_of w st t Optimistic) h
           (groupAssetsByType (default [] (assets p))) -
         groups_value (fun t => returnRate_of w st t Pessimistic) h
           (groupAssetsByType (default [] (assets p)))) / (2 * T) * 100))%js /\
  ((forall a, In a (default [] (assets p)) -> 0 <= or0 (value a)) ->
   (forall a, In a (default [] (assets p)) ->
              -100 <= returnRate_of w st (asset_type a) Pessimistic /\
              returnRate_of w st (asset_type a) Pessimistic <=
              returnRate_of w st (asset_type a) Optimistic) ->
   jle (Fin 0) (volatility (calculateMetrics p (computed_projections w p sc st) st)) =
   true).
Proof.
  intros E HT Hpos.
  pose proof (final_nominal w p sc Pessimistic st h E) as HP.
  pose proof (final_nominal w p sc Base st h E) as HB.
  pose proof (final_nominal w p sc Optimistic st h E) as HO.
  assert (Hvol : (volatility (calculateMetrics p (computed_projections w p sc st) st) =j
    Fin ((groups_value (fun t => returnRate_of w st t Optimistic) h
            (groupAssetsByType (default [] (assets p))) -
          groups_value (fun t => returnRate_of w st t Pessimistic) h
            (groupAssetsByType (default [] (assets p)))) / (2 * T) * 100))%js).
  { unfold calculateMetrics.
    cbn [volatility computed_projections pessimistic optimistic].
    rewrite HT. cbn [or0]. apply Qltb_spec in Hpos as EQ. rewrite EQ.
    rewrite !(array_get_integer _ _ h E).
    destruct (num_eq_Fin_inv _ _ HP) as (qp & -> & EP).
    destruct (num_eq_Fin_inv _ _ HO) as (qo & -> & EO).
    unfold jsub. cbn [jneg jadd]. rewrite jdiv_Fin by lra. cbn [jmul num_eq].
    rewrite EP, EO. reflexivity. }
  unfold calculateMetrics at 1 2 3.
  cbn [futureValue fv_pessimistic fv_base fv_optimistic computed_projections
       pessimistic base optimistic].
  rewrite !(array_get_integer _ _ h E), (last_of_projection w p sc Base st h E).
  split; [exact HP |]. split; [exact HB |]. split; [exact HO |].
  split; [exact Hvol |].
  intros Hval Hrate.
  destruct (num_eq_Fin_inv _ _ Hvol) as (v & -> & Ev).
  apply Qleb_spec. rewrite Ev.
  assert (Hle : groups_value (fun t => returnRate_of w st t Pessimistic) h
                  (groupAssetsByType (default [] (assets p))) <=
                groups_value (fun t => returnRate_of w st t Optimistic) h
                  (groupAssetsByType (default [] (assets p)))).
  { apply groups_value_le. intros t g Hin.
    destruct (group_values_nonneg _ t g Hval Hin) as (Hs & a & Ha & <-).
    split; [exact Hs |]. destruct (Hrate a Ha) as [Hlo Hle].
    apply Qpower_base_le; qlra. }
  apply Qmult_le_0_compat; [| lra].
  apply Qle_shift_div_l; [lra | lra].
Qed.

(** ** Modifications of a portfolio *)

Lemma apply_modification_keeps (p : WorkPortfolio) (t : nat) (m : Modification)
    (l : list WorkAsset) :
  wp_assets p = Some l ->
  exists p' t' l',
    apply_modification (p, t) m = Some (p', t') /\
    wp_assets p' = Some l' /\ wp_totalValue p' = wp_totalValue p.
Proof.
  intros Hl. destruct m as [i c | ty amt | alloc |]; cbn [apply_modification].
  - unfold sellAsset. rewrite Hl. cbn [mbind option_bind].
    destruct (List.find _ l) as [a |].
    + destruct (jle _ (Fin 0)); cbn [mbind option_bind];
        eexists; eexists; eexists; (split; [reflexivity |]); split; reflexivity.
    + cbn [mbind option_bind]. exists p, t, l.
      split; [reflexivity |]. split; [exact Hl | reflexivity].
  - unfold buyAsset. rewrite Hl. cbn [mbind option_bind].
    destruct (List.find _ l) as [a |];
      eexists; eexists; eexists; (split; [reflexivity |]); split; reflexivity.
  - unfold rebalancePortfolio. destruct (fold_left _ alloc _) as [l' t'].
    eexists; eexists; eexists. split; [reflexivity |]. split; reflexivity.
  - exists p, t, l. split; [reflexivity |]. split; [exact Hl | reflexivity].
Qed.

Lemma apply_modifications_keeps (ms : list Modification) (p : WorkPortfolio) (t : nat)
    (l : list WorkAsset) :
  wp_assets p = Some l ->
  exists p' t' l',
    apply_modifications ms (p, t) = Some (p', t') /\
    wp_assets p' = Some l' /\ wp_totalValue p' = wp_totalValue p.
Proof.
  revert p t l. induction ms as [| m ms IH]; intros p t l Hl.
  - exists p, t, l. split; [reflexivity |]. split; [exact Hl | reflexivity].
  - destruct (apply_modification_keeps p t m l Hl) as (p1 & t1 & l1 & H1 & Hl1 & HT1).
    destruct (IH p1 t1 l1 Hl1) as (p2 & t2 & l2 & H2 & Hl2 & HT2).
    exists p2, t2, l2. cbn [apply_modifications]. rewrite H1. cbn [mbind option_bind].
    split; [exact H2 |]. split; [exact Hl2 | congruence].
Qed.

Lemma apply_modifications_app (ms1 ms2 : list Modification) (s : WorkPortfolio * nat) :
  apply_modifications (ms1 ++ ms2) s =
  s' ← apply_modifications ms1 s; apply_modifications ms2 s'.
Proof.
  revert s. induction ms1 as [| m ms1 IH]; intros s; [reflexivity |].
  cbn [app apply_modifications].
  destruct (apply_modification s m) as [s1 |]; cbn [mbind option_bind]; [apply IH | reflexivity].
Qed.

Lemma rebalance_loop (T : Q) (allocation : list (string * Q)) (acc : list WorkAsset)
    (tick : nat) :
  exists new tick',
    fold_left (fun '(assets, tick) '(assetType, percentage) =>
      let value := (to_number (Some (Fin T)) *! Fin percentage /! Fin 100)%js in
      if jgt value (Fin 0)
      then (assets ++
            [{| wa_id := String.append "asset_"
                           (String.append assetType
                              (String.append "_" (pretty (Date_now tick))));
                wa_type := assetType;
                wa_name := String.append assetType
                             (String.append " ("
                                (String.append (Number_toString percentage) "%)"));
                wa_value := Some value |}], S tick)
      else (assets, tick)) allocation (acc, tick) = (acc ++ new, tick') /\
    map (fun a => (wa_type a, wa_value a)) new =
    map (fun '(t, v) => (t, Some (Fin v))) (allocated T allocation).
Proof.
  revert acc tick. induction allocation as [| [ty pct] alloc IH]; intros acc tick.
  - exists [], tick. split; [cbn [fold_left]; rewrite app_nil_r |]; reflexivity.
  - cbn [fold_left]. cbv zeta. cbn [to_number default from_option id jmul].
    rewrite jdiv_Fin by (intros H; discriminate H).
    unfold allocated. cbn [List.filter].
    change (jgt (Fin (T * pct / 100)) (Fin 0)) with (Qltb 0 (T * pct / 100)).
    destruct (Qltb 0 (T * pct / 100)).
    + destruct (IH (acc ++ [{| wa_id := String.append "asset_"
                                (String.append ty
                                   (String.append "_" (pretty (Date_now tick))));
                               wa_type := ty;
                               wa_name := String.append ty
                                 (String.append " ("
                                    (String.append (Number_toString pct) "%)"));
                               wa_value := Some (Fin (T * pct / 100)) |}]) (S tick))
        as (new & tick' & Hf & Hm).
      eexists; exists tick'. split.
      * etransitivity; [exact Hf |]. rewrite <- app_assoc. reflexivity.
      * cbn [app map]. rewrite Hm. reflexivity.
    + destruct (IH acc tick) as (new & tick' & Hf & Hm).
      exists new, tick'. split; [exact Hf | exact Hm].
Qed.

Lemma counted_total (l : list WorkAsset) (acc : Q) :
  Forall finite_value l ->
  exists v,
    fold_left (fun sum asset => (sum +! jor (wa_value asset) (Fin 0))%js) l (Fin acc) =
    Fin v /\
    v == acc + sum_list (map counted_value l).
Proof.
  intros H. revert acc. induction H as [| a l Ha _ IH]; intros acc.
  - exists acc. split; [reflexivity | simpl; lra].
  - cbn [fold_left map sum_list].
    assert (Hj : exists q, jor (wa_value a) (Fin 0) = Fin q /\ q == counted_value a).
    { unfold finite_value in Ha. unfold counted_value.
      destruct (wa_value a) as [[q | | |] |]; try contradiction.
      - cbn [jor truthy]. destruct (Qeq_bool q 0) eqn:E; cbn [negb].
        + exists 0. split; [reflexivity |]. apply Qeq_bool_eq in E. rewrite E. reflexivity.
        + exists q. split; reflexivity.
      - exists 0. split; reflexivity. }
    destruct Hj as (q & -> & Eq). cbn [jadd].
    destruct (IH (acc + q)) as (v & Hv & Ev). exists v. split; [exact Hv |].
    rewrite Ev, Eq. lra.
Qed.

Lemma allocated_finite (T : Q) (allocation : list (string * Q)) (l : list WorkAsset) :
  map (fun a => (wa_type a, wa_value a)) l =
  map (fun '(t, v) => (t, Some (Fin v))) (allocated T allocation) ->
  Forall finite_value l /\
  sum_list (map counted_value l) = sum_list (map snd (allocated T allocation)).
Proof.
  generalize (allocated T allocation) as al. intros al. revert l.
  induction al as [| [t v] al IH]; intros l Hm.
  - destruct l; [| discriminate]. split; [constructor | reflexivity].
  - destruct l as [| a l]; [discriminate |]. cbn [map] in Hm.
    injection Hm as Ht Hv Hrest. destruct (IH l Hrest) as [IH1 IH2]. split.
    + constructor; [| exact IH1]. unfold finite_value. rewrite Hv. exact I.
    + cbn [map sum_list snd]. unfold counted_value at 1. rewrite Hv, IH2. reflexivity.
Qed.

Lemma allocated_all (T : Q) (allocation : list (string * Q)) :
  0 < T -> (forall e, In e allocation -> 0 < snd e) ->
  sum_list (map snd (allocated T allocation)) ==
  T * sum_list (map snd allocation) / 100.
Proof.
  intros HT. unfold allocated.
  induction allocation as [| [t pct] alloc IH]; intros Hpos.
  - simpl. field.
  - cbn [List.filter].
    assert (Hp : 0 < pct) by (apply (Hpos (t, pct)); left; reflexivity).
    assert (E : Qltb 0 (T * pct / 100) = true).
    { apply Qltb_spec. apply Qlt_shift_div_l; [reflexivity | nra]. }
    rewrite E. cbn [map sum_list snd]. rewrite IH.
    + field.
    + intros e He. apply Hpos. right. exact He.
Qed.

(** X29: a rebalance discards what the modifications before it did: when
    the base portfolio has an asset list and a cached [totalValue] [T],
    [applyModifications] with a list of modifications that ends in a
    rebalance returns one asset for every entry of the allocation with a
    positive share of [T], in the order of the allocation and with that
    share as its value; what was sold or bought before does not count.  The
    new [totalValue] is the sum of these shares: it is [T] again when [T]
    and all percentages are positive and the percentages add up to 100. *)
Theorem rebalance_discards_modifications (basePortfolio : Portfolio)
    (modifications : list Modification) (allocation : list (string * Q))
    (tick : nat) (l : list Asset) (T : Q) :
  assets basePortfolio = Some l ->
  totalValue basePortfolio = Some T ->
  exists r new total,
    applyModifications basePortfolio (modifications ++ [Rebalance allocation]) tick =
      Some r /\
    wp_assets r = Some new /\
    map (fun a => (wa_type a, wa_value a)) new =
      map (fun '(t, v) => (t, Some (Fin v))) (allocated T allocation) /\
    wp_totalValue r = Some (Fin total) /\
    total == sum_list (map snd (allocated T allocation)) /\
    (0 < T -> (forall e, In e allocation -> 0 < snd e) ->
     sum_list (map snd allocation) == 100 -> total == T).
Proof.
  intros Ha HT.
  assert (Hc : wp_assets (json_copy basePortfolio) = Some (map copy_asset l)).
  { unfold json_copy. cbn [wp_assets]. rewrite Ha. reflexivity. }
  destruct (apply_modifications_keeps modifications (json_copy basePortfolio) tick _ Hc)
    as (p1 & t1 & l1 & H1 & Hl1 & HT1).
  assert (HTV : wp_totalValue p1 = Some (Fin T)).
  { rewrite HT1. unfold json_copy. cbn [wp_totalValue]. rewrite HT. reflexivity. }
  destruct (rebalance_loop T allocation [] t1) as (new & t2 & Hloop & Hnew).
  destruct (allocated_finite T allocation new Hnew) as [Hfin Hsum].
  destruct (counted_total new 0 Hfin) as (total & Htot & Etot).
  assert (Hres : applyModifications basePortfolio
                   (modifications ++ [Rebalance allocation]) tick =
                 Some {| wp_assets := Some new;
                         wp_liabilities := wp_liabilities p1;
                         wp_totalValue := Some (Fin total);
                         wp_totalLiabilities := wp_totalLiabilities p1;
                         wp_netWorth := wp_netWorth p1 |}).
  { unfold applyModifications. rewrite apply_modifications_app, H1.
    cbn [mbind option_bind apply_modifications apply_modification].
    unfold rebalancePortfolio. rewrite HTV. cbv zeta. cbv zeta in Hloop. rewrite Hloop.
    cbn [app set_assets wp_assets wp_liabilities wp_totalLiabilities wp_netWorth
         mbind option_bind].
    rewrite Htot. reflexivity. }
  eexists; exists new, total. split; [exact Hres |].
  split; [reflexivity |]. split; [exact Hnew |]. split; [reflexivity |].
  assert (E : total == sum_list (map snd (allocated T allocation))).
  { rewrite Etot, Hsum. lra. }
  split; [exact E |].
  intros HTpos Hpos H100. rewrite E, (allocated_all T allocation HTpos Hpos), H100.
  field.
Qed.

Lemma copies_finite (l : list Asset) : Forall finite_value (map copy_asset l).
Proof.
  induction l as [| a l IH]; constructor; [| exact IH].
  unfold finite_value, copy_asset. cbn [wa_value]. destruct (value a); exact I.
Qed.

Lemma copies_counted (l : list Asset) :
  sum_list (map counted_value (map copy_asset l)) == sum_values l.
Proof.
  induction l as [| a l IH]; [reflexivity |].
  cbn [map sum_list sum_values]. rewrite IH.
  unfold counted_value, copy_asset. cbn [wa_value]. destruct (value a); reflexivity.
Qed.

Lemma sum_counted_app (l1 l2 : list WorkAsset) :
  sum_list (map counted_value (l1 ++ l2)) ==
  sum_list (map counted_value l1) + sum_list (map counted_value l2).
Proof. induction l1 as [| a l1 IH]; simpl; [lra | rewrite IH; lra]. Qed.

Lemma find_skip (i : string) (l1 : list Asset) (rest : list WorkAsset) :
  (forall x, In x l1 -> asset_id x <> i) ->
  List.find (fun a => String.eqb (wa_id a) i) (map copy_asset l1 ++ rest) =
  List.find (fun a => String.eqb (wa_id a) i) rest.
Proof.
  intros H. induction l1 as [| x l1 IH]; [reflexivity |].
  cbn [map app List.find copy_asset wa_id].
  assert (E : String.eqb (asset_id x) i = false)
    by (apply String.eqb_neq, H; left; reflexivity).
  rewrite E. apply IH. intros y Hy. apply H. right. exact Hy.
Qed.

Lemma update_skip (i : string) (f : WorkAsset -> WorkAsset) (l1 : list Asset)
    (rest : list WorkAsset) :
  (forall x, In x l1 -> asset_id x <> i) ->
  update_first (fun a => String.eqb (wa_id a) i) f (map copy_asset l1 ++ rest) =
  map copy_asset l1 ++ update_first (fun a => String.eqb (wa_id a) i) f rest.
Proof.
  intros H. induction l1 as [| x l1 IH]; [reflexivity |].
  cbn [map app update_first copy_asset wa_id].
  assert (E : String.eqb (asset_id x) i = false)
    by (apply String.eqb_neq, H; left; reflexivity).
  rewrite E. f_equal. apply IH. intros y Hy. apply H. right. exact Hy.
Qed.

Lemma filter_skip (i : string) (l1 : list Asset) (rest : list WorkAsset) :
  (forall x, In x l1 -> asset_id x <> i) ->
  List.filter (fun a => negb (String.eqb (wa_id a) i)) (map copy_asset l1 ++ rest) =
  map copy_asset l1 ++ List.filter (fun a => negb (String.eqb (wa_id a) i)) rest.
Proof.
  intros H. induction l1 as [| x l1 IH]; [reflexivity |].
  cbn [map app List.filter copy_asset wa_id].
  assert (E : String.eqb (asset_id x) i = false)
    by (apply String.eqb_neq, H; left; reflexivity).
  rewrite E. cbn [negb]. f_equal. apply IH. intros y Hy. apply H. right. exact Hy.
Qed.

Lemma filter_copies (i : string) (l : list Asset) :
  List.filter (fun a => negb (String.eqb (wa_id a) i)) (map copy_asset l) =
  map copy_asset (List.filter (fun x => negb (String.eqb (asset_id x) i)) l).
Proof.
  induction l as [| x l IH]; [reflexivity |].
  cbn [map List.filter copy_asset wa_id].
  destruct (String.eqb (asset_id x) i); cbn [negb map]; rewrite IH; reflexivity.
Qed.

(** X30: selling [c] percent of an asset through [applyModifications]: the
    first asset with the given id, worth [v], keeps [v - v * c / 100].  While
    that is positive the other assets are untouched and the recomputed
    [totalValue] is the sum of the asset values less [v * c / 100].  When it
    is zero or negative, every asset with that id leaves the portfolio, and
    [totalValue] is the sum of the values of the remaining assets. *)
Theorem sell_asset_effect (basePortfolio : Portfolio) (assetId : string) (c v : Q)
    (l1 l2 : list Asset) (a : Asset) (tick : nat) :
  assets basePortfolio = Some (l1 ++ a :: l2) ->
  (forall x, In x l1 -> asset_id x <> assetId) ->
  asset_id a = assetId -> value a = Some v ->
  exists r total,
    applyModifications basePortfolio [Sell assetId (Some c)] tick = Some r /\
    wp_totalValue r = Some (Fin total) /\
    (0 < v - v * c / 100 ->
     wp_assets r =
       Some (map copy_asset l1 ++
             set_value (Fin (v - v * c / 100)) (copy_asset a) :: map copy_asset l2) /\
     total == sum_values (l1 ++ a :: l2) - v * c / 100) /\
    (v - v * c / 100 <= 0 ->
     wp_assets r =
       Some (map copy_asset
               (l1 ++ List.filter (fun x => negb (String.eqb (asset_id x) assetId)) l2)) /\
     total ==
       sum_values (l1 ++ List.filter (fun x => negb (String.eqb (asset_id x) assetId)) l2)).
Proof.
  intros Ha Hl1 Hid Hv.
  assert (Etest : String.eqb (wa_id (copy_asset a)) assetId = true).
  { apply String.eqb_eq. exact Hid. }
  assert (Hsell : sellAsset (json_copy basePortfolio) assetId (Some c) =
    Some (set_assets (json_copy basePortfolio)
            (if Qleb (v - v * c / 100) 0
             then map copy_asset
                    (l1 ++ List.filter
                             (fun x => negb (String.eqb (asset_id x) assetId)) l2)
             else map copy_asset l1 ++
                  set_value (Fin (v - v * c / 100)) (copy_asset a) ::
                  map copy_asset l2))).
  { assert (Hc : wp_assets (json_copy basePortfolio) =
                 Some (map copy_asset l1 ++ copy_asset a :: map copy_asset l2)).
    { unfold json_copy. cbn [wp_assets]. rewrite Ha.
      cbn [fmap option_fmap option_map]. rewrite map_app. reflexivity. }
    unfold sellAsset. rewrite Hc. cbn [mbind option_bind].
    rewrite (find_skip _ _ _ Hl1).
    cbn [List.find]. rewrite Etest. cbv zeta.
    rewrite (update_skip _ _ _ _ Hl1). cbn [update_first]. rewrite Etest.
    assert (Ev : wa_value (copy_asset a) = Some (Fin v)).
    { unfold copy_asset. cbn [wa_value]. rewrite Hv. reflexivity. }
    rewrite Ev. cbn [to_number default from_option id fmap option_fmap option_map jmul].
    rewrite jdiv_Fin by (intros H; discriminate H).
    unfold jsub. cbn [jneg jadd].
    change (jle (Fin (v + - (v * c / 100))) (Fin 0)) with (Qleb (v - v * c / 100) 0).
    destruct (Qleb (v - v * c / 100) 0); [| reflexivity].
    rewrite (filter_skip _ _ _ Hl1). cbn [List.filter set_value wa_id].
    rewrite Etest. cbn [negb]. rewrite filter_copies, map_app. reflexivity. }
  assert (Hfin : Forall finite_value
            (if Qleb (v - v * c / 100) 0
             then map copy_asset
                    (l1 ++ List.filter
                             (fun x => negb (String.eqb (asset_id x) assetId)) l2)
             else map copy_asset l1 ++
                  set_value (Fin (v - v * c / 100)) (copy_asset a) ::
                  map copy_asset l2)).
  { destruct (Qleb (v - v * c / 100) 0); [apply copies_finite |].
    apply Forall_app. split; [apply copies_finite |].
    constructor; [exact I | apply copies_finite]. }
  destruct (counted_total _ 0 Hfin) as (total & Htot & Etot).
  eexists; exists total. split.
  - unfold applyModifications. cbn [apply_modifications apply_modification].
    rewrite Hsell. cbn [mbind option_bind set_assets wp_assets]. rewrite Htot.
    reflexivity.
  - cbn [wp_totalValue wp_assets]. split; [reflexivity |]. split.
    + intros Hpos. apply Qleb_false in Hpos. rewrite Hpos in Etot |- *.
      split; [reflexivity |]. rewrite Etot, sum_counted_app. cbn [map sum_list].
      rewrite !copies_counted, sum_values_app. cbn [sum_values].
      unfold counted_value at 1. cbn [set_value wa_value]. rewrite Hv. cbn [or0]. lra.
    + intros Hle. apply Qleb_spec in Hle. rewrite Hle in Etot |- *.
      split; [reflexivity |]. rewrite Etot, copies_counted. lra.
Qed.

End JS.

(** ** The sample power function *)

Lemma pow_lin_power (x y : Q) : power pow_lin x y == pow_lin x y.
Proof.
  unfold power. destruct (is_integer y) eqn:E; [| reflexivity].
  apply is_integer_eq in E. unfold pow_lin.
  assert (H : y - inject_Z (Qfloor y) == 0) by lra.
  rewrite H. ring.
Qed.

Lemma pow_lin_lower (x y : Q) : 1 < x -> x ^ Qfloor y <= pow_lin x y.
Proof.
  intros Hx. unfold pow_lin.
  assert (Hp : 0 < x ^ Qfloor y) by (apply Qpower_0_lt; lra).
  pose proof (Qfloor_le y) as Hf.
  rewrite <- (Qmult_1_r (x ^ Qfloor y)) at 1.
  apply Qmult_le_l; [exact Hp |]. nra.
Qed.

Lemma pow_lin_upper (x y : Q) : 1 < x -> pow_lin x y < x ^ (Qfloor y + 1).
Proof.
  intros Hx. unfold pow_lin.
  assert (Hp : 0 < x ^ Qfloor y) by (apply Qpower_0_lt; lra).
  pose proof (Qlt_floor y) as Hf. rewrite inject_Z_plus in Hf.
  change (inject_Z 1) with 1 in Hf.
  rewrite Qpower_plus by lra. rewrite Qpower_1_r.
  apply Qmult_lt_l; [exact Hp |]. nra.
Qed.

Lemma pow_lin_increasing (x a b : Q) : 1 < x -> a <= b -> pow_lin x a <= pow_lin x b.
Proof.
  intros Hx Hab. pose proof (Qfloor_resp_le _ _ Hab) as Hf.
  destruct (Z.eq_dec (Qfloor a) (Qfloor b)) as [E | N].
  - unfold pow_lin. rewrite E.
    assert (Hp : 0 < x ^ Qfloor b) by (apply Qpower_0_lt; lra).
    apply Qmult_le_l; [exact Hp |]. nra.
  - apply Qle_trans with (x ^ (Qfloor a + 1)).
    + apply Qlt_le_weak. apply pow_lin_upper. exact Hx.
    + apply Qle_trans with (x ^ Qfloor b); [| apply pow_lin_lower; exact Hx].
      apply Qpower_le_compat_l; [lia | lra].
Qed.

Lemma pow_lin_above_one (x a : Q) : 1 < x -> 0 < a -> 1 < pow_lin x a.
Proof.
  intros Hx Ha.
  assert (Hf : (0 <= Qfloor a)%Z).
  { apply (Qfloor_resp_le 0 a). lra. }
  destruct (Z.eq_dec (Qfloor a) 0%Z) as [E | N].
  - unfold pow_lin. rewrite E. change (x ^ 0) with 1. change (inject_Z 0) with 0. nra.
  - apply Qlt_le_trans with (x ^ Qfloor a); [| apply pow_lin_lower; exact Hx].
    apply Qpower_1_lt; [exact Hx | lia].
Qed.

(** The sample power function grows as [pow_monotone] asks. *)
Lemma pow_lin_monotone : pow_monotone pow_lin.
Proof.
  split.
  - intros x a b Hx _ Hab. rewrite !pow_lin_power. apply pow_lin_increasing; assumption.
  - intros x a Hx Ha. rewrite pow_lin_power. apply pow_lin_above_one; assumption.
Qed.

Lemma pow_lin_at_one : pow_at_one pow_lin.
Proof.
  intros x e Hx. unfold pow_lin. rewrite Hx, Qpower_1. ring.
Qed.

(** ** Instances *)

Lemma calculateRemainingBalance_cases_witness :
  (calculateRemainingBalance pow_lin mortgage_example 10 =j
   Fin (spec_remaining_balance pow_lin (principal mortgage_example)
          (rate mortgage_example) (termYears mortgage_example) 10))%js /\
  calculateRemainingBalance pow_lin mortgage_example (-1) =
    Fin (principal mortgage_example) /\
  calculateRemainingBalance pow_lin mortgage_example 25 = Fin 0.
Proof.
  destruct (calculateRemainingBalance_cases pow_lin mortgage_example 10)
    as (_ & _ & Hmid & _).
  destruct (calculateRemainingBalance_cases pow_lin mortgage_example (-1))
    as (Hlo & _).
  destruct (calculateRemainingBalance_cases pow_lin mortgage_example 25)
    as (_ & Hhi & _).
  destruct (Hmid eq_refl eq_refl) as (_ & Hspec).
  split; [| split].
  - refine (Hspec _ _).
    + reflexivity.
    + apply (power_int_above_one pow_lin _ _ 240); reflexivity.
  - refine (Hlo _). discriminate.
  - refine (Hhi _ _); [reflexivity | discriminate].
Defined.

Lemma single_type_compounding_witness :
  exists yp,
    nth_error (calculateScenarioProjection pow_lin browser stocks_only
                 default_scenarios Base one_year) 1 = Some yp /\
    (nominal yp =j Fin 112000)%js /\ (yp_netWorth yp =j Fin 112000)%js.
Proof.
  destruct (single_type_compounding pow_lin browser stocks_only default_scenarios
              Base one_year "stocks" 1) as (_ & H).
  - repeat constructor.
  - discriminate.
  - destruct (H 5) as (yp & Hn & _ & Hnom & Hnw).
    + eapply adjustment_recorded; [reflexivity | vm_compute; reflexivity
                                   | reflexivity | reflexivity].
    + assert (E : (nominal yp =j Fin 112000)%js).
      { eapply num_eq_trans; [exact Hnom |]. reflexivity. }
      exists yp. split; [exact Hn |]. split; [exact E |].
      eapply num_eq_trans; [apply Hnw; reflexivity | exact E].
Defined.

Lemma projection_length_and_present_witness :
  length (calculateScenarioProjection pow_lin browser with_mortgage default_scenarios
            Optimistic default_settings) = 11%nat /\
  exists yp,
    nth_error (calculateScenarioProjection pow_lin browser with_mortgage
                 default_scenarios Optimistic default_settings) 0 = Some yp /\
    (nominal yp =j Fin 150000)%js /\ (real yp =j yp_netWorth yp)%js.
Proof.
  destruct (projection_length_and_present pow_lin browser with_mortgage
              default_scenarios Optimistic default_settings 10)
    as (Hlen & yp & Hn & _ & _ & Htv & Hreal).
  - reflexivity.
  - split; [exact Hlen |]. exists yp. split; [exact Hn |]. split; [| exact Hreal].
    apply Htv; reflexivity.
Defined.

Lemma liabilities_scenario_invariant_witness :
  yp_liabilities <$> nth_error (calculateScenarioProjection pow_lin browser
      with_mortgage default_scenarios Pessimistic default_settings) 3 =
  Some (calculateLiabilitiesValue pow_lin browser (Some [mortgage_example]) 3).
Proof.
  destruct (liabilities_scenario_invariant pow_lin show_data browser
              new_FinancialEngine with_mortgage default_scenarios default_settings 3
              Pessimistic Optimistic) as (_ & H & _).
  apply H. discriminate.
Defined.

Lemma cached_totals_read_only_totalValue_witness :
  calculateProjections pow_lin show_data browser new_FinancialEngine stocks_only
    default_scenarios one_year =
  calculateProjections pow_lin show_data browser new_FinancialEngine stocks_stale
    default_scenarios one_year /\
  calculateRiskScore stocks_only (Fin 30) = calculateRiskScore stocks_other_debt (Fin 30).
Proof.
  destruct (cached_totals_read_only_totalValue pow_lin show_data browser
              new_FinancialEngine stocks_only stocks_stale default_scenarios one_year
              {| pessimistic := []; base := []; optimistic := [] |} (Fin 30))
    as (H1 & _); [reflexivity | reflexivity |].
  destruct (cached_totals_read_only_totalValue pow_lin show_data browser
              new_FinancialEngine stocks_only stocks_other_debt default_scenarios one_year
              {| pessimistic := []; base := []; optimistic := [] |} (Fin 30))
    as (_ & _ & H2); [reflexivity | reflexivity |].
  split; [exact H1 | apply H2; reflexivity].
Defined.

Lemma cache_hit_same_reference_witness :
  let first := calculateProjections pow_lin show_data browser new_FinancialEngine
                 stocks_only default_scenarios one_year in
  let second := calculateProjections pow_lin show_data no_registry (snd first)
                  stocks_copy default_scenarios one_year in
  fst second = fst first /\ snd second = snd first /\
  is_Some (nth_error (store (snd first)) (fst first)).
Proof.
  intros first second.
  destruct (cache_hit_same_reference pow_lin show_data browser no_registry
              new_FinancialEngine stocks_only default_scenarios one_year
              stocks_copy default_scenarios one_year
              [(browser, with_mortgage, default_scenarios, default_settings)])
    as (H1 & H2 & _ & _ & H3).
  - unfold structurally_identical. simpl.
    repeat split; repeat constructor; reflexivity.
  - split; [exact H1 |]. split; [exact H2 |]. apply H3.
    exact new_FinancialEngine_wf.
Defined.

Lemma calculateMonthlyPayment_spec_witness :
  calculateMonthlyPayment pow_lin 0 (85 # 10) 20 = Fin 0 /\
  (calculateMonthlyPayment pow_lin 1000000 (85 # 10) 20 =j
   Fin (spec_monthly_payment pow_lin 1000000 (85 # 10) 20))%js.
Proof.
  destruct (calculateMonthlyPayment_spec pow_lin 0 (85 # 10) 20) as (H0 & _).
  destruct (calculateMonthlyPayment_spec pow_lin 1000000 (85 # 10) 20) as (_ & H1 & _).
  split.
  - apply H0. left. discriminate.
  - apply H1; try reflexivity. apply (power_int_above_one pow_lin _ _ 240); reflexivity.
Defined.

Lemma remaining_balance_bounded_decreasing_witness :
  jle (calculateRemainingBalance pow_lin mortgage_example (15 # 2))
      (Fin 1000000) = true /\
  jle (calculateRemainingBalance pow_lin mortgage_example (15 # 2))
      (calculateRemainingBalance pow_lin mortgage_example (1 # 3)) = true.
Proof.
  destruct (remaining_balance_bounded_decreasing pow_lin mortgage_example)
    as (Hb & Hd & _).
  - repeat split.
  - reflexivity.
  - exact pow_lin_monotone.
  - split; [apply (Hb (15 # 2)) | apply Hd; discriminate].
Defined.

Lemma calculateMetrics_guards_witness :
  growthRate (calculateMetrics pow_lin empty_portfolio
                {| pessimistic := []; base := []; optimistic := [] |}
                default_settings) = Fin 0 /\
  volatility (calculateMetrics pow_lin empty_portfolio
                {| pessimistic := []; base := []; optimistic := [] |}
                default_settings) = Fin 0.
Proof.
  destruct (calculateMetrics_guards pow_lin empty_portfolio
              {| pessimistic := []; base := []; optimistic := [] |} default_settings)
    as (_ & Hv & Hg).
  split; [apply Hg; left; reflexivity | apply Hv; discriminate].
Defined.

Lemma calculateLiabilitiesValue_without_registry_witness :
  (calculateLiabilitiesValue pow_lin no_registry (Some [mortgage_example; tiny_loan]) 7 =j
   Fin (1000000 + (6 # 1000)))%js.
Proof.
  destruct (calculateLiabilitiesValue_without_registry pow_lin no_registry
              (Some [mortgage_example; tiny_loan]) 7) as (H & _).
  destruct (H eq_refl) as (Hs & _).
  eapply num_eq_trans; [exact Hs |]. vm_compute. reflexivity.
Defined.


Lemma nominal_nondecreasing_witness :
  jle (nominal_at (calculateScenarioProjection pow_lin browser with_mortgage
                     default_scenarios Base default_settings) 2)
      (nominal_at (calculateScenarioProjection pow_lin browser with_mortgage
                     default_scenarios Base default_settings) 5) = true.
Proof.
  apply (nominal_nondecreasing pow_lin browser with_mortgage default_scenarios Base
           default_settings 2 5).
  - intros a [<- | [<- | []]]; discriminate.
  - intros a [<- | [<- | []]]; vm_compute; discriminate.
  - lia.
  - discriminate.
Defined.

Lemma nominal_ordered_by_scenario_witness :
  jle (nominal_at (calculateScenarioProjection pow_lin browser with_mortgage
                     default_scenarios Pessimistic default_settings) 5)
      (nominal_at (calculateScenarioProjection pow_lin browser with_mortgage
                     default_scenarios Optimistic default_settings) 5) = true.
Proof.
  apply (nominal_ordered_by_scenario pow_lin browser with_mortgage default_scenarios
           default_settings Pessimistic Optimistic 5).
  - intros a [<- | [<- | []]]; discriminate.
  - intros a [<- | [<- | []]]; split; vm_compute; discriminate.
  - discriminate.
Defined.

Lemma calculateLiabilitiesValue_with_registry_witness :
  (calculateLiabilitiesValue pow_lin browser (Some [paid_down]) 0 =j Fin 1000000)%js /\
  (calculateLiabilitiesValue pow_lin browser (Some [paid_down]) 20 =j Fin 0)%js.
Proof.
  destruct (calculateLiabilitiesValue_with_registry pow_lin browser (Some [paid_down]) 0
              eq_refl) as [H0 _].
  destruct (calculateLiabilitiesValue_with_registry pow_lin browser (Some [paid_down]) 20
              eq_refl) as [_ H20].
  split.
  - eapply num_eq_trans; [apply H0; discriminate | reflexivity].
  - apply H20; [reflexivity |]. intros l [<- | []]. discriminate.
Defined.

Lemma liabilities_value_bounded_decreasing_witness :
  jle (calculateLiabilitiesValue pow_lin browser (Some [mortgage_example]) 10)
      (calculateLiabilitiesValue pow_lin browser (Some [mortgage_example]) 5) = true.
Proof.
  destruct (liabilities_value_bounded_decreasing pow_lin browser
              (Some [mortgage_example]) 5 10 pow_lin_monotone eq_refl) as [_ H].
  - intros l [<- | []]. split; [repeat split |]; reflexivity.
  - apply H. discriminate.
Defined.

Lemma netWorth_nondecreasing_witness :
  jle (netWorth_at (calculateScenarioProjection pow_lin browser with_mortgage
                      default_scenarios Base default_settings) 2)
      (netWorth_at (calculateScenarioProjection pow_lin browser with_mortgage
                      default_scenarios Base default_settings) 5) = true.
Proof.
  apply (netWorth_nondecreasing pow_lin browser with_mortgage default_scenarios Base
           default_settings 2 5 pow_lin_monotone eq_refl).
  - intros a [<- | [<- | []]]; discriminate.
  - intros a [<- | [<- | []]]; vm_compute; discriminate.
  - intros l [<- | []]. split; [repeat split |]; reflexivity.
  - lia.
  - discriminate.
Defined.

Lemma zero_rate_loan_NaN_witness :
  calculateRemainingBalance pow_lin interest_free 1 = NaN /\
  exists yp,
    nth_error (calculateScenarioProjection pow_lin browser with_interest_free
                 default_scenarios Base one_year) 1 = Some yp /\
    yp_netWorth yp = NaN.
Proof.
  destruct (zero_rate_loan_NaN pow_lin browser with_interest_free default_scenarios
              Base one_year interest_free 1 pow_lin_at_one) as [H1 H2].
  - reflexivity.
  - lia.
  - reflexivity.
  - split; [exact H1 |].
    destruct H2 as (yp & Hn & _ & Hw & _).
    + reflexivity.
    + left. reflexivity.
    + discriminate.
    + exists yp. split; [exact Hn | exact Hw].
Defined.

Lemma real_value_deflated_witness :
  exists n,
    netWorth_at (calculateScenarioProjection pow_lin browser stocks_only
                   default_scenarios Base one_year) 1 = Fin n /\
    jle (real_at (calculateScenarioProjection pow_lin browser stocks_only
                    default_scenarios Base one_year) 1) (Fin n) = true.
Proof.
  eexists. split.
  - vm_compute. reflexivity.
  - refine (proj2 (real_value_deflated pow_lin browser stocks_only default_scenarios
                     Base one_year 1 _ _ _ _) _ _).
    + reflexivity.
    + discriminate.
    + vm_compute. reflexivity.
    + discriminate.
    + discriminate.
Defined.

Lemma real_value_at_full_deflation_witness :
  exists yp,
    nth_error (calculateScenarioProjection pow_lin browser stocks_only
                 default_scenarios Base full_deflation) 1 = Some yp /\
    forall q, real yp <> Fin q.
Proof.
  apply (real_value_at_full_deflation pow_lin browser stocks_only default_scenarios
           Base full_deflation 1).
  - reflexivity.
  - lia.
  - discriminate.
Defined.

Lemma calculateMaxDrawdown_range_witness :
  exists d, calculateMaxDrawdown falling = Fin d /\ 0 <= d /\ d <= 100.
Proof.
  destruct (calculateMaxDrawdown_range falling [100; 80; 120] eq_refl)
    as (d & Hd & H0 & H100 & _).
  exists d. split; [exact Hd |]. split; [exact H0 |].
  apply H100. intros v [<- | [<- | [<- | []]]]; discriminate.
Defined.

Lemma calculateDiversification_shares_witness :
  sum_list (map snd (distribution (calculateDiversification pow_lin with_mortgage))) == 100 /\
  typesCount (calculateDiversification pow_lin with_mortgage) = Some 2%nat.
Proof.
  destruct (calculateDiversification_shares pow_lin with_mortgage
              (mkAsset "a1" "stocks" 100000) [mkAsset "a2" "bonds" 50000] 150000
              eq_refl eq_refl) as (_ & Hsum & Hn & _).
  - reflexivity.
  - reflexivity.
  - repeat constructor.
  - split; [exact Hsum | exact Hn].
Defined.

Lemma calculateDiversification_single_type_witness :
  score (calculateDiversification pow_lin stocks_only) = Fin 0 /\
  concentration (calculateDiversification pow_lin stocks_only) = Fin 100.
Proof.
  destruct (calculateDiversification_single_type pow_lin stocks_only
              (mkAsset "a1" "stocks" 100000) [] 100000 eq_refl eq_refl)
    as (Hs & Hc & _).
  - reflexivity.
  - reflexivity.
  - constructor.
  - reflexivity.
  - split; [exact Hs | exact Hc].
Defined.

Lemma calculateDiversification_without_total_witness :
  score (calculateDiversification pow_lin stocks_copy) = Fin 100 /\
  concentration (calculateDiversification pow_lin stocks_copy) = Fin 0.
Proof.
  destruct (calculateDiversification_without_total pow_lin stocks_copy _ [] eq_refl)
    as (_ & Hs & Hc).
  - discriminate.
  - split; [exact Hs | exact Hc].
Defined.

Lemma clearCache_forces_recomputation_witness :
  getCacheSize
    (snd (calculateProjections pow_lin show_data browser
            (clearCache (snd (calculateProjections pow_lin show_data browser
                                new_FinancialEngine stocks_only default_scenarios
                                one_year)))
            stocks_only default_scenarios one_year)) = 1%nat.
Proof.
  destruct (clearCache_forces_recomputation pow_lin show_data browser
              (snd (calculateProjections pow_lin show_data browser new_FinancialEngine
                      stocks_only default_scenarios one_year))
              stocks_only default_scenarios one_year) as (_ & _ & _ & H & _).
  - apply calculateProjections_wf. apply new_FinancialEngine_wf.
  - exact H.
Defined.

Lemma cache_serves_other_balances_witness :
  exists served,
    nth_error
      (store (snd (calculateProjections pow_lin show_data no_registry
                     (snd (calculateProjections pow_lin show_data no_registry
                             new_FinancialEngine with_mortgage default_scenarios
                             one_year))
                     with_paid_down default_scenarios one_year)))
      (fst (calculateProjections pow_lin show_data no_registry
              (snd (calculateProjections pow_lin show_data no_registry
                      new_FinancialEngine with_mortgage default_scenarios one_year))
              with_paid_down default_scenarios one_year)) = Some served /\
    (liabilities_at (base served) 1 =j Fin (sum_balances [mortgage_example]))%js.
Proof.
  destruct (cache_serves_other_balances pow_lin show_data no_registry
              new_FinancialEngine with_mortgage with_paid_down default_scenarios
              one_year 1 eq_refl) as (served & Hs & Hl & _).
  - apply lookup_empty.
  - split; [| split; [| split; [| split]]].
    + repeat constructor.
    + repeat constructor.
    + repeat constructor.
    + reflexivity.
    + reflexivity.
  - apply Qnot_eq_sym, Qlt_not_eq. reflexivity.
  - discriminate.
  - exists served. split; [exact Hs | exact Hl].
Defined.

Lemma validated_loan_payment_witness :
  exists m,
    calculateMonthlyPayment pow_lin 1000000 (85 # 10) 20 = Fin m /\
    m == spec_monthly_payment pow_lin 1000000 (85 # 10) 20 /\
    round2 (1000000 * ((85 # 10) / 100 / 12)) <= m.
Proof.
  apply (validated_loan_payment pow_lin 1000000 (85 # 10) 20 pow_lin_monotone).
  reflexivity.
Defined.

Lemma schedule_agrees_with_balance_witness :
  exists row,
    nth_error (getPaymentSchedule annuity_loan (Some 24)) 11 = Some row /\
    month row = 12%nat /\
    (remainingBalance row =j calculateRemainingBalance pow_lin annuity_loan 1)%js.
Proof.
  apply (schedule_agrees_with_balance pow_lin annuity_loan 24 24 1).
  - reflexivity.
  - reflexivity.
  - reflexivity.
  - apply Qeq_refl.
  - lia.
  - reflexivity.
  - discriminate.
Defined.

Lemma refreshed_total_is_present_value_witness :
  exists p',
    updatePortfolioValue stocks_stale = Returned p' /\
    currentValue (calculateMetrics pow_lin p'
                    (computed_projections pow_lin browser p' default_scenarios one_year)
                    one_year) == 100000.
Proof.
  eexists. split; [reflexivity |].
  eapply Qeq_trans.
  - refine (proj1 (refreshed_total_is_present_value pow_lin browser stocks_stale _
                     default_scenarios Base one_year _ eq_refl _)).
    discriminate.
  - reflexivity.
Defined.

Lemma future_values_and_volatility_witness :
  jle (Fin 0)
      (volatility (calculateMetrics pow_lin with_mortgage
                     (computed_projections pow_lin browser with_mortgage
                        default_scenarios default_settings)
                     default_settings)) = true.
Proof.
  destruct (future_values_and_volatility pow_lin browser with_mortgage default_scenarios
              default_settings 10 150000) as (_ & _ & _ & _ & H).
  - reflexivity.
  - reflexivity.
  - reflexivity.
  - apply H.
    + intros a [<- | [<- | []]]; discriminate.
    + intros a [<- | [<- | []]]; split; vm_compute; discriminate.
Defined.

Lemma rebalance_discards_modifications_witness :
  exists r total,
    applyModifications sample_clock sample_format stocks_only
      ([Buy "bonds" (Some 500)] ++ [Rebalance [("stocks", 60); ("bonds", 40)]]) 0 =
      Some r /\
    wp_totalValue r = Some (Fin total) /\ total == 100000.
Proof.
  destruct (rebalance_discards_modifications sample_clock sample_format stocks_only
              [Buy "bonds" (Some 500)] [("stocks", 60); ("bonds", 40)] 0
              [mkAsset "a1" "stocks" 100000] 100000 eq_refl eq_refl)
    as (r & new & total & Hr & _ & _ & Ht & _ & H100).
  exists r, total. split; [exact Hr |]. split; [exact Ht |].
  apply H100.
  - reflexivity.
  - intros e [<- | [<- | []]]; reflexivity.
  - reflexivity.
Defined.

Lemma sell_asset_effect_witness :
  exists r total,
    applyModifications sample_clock sample_format with_mortgage
      [Sell "a2" (Some 50)] 0 = Some r /\
    wp_totalValue r = Some (Fin total) /\ total == 125000.
Proof.
  destruct (sell_asset_effect sample_clock sample_format with_mortgage "a2" 50 50000
              [mkAsset "a1" "stocks" 100000] [] (mkAsset "a2" "bonds" 50000) 0)
    as (r & total & Hr & Ht & Hpart & _).
  - reflexivity.
  - intros x [<- | []]. discriminate.
  - reflexivity.
  - reflexivity.
  - exists r, total. split; [exact Hr |]. split; [exact Ht |].
    destruct Hpart as [_ Htotal]; [reflexivity |].
    eapply Qeq_trans; [exact Htotal | reflexivity].
Defined.

Lemma groupAssetsByType_partition_witness :
  In ("bonds", [mkAsset "a2" "bonds" 50000])
     (groupAssetsByType [mkAsset "a1" "stocks" 100000; mkAsset "a2" "bonds" 50000]).
Proof.
  destruct (groupAssetsByType_partition
              [mkAsset "a1" "stocks" 100000; mkAsset "a2" "bonds" 50000]) as (_ & _ & H).
  - repeat constructor.
  - apply (H (mkAsset "a2" "bonds" 50000)). right. left. reflexivity.
Defined.

Lemma calculateRiskScore_range_witness :
  exists k, (1 <= k <= 10)%Z /\ calculateRiskScore stocks_only (Fin 30) = Fin (inject_Z k).
Proof.
  apply (proj1 (calculateRiskScore_range stocks_only (Fin 30))).
  - repeat constructor.
  - discriminate.
Defined.

Lemma metrics_of_computed_projections_witness :
  exists d,
    maxDrawdown (calculateMetrics pow_lin with_mortgage
                   (computed_projections pow_lin browser with_mortgage
                      default_scenarios default_settings)
                   default_settings) = Fin d /\
    d = 0.
Proof.
  destruct (metrics_of_computed_projections pow_lin browser with_mortgage
              default_scenarios default_settings) as (_ & _ & H).
  destruct H as (d & Hd & _ & H0).
  - intros a [<- | [<- | []]]; discriminate.
  - intros a [<- | [<- | []]]; vm_compute; discriminate.
  - exists d. split; [exact Hd |]. apply H0.
    intros a [<- | [<- | []]]; vm_compute; discriminate.
Defined.

Lemma cache_grows_by_misses_witness :
  getCacheSize (snd (calculateProjections pow_lin show_data browser new_FinancialEngine
                       stocks_only default_scenarios one_year)) = 1%nat.
Proof.
  apply (proj1 (proj2 (cache_grows_by_misses pow_lin show_data browser
                         new_FinancialEngine stocks_only default_scenarios one_year []))).
  apply lookup_empty.
Defined.

Lemma calculateMetricsWithLiabilities_current_witness :
  exists L,
    currentLiabilities
      (calculateMetricsWithLiabilities pow_lin browser with_paid_down
         (computed_projections pow_lin browser with_paid_down default_scenarios one_year)
         one_year) = Fin L /\
    L == 1000000.
Proof.
  destruct (calculateMetricsWithLiabilities_current pow_lin browser with_paid_down
              (computed_projections pow_lin browser with_paid_down default_scenarios
                 one_year) one_year) as (L & HL & EL & _).
  exists L. split; [exact HL |]. eapply Qeq_trans; [exact EL | reflexivity].
Defined.

Lemma validateLoanParameters_spec_witness :
  isValid (validateLoanParameters (Some 1000000) (Some (85 # 10)) (Some 20)) = true.
Proof.
  apply (proj1 (validateLoanParameters_spec (Some 1000000) (Some (85 # 10)) (Some 20))).
  split; [| split]; eexists; (split; [reflexivity |]);
    try split; try reflexivity; discriminate.
Defined.



Lemma updatePortfolioValue_refresh_witness :
  exists p',
    updatePortfolioValue stocks_stale = Returned p' /\
    same_value (totalValue p') (Some (sum_values [mkAsset "a1" "stocks" 100000])).
Proof.
  eexists. split; [reflexivity |].
  refine (proj1 (proj2 (proj2 (proj2 (proj2 (updatePortfolioValue_refresh pow_lin
                                                show_data stocks_stale)) _ eq_refl)))).
Defined.

(** ** Where the code departs from the specification *)

(** C5, as the specification states it, fails: two portfolios that differ
    only in the cached [totalValue] get different risk scores, 6 and 1, and
    different current values in their metrics. *)
Lemma stale_totalValue_is_read :
  ~ (forall (p1 p2 : Portfolio) (v : number),
       assets p1 = assets p2 ->
       liabilities p1 = liabilities p2 ->
       (calculateRiskScore p1 v =j calculateRiskScore p2 v)%js) /\
  ~ (forall (p1 p2 : Portfolio) (projections : Projections) (st : Settings),
       assets p1 = assets p2 ->
       liabilities p1 = liabilities p2 ->
       currentValue (calculateMetrics pow_lin p1 projections st) ==
       currentValue (calculateMetrics pow_lin p2 projections st)) /\
  (calculateRiskScore stocks_only (Fin 0) =j Fin 6)%js /\
  (calculateRiskScore stocks_stale (Fin 0) =j Fin 1)%js.
Proof.
  assert (R6 : (calculateRiskScore stocks_only (Fin 0) =j Fin 6)%js)
    by (vm_compute; reflexivity).
  assert (R1 : (calculateRiskScore stocks_stale (Fin 0) =j Fin 1)%js)
    by (vm_compute; reflexivity).
  split; [| split; [| split; assumption]].
  - intros H.
    pose proof (H stocks_only stocks_stale (Fin 0) eq_refl eq_refl) as Hr.
    destruct (num_eq_Fin_inv _ _ R6) as (a & Ea & Ha).
    destruct (num_eq_Fin_inv _ _ R1) as (b & Eb & Hb).
    rewrite Ea, Eb in Hr. simpl in Hr. rewrite Ha, Hb in Hr. discriminate Hr.
  - intros H.
    pose proof (H stocks_only stocks_stale
                  {| pessimistic := []; base := []; optimistic := [] |}
                  default_settings eq_refl eq_refl) as Hc.
    cbn in Hc. discriminate Hc.
Qed.

(** C7, as the specification states it, fails: the payment for 1,000,000 at
    8.5% over 20 years is not within five cents of 8,678.31. *)
Lemma monthly_payment_is_not_8678_31 :
  ~ close_to (5 # 100) (calculateMonthlyPayment pow_lin 1000000 (85 # 10) 20)
      (867831 # 100).
Proof.
  destruct (num_eq_Fin_inv _ _ (mortgage_payment pow_lin)) as (x & -> & E).
  unfold close_to. rewrite E. apply Qlt_not_le. reflexivity.
Qed.

(** C8, as the specification states it, fails: a valid loan of 0.006 at 8.5%
    over 20 years has the balance 0.01 after one year, above its principal,
    which is its balance at year 0. *)
Lemma balance_above_principal :
  ~ (forall (l : Liability) (y1 y2 : Q),
       valid_liability l -> 0 <= y1 -> y1 <= y2 ->
       jle (calculateRemainingBalance pow_lin l y2) (Fin (principal l)) = true /\
       jle (calculateRemainingBalance pow_lin l y2)
           (calculateRemainingBalance pow_lin l y1) = true).
Proof.
  intros H.
  assert (V : valid_liability tiny_loan) by (repeat split).
  assert (H0 : 0 <= 0) by discriminate.
  assert (H1 : 0 <= 1) by discriminate.
  destruct (H tiny_loan 0 1 V H0 H1) as [Hb _].
  destruct (tiny_loan_balance pow_lin) as (b & E & B).
  rewrite E in Hb. apply Qleb_spec in Hb.
  change (principal tiny_loan) with (6 # 1000) in Hb. rewrite B in Hb.
  revert Hb. apply Qlt_not_le. reflexivity.
Qed.
